(** * The engine-analysis streaming pipeline of the chess front end

    A shallow embedding of
    - [frontend/src/features/chess/analysis-arrow-state.ts] (the analysis
      reducer),
    - [frontend/src/features/chess/sse.ts] (frame decoder and transport),
    - [frontend/src/routes/_layout/analysis.tsx] (candidate line merger and
      commentary extractor; engine ideas, playback moves and the typing
      animation),
    - [frontend/src/components/chess/FenBoard.tsx] (position, arrows and
      squares of the board),
    - [frontend/src/components/chess/AnalysisEvalChart.tsx] (series and rows
      of the evaluation chart),
    - [frontend/src/routes/_layout/index.tsx] (the random opening),
    followed by the properties the specification states about them and by
    further properties read off the code.

    Conventions.  A JavaScript string is the list of its UTF-16 code units
    ([jsstring]); a JavaScript [number] that the program uses as a counter,
    a depth, a rank or a score is an integer ([Z]); a coordinate or a
    plotted value is a rational ([Q]); [T | null] and optional fields are
    [option T]. *)

From Stdlib Require Import String Ascii DecimalString.
From Stdlib Require Import ZArith NArith List Bool Lia.
From Stdlib Require Import Sorting.Sorted Sorting.Permutation.
From Stdlib Require QArith Qminmax Lqa.
Import ListNotations.

Local Open Scope Z_scope.

(** ** JavaScript strings *)

Module JsText.

(** A string, as the list of its UTF-16 code units. *)
Abbreviation jsstring := (list N) (only parsing).

(** [js "text"] is the JavaScript string with the given (8-bit) characters. *)
Definition js (s : string) : jsstring :=
  List.map N_of_ascii (list_ascii_of_string s).

(** The same with every apostrophe standing for a double quote, to write
    JSON texts. *)
Definition jsq (s : string) : jsstring :=
  List.map (fun c => if (c =? 39)%N then 34%N else c) (js s).

Definition jsstring_eq_dec : forall a b : jsstring, {a = b} + {a <> b} :=
  list_eq_dec N.eq_dec.

Definition jsstring_eqb (a b : jsstring) : bool :=
  if jsstring_eq_dec a b then true else false.

(** The code units that [trim] strips and the regular expression class
    [\s] matches: WhiteSpace and LineTerminator of ECMAScript. *)
Definition isWhiteSpace (c : N) : bool :=
  ((9 <=? c) && (c <=? 13) || (c =? 32) || (c =? 160) || (c =? 5760)
   || (8192 <=? c) && (c <=? 8202) || (c =? 8232) || (c =? 8233)
   || (c =? 8239) || (c =? 8287) || (c =? 12288) || (c =? 65279))%N.

Fixpoint trimStart (s : jsstring) : jsstring :=
  match s with
  | c :: rest => if isWhiteSpace c then trimStart rest else s
  | [] => []
  end.

Definition trimEnd (s : jsstring) : jsstring := rev (trimStart (rev s)).

Definition trim (s : jsstring) : jsstring := trimEnd (trimStart s).

Fixpoint startsWith (pattern s : jsstring) : bool :=
  match pattern, s with
  | [], _ => true
  | p :: pattern', c :: s' => (c =? p)%N && startsWith pattern' s'
  | _ :: _, [] => false
  end.

(** [s.indexOf(pattern)], with [None] for -1. *)
Fixpoint indexOf (pattern s : jsstring) : option nat :=
  if startsWith pattern s then Some O
  else match s with
       | [] => None
       | _ :: s' => option_map S (indexOf pattern s')
       end.

Definition includes (pattern s : jsstring) : bool :=
  match indexOf pattern s with Some _ => true | None => false end.

(** [s.split(sep)] for a separator of one code unit. *)
Fixpoint split (sep : N) (s : jsstring) : list jsstring :=
  match s with
  | [] => [[]]
  | c :: rest =>
      if (c =? sep)%N then [] :: split sep rest
      else match split sep rest with
           | first :: others => (c :: first) :: others
           | [] => [[c]]
           end
  end.

Fixpoint join (sep : jsstring) (parts : list jsstring) : jsstring :=
  match parts with
  | [] => []
  | [part] => part
  | part :: parts' => part ++ sep ++ join sep parts'
  end.

(** [s.replace(/pattern/g, replacement)] for a pattern without
    metacharacters (and not empty): the occurrences are taken from the left
    and do not overlap.  [skip] counts the code units of the occurrence
    under way that are still to be passed over. *)
Fixpoint replaceAllFrom (skip : nat) (pattern replacement s : jsstring)
    : jsstring :=
  match s with
  | [] => []
  | c :: rest =>
      match skip with
      | S skip' => replaceAllFrom skip' pattern replacement rest
      | O =>
          if startsWith pattern s
          then replacement
                 ++ replaceAllFrom (length pattern - 1) pattern replacement rest
          else c :: replaceAllFrom 0 pattern replacement rest
      end
  end.

Definition replaceAll (pattern replacement s : jsstring) : jsstring :=
  replaceAllFrom 0 pattern replacement s.

(** [String.prototype.toLowerCase] on one code unit: the letters A-Z.  The
    texts lowered by the program are move identifiers and the marker
    [json], which are ASCII. *)
Definition lowerUnit (c : N) : N :=
  if ((65 <=? c) && (c <=? 90))%N then (c + 32)%N else c.

Definition toLowerCase (s : jsstring) : jsstring := List.map lowerUnit s.

(** [String(n)] for an integer [n]. *)
Definition numberToString (n : Z) : jsstring :=
  js (NilZero.string_of_int (Z.to_int n)).

End JsText.

Import JsText.

(** ** Wire types ([features/chess/types]) *)

Record LineArrow := {
  la_uci : jsstring;
  la_from_square : jsstring;
  la_to_square : jsstring;
  la_color_slot : Z
}.

Record StockfishPVLine := {
  rank : Z;
  san : option jsstring;
  cp : option Z;
  mate : option Z;
  arrow : LineArrow;
  pv : list jsstring
}.

Record StockfishDepthUpdateEvent := {
  du_analysis_id : jsstring;
  du_fen : jsstring;
  du_side_to_move : jsstring;
  du_depth : Z;
  du_multipv : Z;
  du_bestmove_uci : option jsstring;
  du_lines : list StockfishPVLine;
  du_generated_at : jsstring
}.

Record StockfishAnalysisCompleteEvent := {
  ac_analysis_id : jsstring;
  ac_fen : jsstring;
  ac_final_depth : Z;
  ac_bestmove_uci : option jsstring;
  ac_lines : list StockfishPVLine;
  ac_reason : jsstring;
  ac_generated_at : jsstring
}.

Record StockfishAnalysisErrorEvent := {
  ae_analysis_id : option jsstring;
  ae_code : jsstring;
  ae_message : jsstring;
  ae_retryable : bool;
  ae_generated_at : jsstring
}.

(** The union [StockfishStreamEvent], tagged by its [type] field.  The last
    constructor stands for a payload whose [type] is none of the three
    declared ones: the reducer tests for it ([!isDepthLikeEvent]). *)
Inductive StockfishStreamEvent :=
| depth_update (e : StockfishDepthUpdateEvent)
| analysis_complete (e : StockfishAnalysisCompleteEvent)
| analysis_error (e : StockfishAnalysisErrorEvent)
| other_event (type : jsstring).

(** ** The analysis reducer ([analysis-arrow-state.ts]) *)

Module ArrowState.

Record AnalysisBoardArrow := {
  from_square : jsstring;
  to_square : jsstring;
  color_slot : Z;
  arrow_rank : Z;
  uci : jsstring;
  arrow_cp : option Z;
  arrow_mate : option Z
}.

Record AnalysisArrowSession := {
  streamToken : Z;
  targetFen : jsstring;
  analysisId : option jsstring;
  minDepth : Z;
  warmupDepthCount : Z;
  warmupTopN : Z;
  steadyTopN : Z
}.

Record AnalysisArrowSnapshot := {
  snap_targetFen : jsstring;
  snap_analysisId : jsstring;
  snap_depth : Z;
  arrows : list AnalysisBoardArrow;
  updatedAtMs : Z
}.

Inductive AnalysisStreamStatus := idle | streaming | closed.

Record AnalysisArrowState := {
  status : AnalysisStreamStatus;
  session : option AnalysisArrowSession;
  snapshot : option AnalysisArrowSnapshot;
  events : list StockfishStreamEvent;
  lastError : option jsstring
}.

Inductive AnalysisArrowAction :=
| start_session (streamToken : Z) (targetFen : jsstring)
    (minDepth warmupDepthCount warmupTopN steadyTopN : Z)
| stop_session (streamToken : Z) (nextStatus : AnalysisStreamStatus)
| reset_for_board_change
| local_error (message : jsstring)
| ingest_stream_event (streamToken : Z) (payload : StockfishStreamEvent).

Definition mapLineToBoardArrow (line : StockfishPVLine) : AnalysisBoardArrow :=
  {| from_square := la_from_square (arrow line);
     to_square := la_to_square (arrow line);
     color_slot := la_color_slot (arrow line);
     arrow_rank := rank line;
     uci := la_uci (arrow line);
     arrow_cp := cp line;
     arrow_mate := mate line |}.

(** The depth-like payloads, with the fields the reducer reads from both. *)
Inductive DepthLike :=
| dl_update (e : StockfishDepthUpdateEvent)
| dl_complete (e : StockfishAnalysisCompleteEvent).

Definition isDepthLikeEvent (payload : StockfishStreamEvent) : option DepthLike :=
  match payload with
  | depth_update e => Some (dl_update e)
  | analysis_complete e => Some (dl_complete e)
  | _ => None
  end.

Definition depthOfEvent (payload : DepthLike) : Z :=
  match payload with
  | dl_update e => du_depth e
  | dl_complete e => ac_final_depth e
  end.

Definition fenOfEvent (payload : DepthLike) : jsstring :=
  match payload with
  | dl_update e => du_fen e
  | dl_complete e => ac_fen e
  end.

Definition analysisIdOfEvent (payload : DepthLike) : jsstring :=
  match payload with
  | dl_update e => du_analysis_id e
  | dl_complete e => ac_analysis_id e
  end.

Definition linesOfEvent (payload : DepthLike) : list StockfishPVLine :=
  match payload with
  | dl_update e => du_lines e
  | dl_complete e => ac_lines e
  end.

(** [Array.prototype.slice(0, n)] for an integer [n]. *)
Definition slice0 {A} (n : Z) (l : list A) : list A := firstn (Z.to_nat n) l.

Definition stageTopN (depth : Z) (session : AnalysisArrowSession) : Z :=
  let warmupDepthLimit := minDepth session + warmupDepthCount session - 1 in
  if depth <=? warmupDepthLimit then warmupTopN session else steadyTopN session.

Definition trimLinesForStage (lines : list StockfishPVLine) (depth : Z)
    (session : AnalysisArrowSession) : list StockfishPVLine :=
  slice0 (Z.max 1 (stageTopN depth session)) lines.

Definition createInitialAnalysisArrowState : AnalysisArrowState :=
  {| status := idle; session := None; snapshot := None; events := [];
     lastError := None |}.

(** [payload] with its lines replaced by the trimmed ones (and, for a
    depth update, [multipv] by their number). *)
Definition trimPayload (payload : DepthLike)
    (trimmedLines : list StockfishPVLine) : StockfishStreamEvent :=
  match payload with
  | dl_update e =>
      depth_update
        {| du_analysis_id := du_analysis_id e; du_fen := du_fen e;
           du_side_to_move := du_side_to_move e; du_depth := du_depth e;
           du_multipv := Z.of_nat (length trimmedLines);
           du_bestmove_uci := du_bestmove_uci e; du_lines := trimmedLines;
           du_generated_at := du_generated_at e |}
  | dl_complete e =>
      analysis_complete
        {| ac_analysis_id := ac_analysis_id e; ac_fen := ac_fen e;
           ac_final_depth := ac_final_depth e;
           ac_bestmove_uci := ac_bestmove_uci e; ac_lines := trimmedLines;
           ac_reason := ac_reason e; ac_generated_at := ac_generated_at e |}
  end.

Definition withAnalysisId (s : AnalysisArrowSession) (id : jsstring)
    : AnalysisArrowSession :=
  {| streamToken := streamToken s; targetFen := targetFen s;
     analysisId := Some id; minDepth := minDepth s;
     warmupDepthCount := warmupDepthCount s; warmupTopN := warmupTopN s;
     steadyTopN := steadyTopN s |}.

(** The [ingest_stream_event] case once the token guard has passed. *)
Definition ingest (now : Z) (state : AnalysisArrowState)
    (sess : AnalysisArrowSession) (payload : StockfishStreamEvent)
    : AnalysisArrowState :=
  match payload with
  | analysis_error e =>
      {| status := closed; session := None; snapshot := None;
         events := events state ++ [payload];
         lastError := Some (ae_message e) |}
  | _ =>
    match isDepthLikeEvent payload with
    | None => state
    | Some dl =>
      if negb (jsstring_eqb (fenOfEvent dl) (targetFen sess)) then state
      else if match analysisId sess with
              | Some id => negb (jsstring_eqb (analysisIdOfEvent dl) id)
              | None => false
              end then state
      else
        let analysisId' :=
          match analysisId sess with
          | Some id => id
          | None => analysisIdOfEvent dl
          end in
        let depth := depthOfEvent dl in
        let trimmedLines := trimLinesForStage (linesOfEvent dl) depth sess in
        let trimmedPayload := trimPayload dl trimmedLines in
        let snapshot' :=
          {| snap_targetFen := fenOfEvent dl;
             snap_analysisId := analysisId';
             snap_depth := depth;
             arrows := List.map mapLineToBoardArrow trimmedLines;
             updatedAtMs := now |} in
        match dl with
        | dl_complete _ =>
            {| status := closed; session := None; snapshot := Some snapshot';
               events := events state ++ [trimmedPayload];
               lastError := None |}
        | dl_update _ =>
            {| status := streaming;
               session := Some (withAnalysisId sess analysisId');
               snapshot := Some snapshot';
               events := events state ++ [trimmedPayload];
               lastError := None |}
        end
    end
  end.

(** [analysisArrowReducer]; [now] is the value [Date.now()] returns during
    the call. *)
Definition analysisArrowReducer (now : Z) (state : AnalysisArrowState)
    (action : AnalysisArrowAction) : AnalysisArrowState :=
  match action with
  | start_session tok fen minD warmC warmN steadyN =>
      {| status := streaming;
         session := Some {| streamToken := tok; targetFen := fen;
                            analysisId := None; minDepth := minD;
                            warmupDepthCount := warmC; warmupTopN := warmN;
                            steadyTopN := steadyN |};
         snapshot := None; events := []; lastError := None |}
  | stop_session tok nextStatus =>
      match session state with
      | None => state
      | Some sess =>
          if negb (streamToken sess =? tok) then state
          else {| status := nextStatus; session := None;
                  snapshot := snapshot state; events := events state;
                  lastError := lastError state |}
      end
  | reset_for_board_change => createInitialAnalysisArrowState
  | local_error message =>
      {| status := closed; session := None; snapshot := None; events := [];
         lastError := Some message |}
  | ingest_stream_event tok payload =>
      match session state with
      | None => state
      | Some sess =>
          if negb (streamToken sess =? tok) then state
          else ingest now state sess payload
      end
  end.

(** A run of the reducer: each dispatched action comes with the clock
    reading of its call. *)
Definition dispatchAll (state : AnalysisArrowState)
    (actions : list (Z * AnalysisArrowAction)) : AnalysisArrowState :=
  fold_left (fun s a => analysisArrowReducer (fst a) s (snd a)) actions state.

(** The action starts a session whose token is [tok]. *)
Definition startsToken (tok : Z) (a : AnalysisArrowAction) : Prop :=
  match a with
  | start_session t _ _ _ _ _ => t = tok
  | _ => False
  end.

(** An [ingest_stream_event] passes every guard of the reducer: the session
    is live with that token, the payload is depth-like, for the session's
    position, and agrees with a pinned analysis id. *)
Definition accepted (state : AnalysisArrowState) (tok : Z)
    (payload : StockfishStreamEvent) (sess : AnalysisArrowSession)
    (dl : DepthLike) : Prop :=
  session state = Some sess /\
  streamToken sess = tok /\
  isDepthLikeEvent payload = Some dl /\
  fenOfEvent dl = targetFen sess /\
  (forall id, analysisId sess = Some id -> analysisIdOfEvent dl = id).

(** No session with token [tok] is current. *)
Definition tokenDead (tok : Z) (state : AnalysisArrowState) : Prop :=
  forall sess, session state = Some sess -> streamToken sess <> tok.

End ArrowState.

(** ** The frame decoder ([features/chess/sse.ts]) *)

Module Sse.

Record SseFrame := { eventName : jsstring; eventData : jsstring }.

Definition LF : jsstring := [10%N].
Definition CRLF : jsstring := [13%N; 10%N].
Definition blankLine : jsstring := [10%N; 10%N].

(** The body of the loop over the lines of a block, on the pair of
    [eventName] and [dataLines]. *)
Definition parseLine (acc : jsstring * list jsstring) (line : jsstring)
    : jsstring * list jsstring :=
  let (eventName, dataLines) := acc in
  match line with
  | [] => acc
  | _ =>
    if startsWith (js ":") line then acc
    else if startsWith (js "event:") line then
      (match trim (skipn 6 line) with
       | [] => js "message"
       | name => name
       end, dataLines)
    else if startsWith (js "data:") line then
      let value := skipn 5 line in
      let value := if startsWith (js " ") value then skipn 1 value else value in
      (eventName, dataLines ++ [value])
    else acc
  end.

Definition parseSseEventBlock (block : jsstring) : option SseFrame :=
  let lines := split 10 block in
  let (eventName, dataLines) := fold_left parseLine lines (js "message", []) in
  match dataLines with
  | [] => None
  | _ => Some {| eventName := eventName; eventData := join LF dataLines |}
  end.

(** The [while] loop of [emitBufferedEvents]: the frames handed to [onEvent],
    in order, and the final [working].  Every turn shortens [working], so
    [fuel = length working] turns are enough. *)
Fixpoint emitLoop (fuel : nat) (working : jsstring)
    : list SseFrame * jsstring :=
  match fuel with
  | O => ([], working)
  | S fuel' =>
      match indexOf blankLine working with
      | None => ([], working)
      | Some delimiterIndex =>
          let rawBlock := firstn delimiterIndex working in
          let working' := skipn (delimiterIndex + 2) working in
          let (emitted, remainder) := emitLoop fuel' working' in
          (match parseSseEventBlock rawBlock with
           | Some parsed => parsed :: emitted
           | None => emitted
           end, remainder)
      end
  end.

(** [emitBufferedEvents(buffer, onEvent)]: the calls of [onEvent] and the
    returned remainder. *)
Definition emitBufferedEvents (buffer : jsstring) : list SseFrame * jsstring :=
  let working := replaceAll CRLF LF buffer in
  emitLoop (length working) working.

(** The read loop of the transport feeds the decoder chunk by chunk:
    [buffer += chunk; buffer = emitBufferedEvents(buffer, onEvent)]. *)
Definition feedChunk (st : list SseFrame * jsstring) (chunk : jsstring)
    : list SseFrame * jsstring :=
  let (emitted, remainder) := emitBufferedEvents (snd st ++ chunk) in
  (fst st ++ emitted, remainder).

Definition decodeChunks (chunks : list jsstring) : list SseFrame * jsstring :=
  fold_left feedChunk chunks ([], []).

End Sse.

(** ** The transport ([openAuthenticatedSse] in [features/chess/sse.ts])

    One handle is a coroutine ([run]) and a [close] function that share the
    flag [closed] and the abort controller.  Execution is single-threaded:
    [run] advances when a promise it awaits settles, and hands control to
    the consumer whenever it calls a callback; the consumer may call
    [close()] while [run] is suspended or from inside a callback.  The
    model is the transition function of the handle over these inputs.
    A callback that [run] calls ends by returning or by throwing; what it
    throws lands in the [catch] block of [run], like a rejected promise. *)

Module Transport.
Import Sse.

Inductive Callback :=
| OnOpen
| OnEvent (frame : SseFrame)
| OnClose
| OnError (message : jsstring).

(** Where [run] stands. *)
Inductive ProgramPoint :=
| AwaitFetch                          (* await fetch(url, ...) *)
| AwaitErrorBody (reason : jsstring)  (* await response.text() *)
| AfterOpen                           (* inside callbacks.onOpen() *)
| AwaitRead (buffer : jsstring)       (* await reader.read() *)
| Emitting (pending : list SseFrame) (remainder : jsstring)
                                      (* inside callbacks.onEvent(...) *)
| Closing                             (* inside callbacks.onClose(), line 113 *)
| Finished.

Record Handle := {
  closed : bool;
  aborted : bool;                     (* controller.signal.aborted *)
  point : ProgramPoint
}.

(** A thrown value: an [Error] with its message, or something else. *)
Definition Thrown := option jsstring.

Inductive Input :=
| FetchResolved (ok : bool) (status : Z) (statusText : jsstring)
    (hasBody : bool)
| FetchRejected (error : Thrown)
| TextResolved (body : jsstring)
| TextRejected
| ReadDone
| ReadValue (value : option jsstring)
| ReadRejected (error : Thrown)
| Returned                            (* the callback under way returns *)
| Threw (error : Thrown)              (* the callback under way throws *)
| Close.                              (* the consumer calls close() *)

(** The state when [openAuthenticatedSse] returns the handle. *)
Definition opened : Handle :=
  {| closed := false; aborted := false; point := AwaitFetch |}.

(** The [catch] block of [run].  [onError] is its last statement: whether
    that call returns or throws, [run] is over. *)
Definition catchError (h : Handle) (error : Thrown) : Handle * list Callback :=
  let h' := {| closed := closed h; aborted := aborted h; point := Finished |} in
  if aborted h then (h', [])
  else (h', [OnError (match error with
                      | Some message => message
                      | None => js "Unknown stream error."
                      end)]).

(** After the [while] loop. *)
Definition afterLoop (h : Handle) : Handle * list Callback :=
  if closed h
  then ({| closed := true; aborted := aborted h; point := Finished |}, [])
  else ({| closed := true; aborted := aborted h; point := Closing |}, [OnClose]).

(** The test of the [while] loop, with [buffer] as it stands. *)
Definition loopHead (h : Handle) (buffer : jsstring) : Handle * list Callback :=
  if closed h then afterLoop h
  else ({| closed := closed h; aborted := aborted h;
           point := AwaitRead buffer |}, []).

(** [emitBufferedEvents] under way: the next call of [onEvent], or back to
    the loop. *)
Definition emitNext (h : Handle) (pending : list SseFrame)
    (remainder : jsstring) : Handle * list Callback :=
  match pending with
  | frame :: pending' =>
      ({| closed := closed h; aborted := aborted h;
          point := Emitting pending' remainder |}, [OnEvent frame])
  | [] => loopHead h remainder
  end.

(** [close()].  Its call of [onClose] is not under the [try] of [run]:
    what that call throws goes to the caller of [close()], which is the
    callback under way when [close()] is called from inside one. *)
Definition close (h : Handle) : Handle * list Callback :=
  if closed h then (h, [])
  else ({| closed := true; aborted := true; point := point h |}, [OnClose]).

Definition failureMessage (reason : jsstring) : jsstring :=
  js "Stream request failed: " ++ reason.

(** One transition.  An input that does not answer the program point (a
    promise that [run] is not awaiting, the end of a callback when [run] is
    in none) changes nothing. *)
Definition step (h : Handle) (i : Input) : Handle * list Callback :=
  match i, point h with
  | Close, _ => close h
  | FetchResolved ok status statusText hasBody, AwaitFetch =>
      if negb ok then
        ({| closed := closed h; aborted := aborted h;
            point := AwaitErrorBody
                       (numberToString status ++ js " " ++ statusText) |}, [])
      else if negb hasBody then
        catchError h (Some (js "Stream request returned no readable body."))
      else
        ({| closed := closed h; aborted := aborted h; point := AfterOpen |},
         [OnOpen])
  | FetchRejected error, AwaitFetch => catchError h error
  | TextResolved body, AwaitErrorBody reason =>
      catchError h (Some (failureMessage
                            (match trim body with
                             | [] => reason
                             | _ => body
                             end)))
  | TextRejected, AwaitErrorBody reason =>
      catchError h (Some (failureMessage reason))
  | Returned, AfterOpen => loopHead h []
  | Threw error, AfterOpen => catchError h error
  | ReadDone, AwaitRead buffer => afterLoop h
  | ReadValue None, AwaitRead buffer => loopHead h buffer
  | ReadValue (Some chunk), AwaitRead buffer =>
      let (frames, remainder) := emitBufferedEvents (buffer ++ chunk) in
      emitNext h frames remainder
  | ReadRejected error, AwaitRead buffer => catchError h error
  | Returned, Emitting pending remainder => emitNext h pending remainder
  | Threw error, Emitting pending remainder => catchError h error
  | Returned, Closing =>
      ({| closed := closed h; aborted := aborted h; point := Finished |}, [])
  | Threw error, Closing => catchError h error
  | _, _ => (h, [])
  end.

(** The callbacks delivered along a schedule of inputs, and the final
    state. *)
Fixpoint deliver (h : Handle) (inputs : list Input) : Handle * list Callback :=
  match inputs with
  | [] => (h, [])
  | i :: inputs' =>
      let (h', now) := step h i in
      let (h'', later) := deliver h' inputs' in
      (h'', now ++ later)
  end.


Definition isOnError (c : Callback) : bool :=
  match c with OnError _ => true | _ => false end.


End Transport.

(** ** The candidate line merger ([routes/_layout/analysis.tsx]) *)

Module Merger.

Record CandidateStockfishLine := {
  branchUci : jsstring;
  firstMoveSan : option jsstring;
  depth : Z;
  cand_rank : Z;
  evalLabel : jsstring;
  pvUci : list jsstring
}.

(** The payloads that pass [isStockfishDepthLikeEvent]. *)
Inductive DepthLikeEvent :=
| update (e : StockfishDepthUpdateEvent)
| complete (e : StockfishAnalysisCompleteEvent).

Definition stockfishDepthOfEvent (payload : DepthLikeEvent) : Z :=
  match payload with
  | update e => du_depth e
  | complete e => ac_final_depth e
  end.

Definition payloadLines (payload : DepthLikeEvent) : list StockfishPVLine :=
  match payload with
  | update e => du_lines e
  | complete e => ac_lines e
  end.

(** [(cp / 100).toFixed(2)] for an integer [cp]: the sign, the whole pawns,
    and the two hundredth digits. *)
Definition pawnScoreToFixed2 (cp : Z) : jsstring :=
  let a := Z.abs cp in
  (if cp <? 0 then js "-" else []) ++
  numberToString (a / 100) ++ js "." ++
  numberToString ((a mod 100) / 10) ++ numberToString (a mod 10).

Definition formatEvalLabel (cp mate : option Z) : jsstring :=
  match mate with
  | Some m => js "M" ++ (if m >? 0 then js "+" else []) ++ numberToString m
  | None =>
      match cp with
      | Some c =>
          if c >? 0 then js "+" ++ pawnScoreToFixed2 c else pawnScoreToFixed2 c
      | None => js "n/a"
      end
  end.

(** A JavaScript [Map] with string keys: its entries in insertion order.
    [set] on a present key replaces the value where it stands, on an absent
    key appends the entry. *)
Section JsMap.
Context {V : Type}.

Definition JsMap := list (jsstring * V).

Fixpoint mapGet (k : jsstring) (m : JsMap) : option V :=
  match m with
  | [] => None
  | (k', v) :: m' => if jsstring_eqb k' k then Some v else mapGet k m'
  end.

Fixpoint mapSet (k : jsstring) (v : V) (m : JsMap) : JsMap :=
  match m with
  | [] => [(k, v)]
  | (k', v') :: m' =>
      if jsstring_eqb k' k then (k, v) :: m' else (k', v') :: mapSet k v m'
  end.

(** [new Map(entries)] *)
Definition mapOfEntries (entries : list (jsstring * V)) : JsMap :=
  fold_left (fun m e => mapSet (fst e) (snd e) m) entries [].

(** [Array.from(map.values())] *)
Definition mapValues (m : JsMap) : list V := List.map snd m.

(** [Array.from(map.keys())] *)
Definition mapKeys (m : JsMap) : list jsstring := List.map fst m.
End JsMap.

(** [Array.prototype.sort(compare)], which is stable: insertion sort that
    puts an element ahead of the first one it does not compare greater
    than. *)
Section Sort.
Context {A : Type} (compare : A -> A -> Z).

Fixpoint insertSorted (x : A) (l : list A) : list A :=
  match l with
  | [] => [x]
  | y :: l' => if compare x y <=? 0 then x :: l else y :: insertSorted x l'
  end.

Definition sortBy (l : list A) : list A := fold_right insertSorted [] l.
End Sort.

(** [(a, b) => b.depth - a.depth || a.rank - b.rank] *)
Definition compareCandidates (a b : CandidateStockfishLine) : Z :=
  if negb (depth b - depth a =? 0) then depth b - depth a
  else cand_rank a - cand_rank b.

(** The key of a reported line: [(line.pv[0] ?? line.arrow.uci ?? "")
    .toLowerCase()]. *)
Definition branchOfLine (line : StockfishPVLine) : jsstring :=
  toLowerCase (match pv line with
               | move :: _ => move
               | [] => la_uci (arrow line)
               end).

Definition candidateOfLine (depth : Z) (line : StockfishPVLine)
    : CandidateStockfishLine :=
  {| branchUci := branchOfLine line;
     firstMoveSan := san line;
     depth := depth;
     cand_rank := rank line;
     evalLabel := formatEvalLabel (cp line) (mate line);
     pvUci := firstn 8 (List.map toLowerCase
                          (match pv line with
                           | [] => [la_uci (arrow line)]
                           | _ => pv line
                           end)) |}.

(** One iteration of the loop over [payload.lines]. *)
Definition mergeLine (depth0 : Z) (byBranch : @JsMap CandidateStockfishLine)
    (line : StockfishPVLine) : JsMap :=
  let branch := branchOfLine line in
  match branch with
  | [] => byBranch
  | _ =>
      let candidate := candidateOfLine depth0 line in
      match mapGet branch byBranch with
      | None => mapSet branch candidate byBranch
      | Some existing =>
          if (depth0 >? depth existing)
             || ((depth0 =? depth existing) && (rank line <? cand_rank existing))
          then mapSet branch candidate byBranch
          else byBranch
      end
  end.

Definition byBranchOf (current : list CandidateStockfishLine) : JsMap :=
  mapOfEntries (List.map (fun line => (branchUci line, line)) current).

Definition mergedMap (current : list CandidateStockfishLine)
    (payload : DepthLikeEvent) : JsMap :=
  fold_left (mergeLine (stockfishDepthOfEvent payload)) (payloadLines payload)
    (byBranchOf current).

Definition mergeCandidateStockfishLines (current : list CandidateStockfishLine)
    (payload : DepthLikeEvent) : list CandidateStockfishLine :=
  firstn 10 (sortBy compareCandidates (mapValues (mergedMap current payload))).

(** The order of the result: deeper first, and at equal depth the lower
    rank first. *)
Definition candidateLe (a b : CandidateStockfishLine) : Prop :=
  depth b < depth a \/ (depth a = depth b /\ cand_rank a <= cand_rank b).

End Merger.

(** ** [JSON.parse]

    The host function the commentary extractor calls, modelled after the
    JSON grammar of ECMA-404 as ECMAScript's [JSON.parse] reads it: a lexer
    over the code units, then a parser over the tokens with an explicit
    stack.  Both are state machines that take one code unit (one token) at a
    time, so they are total.  A number keeps its literal: the extractor only
    ever asks whether a value is a string, an array or an object. *)

Module Json.

#[local] Set Warnings "-register-all".

Inductive value :=
| JNull
| JBool (b : bool)
| JNumber (literal : jsstring)
| JString (s : jsstring)
| JArray (items : list value)
| JObject (members : list (jsstring * value)).

Inductive token :=
| LBrace | RBrace | LBracket | RBracket | Colon | Comma
| TString (s : jsstring)
| TNumber (literal : jsstring)
| TTrue | TFalse | TNull.

(** *** The lexer *)

(** Where the lexer stands inside a number: an optional minus sign; a zero,
    or a nonzero digit and more digits; optionally a point and digits;
    optionally an exponent mark, a sign and digits. *)
Inductive numberState :=
| NMinus | NZero | NInt | NDot | NFrac | NExp | NExpSign | NExpDigits.

Inductive lexState :=
| LDefault
| LString (acc : jsstring)                     (* inside a string, reversed *)
| LEscape (acc : jsstring)                     (* after a backslash *)
| LUnicode (acc : jsstring) (digits : list N)  (* after \u, hex digits read *)
| LNumber (literal : jsstring) (st : numberState)   (* reversed literal *)
| LLiteral (rest : jsstring) (tok : token).    (* inside true, false, null *)

Definition isDigit (c : N) : bool := ((48 <=? c) && (c <=? 57))%N.

Definition hexValue (c : N) : option N :=
  if isDigit c then Some (c - 48)%N
  else if ((97 <=? c) && (c <=? 102))%N then Some (c - 87)%N
  else if ((65 <=? c) && (c <=? 70))%N then Some (c - 55)%N
  else None.

(** JSON white space: space, tab, line feed, carriage return. *)
Definition isJsonSpace (c : N) : bool :=
  ((c =? 32) || (c =? 9) || (c =? 10) || (c =? 13))%N.

Definition numberAccepts (st : numberState) : bool :=
  match st with
  | NZero | NInt | NFrac | NExpDigits => true
  | _ => false
  end.

(** The number goes on with [c]. *)
Definition numberStep (st : numberState) (c : N) : option numberState :=
  let digit := isDigit c in
  let isE := ((c =? 101) || (c =? 69))%N in
  match st with
  | NMinus => if (c =? 48)%N then Some NZero else if digit then Some NInt else None
  | NZero => if (c =? 46)%N then Some NDot else if isE then Some NExp else None
  | NInt => if digit then Some NInt else if (c =? 46)%N then Some NDot
            else if isE then Some NExp else None
  | NDot => if digit then Some NFrac else None
  | NFrac => if digit then Some NFrac else if isE then Some NExp else None
  | NExp => if digit then Some NExpDigits
            else if ((c =? 43) || (c =? 45))%N then Some NExpSign else None
  | NExpSign => if digit then Some NExpDigits else None
  | NExpDigits => if digit then Some NExpDigits else None
  end.

(** The escape [\c] inside a string, [u] apart. *)
Definition simpleEscape (c : N) : option N :=
  if (c =? 34)%N then Some 34%N            (* quote *)
  else if (c =? 92)%N then Some 92%N       (* backslash *)
  else if (c =? 47)%N then Some 47%N       (* slash *)
  else if (c =? 98)%N then Some 8%N        (* b: backspace *)
  else if (c =? 102)%N then Some 12%N      (* f: form feed *)
  else if (c =? 110)%N then Some 10%N      (* n: line feed *)
  else if (c =? 114)%N then Some 13%N      (* r: carriage return *)
  else if (c =? 116)%N then Some 9%N       (* t: tab *)
  else None.

(** A code unit met outside strings, numbers and literals. *)
Definition lexDefault (c : N) : option (lexState * list token) :=
  if isJsonSpace c then Some (LDefault, [])
  else if (c =? 123)%N then Some (LDefault, [LBrace])
  else if (c =? 125)%N then Some (LDefault, [RBrace])
  else if (c =? 91)%N then Some (LDefault, [LBracket])
  else if (c =? 93)%N then Some (LDefault, [RBracket])
  else if (c =? 58)%N then Some (LDefault, [Colon])
  else if (c =? 44)%N then Some (LDefault, [Comma])
  else if (c =? 34)%N then Some (LString [], [])
  else if (c =? 45)%N then Some (LNumber [c] NMinus, [])
  else if (c =? 48)%N then Some (LNumber [c] NZero, [])
  else if isDigit c then Some (LNumber [c] NInt, [])
  else if (c =? 116)%N then Some (LLiteral (js "rue") TTrue, [])
  else if (c =? 102)%N then Some (LLiteral (js "alse") TFalse, [])
  else if (c =? 110)%N then Some (LLiteral (js "ull") TNull, [])
  else None.

(** One code unit: the next state and the tokens completed, or a syntax
    error. *)
Definition lexStep (st : lexState) (c : N) : option (lexState * list token) :=
  match st with
  | LDefault => lexDefault c
  | LString acc =>
      if (c =? 34)%N then Some (LDefault, [TString (rev acc)])
      else if (c =? 92)%N then Some (LEscape acc, [])
      else if (c <? 32)%N then None
      else Some (LString (c :: acc), [])
  | LEscape acc =>
      if (c =? 117)%N then Some (LUnicode acc [], [])
      else match simpleEscape c with
           | Some unit => Some (LString (unit :: acc), [])
           | None => None
           end
  | LUnicode acc digits =>
      match hexValue c with
      | None => None
      | Some d =>
          match digits with
          | [d1; d2; d3] =>
              Some (LString ((((d1 * 16 + d2) * 16 + d3) * 16 + d)%N :: acc), [])
          | _ => Some (LUnicode acc (digits ++ [d]), [])
          end
      end
  | LNumber literal nst =>
      match numberStep nst c with
      | Some nst' => Some (LNumber (c :: literal) nst', [])
      | None =>
          if numberAccepts nst then
            match lexDefault c with
            | Some (st', toks) => Some (st', TNumber (rev literal) :: toks)
            | None => None
            end
          else None
      end
  | LLiteral rest tok =>
      match rest with
      | expected :: rest' =>
          if (c =? expected)%N then
            match rest' with
            | [] => Some (LDefault, [tok])
            | _ => Some (LLiteral rest' tok, [])
            end
          else None
      | [] => None
      end
  end.

Fixpoint lexFrom (st : lexState) (s : jsstring) : option (lexState * list token) :=
  match s with
  | [] => Some (st, [])
  | c :: rest =>
      match lexStep st c with
      | None => None
      | Some (st', toks) =>
          match lexFrom st' rest with
          | None => None
          | Some (st'', toks') => Some (st'', toks ++ toks')
          end
      end
  end.

(** The end of the text: nothing may be left open but a complete number. *)
Definition lexEnd (st : lexState) : option (list token) :=
  match st with
  | LDefault => Some []
  | LNumber literal nst =>
      if numberAccepts nst then Some [TNumber (rev literal)] else None
  | _ => None
  end.

Definition lex (s : jsstring) : option (list token) :=
  match lexFrom LDefault s with
  | None => None
  | Some (st, toks) =>
      match lexEnd st with
      | None => None
      | Some last => Some (toks ++ last)
      end
  end.

(** *** The parser *)

(** An array or object under construction. *)
Inductive frame :=
| FArray (items : list value)                        (* reversed *)
| FObject (members : list (jsstring * value)) (key : option jsstring).

(** What the parser expects next. *)
Inductive control :=
| CValue (mayClose : bool)   (* a value; [mayClose]: or a closing bracket *)
| CKey (mayClose : bool)     (* a key; [mayClose]: or a closing brace *)
| CColon
| CNext                      (* a comma or the closing bracket *)
| CDone (v : value).

Definition parseState := (list frame * control)%type.

(** A value is complete: it goes into the innermost container under
    construction, or is the result. *)
Definition complete (stack : list frame) (v : value) : option parseState :=
  match stack with
  | [] => Some ([], CDone v)
  | FArray items :: stack' => Some (FArray (v :: items) :: stack', CNext)
  | FObject members (Some key) :: stack' =>
      Some (FObject ((key, v) :: members) None :: stack', CNext)
  | FObject _ None :: _ => None
  end.

Definition scalarOf (t : token) : option value :=
  match t with
  | TString s => Some (JString s)
  | TNumber literal => Some (JNumber literal)
  | TTrue => Some (JBool true)
  | TFalse => Some (JBool false)
  | TNull => Some JNull
  | _ => None
  end.

Definition parseStep (st : parseState) (t : token) : option parseState :=
  let (stack, ctl) := st in
  match ctl with
  | CValue mayClose =>
      match t with
      | LBracket => Some (FArray [] :: stack, CValue true)
      | LBrace => Some (FObject [] None :: stack, CKey true)
      | RBracket =>
          match mayClose, stack with
          | true, FArray items :: stack' => complete stack' (JArray (rev items))
          | _, _ => None
          end
      | _ => match scalarOf t with
             | Some v => complete stack v
             | None => None
             end
      end
  | CKey mayClose =>
      match t, stack with
      | TString key, FObject members None :: stack' =>
          Some (FObject members (Some key) :: stack', CColon)
      | RBrace, FObject members None :: stack' =>
          if mayClose then complete stack' (JObject (rev members)) else None
      | _, _ => None
      end
  | CColon =>
      match t with
      | Colon => Some (stack, CValue false)
      | _ => None
      end
  | CNext =>
      match t, stack with
      | Comma, FArray _ :: _ => Some (stack, CValue false)
      | RBracket, FArray items :: stack' => complete stack' (JArray (rev items))
      | Comma, FObject _ None :: _ => Some (stack, CKey false)
      | RBrace, FObject members None :: stack' =>
          complete stack' (JObject (rev members))
      | _, _ => None
      end
  | CDone _ => None
  end.

Fixpoint parseFrom (st : parseState) (toks : list token) : option parseState :=
  match toks with
  | [] => Some st
  | t :: toks' =>
      match parseStep st t with
      | None => None
      | Some st' => parseFrom st' toks'
      end
  end.

Definition parseTokens (toks : list token) : option value :=
  match parseFrom ([], CValue false) toks with
  | Some ([], CDone v) => Some v
  | _ => None
  end.

(** [JSON.parse(text)]: the value, or [None] for a [SyntaxError]. *)
Definition parse (text : jsstring) : option value :=
  match lex text with
  | None => None
  | Some toks => parseTokens toks
  end.

(** The own property [name] of a parsed object: of members with the same
    name the last one stands. *)
Fixpoint lookup (name : jsstring) (members : list (jsstring * value))
    : option value :=
  match members with
  | [] => None
  | (key, v) :: members' =>
      match lookup name members' with
      | Some later => Some later
      | None => if jsstring_eqb key name then Some v else None
      end
  end.

End Json.

(** ** The commentary extractor ([routes/_layout/analysis.tsx]) *)

Module Commentary.
Import Json.

(** How an evaluation ends: with a value, or with an exception thrown. *)
Inductive completion (A : Type) :=
| Normal (a : A)
| Throw.
Arguments Normal {A} a.
Arguments Throw {A}.

Inductive AdvantageSide := white | black | equal | unclear.

Record ConcreteIdea := {
  title : jsstring;
  description : jsstring;
  selected_line_id : jsstring;
  playback_pv_uci : list jsstring
}.

Record CommentaryStructuredPlan := {
  position_plan_title : jsstring;
  advantage_side : AdvantageSide;
  advantage_summary : jsstring;
  best_move_san : jsstring;
  best_move_reason : jsstring;
  danger_to_watch : jsstring;
  white_plan : jsstring * jsstring;
  black_plan : jsstring * jsstring;
  concrete_ideas : list ConcreteIdea
}.

Definition fence : jsstring := js "```".
Definition fenceJson : jsstring := js "```json".

(** [rawText.replace(/```json/g, "").replace(/```/g, "").trim()] *)
Definition stripFences (rawText : jsstring) : jsstring :=
  trim (replaceAll fence [] (replaceAll fenceJson [] rawText)).

Definition sanitizeCommentaryText (rawText : jsstring) : jsstring :=
  let trimmed := trim rawText in
  match trimmed with
  | [] => rawText
  | _ =>
    if negb (startsWith fence trimmed) then stripFences rawText
    else
      let lines := split 10 trimmed in
      if (3 <=? length lines)%nat
         && jsstring_eqb (trim (last lines [])) fence
      then trim (join [10%N] (removelast (tl lines)))
      else stripFences rawText
  end.

(** *** The scan for balanced objects *)

Record scanState := {
  depth : Z;
  startIndex : Z;
  inString : bool;
  escaped : bool;
  candidates : list jsstring
}.

Definition scanStart : scanState :=
  {| depth := 0; startIndex := -1; inString := false; escaped := false;
     candidates := [] |}.

(** [text.slice(from, to)] for indices within the text. *)
Definition slice (from to : Z) (text : jsstring) : jsstring :=
  firstn (Z.to_nat (to - from)) (skipn (Z.to_nat from) text).

(** The body of the [for] loop of [extractJsonObjectCandidates]. *)
Definition scanStep (text : jsstring) (index : Z) (char : N) (st : scanState)
    : scanState :=
  if inString st then
    if escaped st then
      {| depth := depth st; startIndex := startIndex st; inString := true;
         escaped := false; candidates := candidates st |}
    else if (char =? 92)%N then
      {| depth := depth st; startIndex := startIndex st; inString := true;
         escaped := true; candidates := candidates st |}
    else if (char =? 34)%N then
      {| depth := depth st; startIndex := startIndex st; inString := false;
         escaped := escaped st; candidates := candidates st |}
    else st
  else if (char =? 34)%N then
    {| depth := depth st; startIndex := startIndex st; inString := true;
       escaped := escaped st; candidates := candidates st |}
  else if (char =? 123)%N then
    {| depth := depth st + 1;
       startIndex := if depth st =? 0 then index else startIndex st;
       inString := inString st; escaped := escaped st;
       candidates := candidates st |}
  else if (char =? 125)%N && (depth st >? 0) then
    let depth' := depth st - 1 in
    if (depth' =? 0) && (startIndex st >=? 0) then
      {| depth := depth'; startIndex := -1; inString := inString st;
         escaped := escaped st;
         candidates := candidates st
                         ++ [trim (slice (startIndex st) (index + 1) text)] |}
    else
      {| depth := depth'; startIndex := startIndex st; inString := inString st;
         escaped := escaped st; candidates := candidates st |}
  else st.

Fixpoint scanLoop (text : jsstring) (index : Z) (rest : jsstring)
    (st : scanState) : scanState :=
  match rest with
  | [] => st
  | char :: rest' => scanLoop text (index + 1) rest' (scanStep text index char st)
  end.

Definition extractJsonObjectCandidates (text : jsstring) : list jsstring :=
  candidates (scanLoop text 0 text scanStart).

(** *** Candidates *)

Definition normalizeCandidate (candidate : jsstring) : jsstring :=
  let trimmed := trim candidate in
  if startsWith (js "json" ++ [10%N]) (toLowerCase trimmed)
  then trim (skipn 5 trimmed)
  else trimmed.

(** The length of the white space that leads to a closing brace or bracket,
    if that is what follows. *)
Fixpoint spacesBeforeCloser (s : jsstring) : option nat :=
  match s with
  | [] => None
  | c :: rest =>
      if isWhiteSpace c then option_map S (spacesBeforeCloser rest)
      else if ((c =? 125) || (c =? 93))%N then Some O
      else None
  end.

(** [candidate.replace(/,\s*([}\]])/g, "$1")]: a comma, and the white
    space after it, go when a closing brace or bracket follows. *)
Fixpoint repairFrom (skip : nat) (s : jsstring) : jsstring :=
  match s with
  | [] => []
  | c :: rest =>
      match skip with
      | S skip' => repairFrom skip' rest
      | O =>
          if (c =? 44)%N then
            match spacesBeforeCloser rest with
            | Some spaces => repairFrom spaces rest
            | None => c :: repairFrom 0 rest
            end
          else c :: repairFrom 0 rest
      end
  end.

Definition repairCandidate (candidate : jsstring) : jsstring :=
  repairFrom 0 candidate.

(** [pushCandidate]: the list [candidates]; the set [seenCandidates] holds
    the same texts. *)
Definition pushCandidate (candidates : list jsstring) (candidate : jsstring)
    : list jsstring :=
  match normalizeCandidate candidate with
  | [] => candidates
  | normalized =>
      if existsb (jsstring_eqb normalized) candidates then candidates
      else candidates ++ [normalized]
  end.

Definition candidatesOf (clean : jsstring) : list jsstring :=
  fold_left pushCandidate (extractJsonObjectCandidates clean)
    (pushCandidate [] clean).

(** *** Validation *)

(** [value] is what a property read returned, [None] for [undefined]. *)
Definition asText (value : option value) : option jsstring :=
  match value with
  | Some (JString s) =>
      match trim s with
      | [] => None
      | normalized => Some normalized
      end
  | _ => None
  end.

(** The three code units U+00E2 U+20AC U+00A2 that the split pattern of the
    source holds where a bullet is meant. *)
Definition bullet : jsstring := [226%N; 8364%N; 162%N].

(** The length of a separator of [/\n|;|bullet|\s-\s/] at the head of the
    text. *)
Definition separatorAt (s : jsstring) : option nat :=
  match s with
  | [] => None
  | c :: rest =>
      if (c =? 10)%N then Some 1%nat
      else if (c =? 59)%N then Some 1%nat
      else if startsWith bullet s then Some 3%nat
      else match rest with
           | d :: e :: _ =>
               if isWhiteSpace c && (d =? 45)%N && isWhiteSpace e
               then Some 3%nat else None
           | _ => None
           end
  end.

(** [value.split(/\n|;|bullet|\s-\s/)]; [current] is the piece under way,
    reversed. *)
Fixpoint splitBulletsFrom (skip : nat) (current : jsstring) (s : jsstring)
    : list jsstring :=
  match s with
  | [] => [rev current]
  | c :: rest =>
      match skip with
      | S skip' => splitBulletsFrom skip' current rest
      | O =>
          match separatorAt s with
          | Some width => rev current :: splitBulletsFrom (width - 1) [] rest
          | None => splitBulletsFrom 0 (c :: current) rest
          end
      end
  end.

Definition splitBullets (s : jsstring) : list jsstring :=
  splitBulletsFrom 0 [] s.

Definition isEmpty (s : jsstring) : bool :=
  match s with [] => true | _ => false end.

Fixpoint keepSome {A} (l : list (option A)) : list A :=
  match l with
  | [] => []
  | Some a :: l' => a :: keepSome l'
  | None :: l' => keepSome l'
  end.

Definition asPlanBullets (value : option value) : option (jsstring * jsstring) :=
  match value with
  | Some (JArray items) =>
      match firstn 2 (keepSome (List.map (fun v => asText (Some v)) items)) with
      | [first; second] => Some (first, second)
      | _ => None
      end
  | Some (JString s) =>
      match firstn 2 (filter (fun entry => negb (isEmpty entry))
                        (List.map trim (splitBullets s))) with
      | [first; second] => Some (first, second)
      | _ => None
      end
  | _ => None
  end.

Definition readMember (parsed : list (jsstring * value)) (name : string)
    : option value :=
  lookup (js name) parsed.

(** A property read [parsed.name]: [null] has no properties and the read
    throws; an object answers with its own member; every other value
    answers [undefined] for the names read here. *)
Definition getProperty (parsed : value) (name : string)
    : completion (option value) :=
  match parsed with
  | JNull => Throw
  | JObject members => Normal (readMember members name)
  | _ => Normal None
  end.

Definition advantageSideOf (sideRaw : option value) : AdvantageSide :=
  match sideRaw with
  | Some (JString s) =>
      if jsstring_eqb s (js "white") then white
      else if jsstring_eqb s (js "black") then black
      else if jsstring_eqb s (js "equal") then equal
      else unclear
  | _ => unclear
  end.

(** [`L${String(index + 1).padStart(2, "0")}`] *)
Definition lineIdOf (index : nat) : jsstring :=
  let digits := numberToString (Z.of_nat index + 1) in
  js "L" ++ (if (length digits <? 2)%nat then js "0" ++ digits else digits).

(** The callback of [ideasRaw.map]. *)
Definition ideaOf (index : nat) (idea : value) : option ConcreteIdea :=
  let build (record : jsstring -> option value) :=
    let ideaTitle := asText (record (js "title")) in
    let ideaDescription := asText (record (js "description")) in
    let selectedLineId :=
      match asText (record (js "selected_line_id")) with
      | Some id => id
      | None => lineIdOf index
      end in
    let playbackRaw :=
      match record (js "playback_pv_uci") with
      | Some (JArray moves) => moves
      | _ => []
      end in
    let playback :=
      filter (fun move => negb (isEmpty move))
        (List.map (fun move => match move with
                               | JString s => toLowerCase (trim s)
                               | _ => []
                               end) playbackRaw) in
    match ideaTitle, ideaDescription, playback with
    | Some t, Some d, _ :: _ =>
        Some {| title := t; description := d;
                selected_line_id := selectedLineId;
                playback_pv_uci := playback |}
    | _, _, _ => None
    end in
  match idea with
  | JObject members => build (fun name => lookup name members)
  | JArray _ => build (fun _ => None)
  | _ => None
  end.

Fixpoint mapIndexed {A B} (f : nat -> A -> B) (index : nat) (l : list A)
    : list B :=
  match l with
  | [] => []
  | a :: l' => f index a :: mapIndexed f (S index) l'
  end.

(** The fields read from [parsed], and the record built from them when all
    are there. *)
Definition recordOf (parsed : list (jsstring * value))
    : option CommentaryStructuredPlan :=
  match asText (readMember parsed "position_plan_title"),
        asText (readMember parsed "advantage_summary"),
        asText (readMember parsed "best_move_san"),
        asText (readMember parsed "best_move_reason"),
        asText (readMember parsed "danger_to_watch") with
  | Some title, Some advantageSummary, Some bestMoveSan, Some bestMoveReason,
    Some dangerToWatch =>
      match asPlanBullets (readMember parsed "white_plan"),
            asPlanBullets (readMember parsed "black_plan") with
      | Some whitePlan, Some blackPlan =>
          let ideasRaw :=
            match readMember parsed "concrete_ideas" with
            | Some (JArray ideas) => ideas
            | _ => []
            end in
          Some {| position_plan_title := title;
                  advantage_side := advantageSideOf (readMember parsed "advantage_side");
                  advantage_summary := advantageSummary;
                  best_move_san := bestMoveSan;
                  best_move_reason := bestMoveReason;
                  danger_to_watch := dangerToWatch;
                  white_plan := whitePlan;
                  black_plan := blackPlan;
                  concrete_ideas :=
                    firstn 2 (keepSome (mapIndexed ideaOf 0 ideasRaw)) |}
      | _, _ => None
      end
  | _, _, _, _, _ => None
  end.

(** [JSON.parse], which throws on a syntax error. *)
Definition JSON_parse (text : jsstring) : completion value :=
  match Json.parse text with
  | Some v => Normal v
  | None => Throw
  end.

(** The body of the outer [try] for one candidate: [Normal None] is
    [continue], [Normal (Some plan)] is [return plan]. *)
Definition tryCandidate (candidate : jsstring)
    : completion (option CommentaryStructuredPlan) :=
  let parsed :=
    match JSON_parse candidate with
    | Normal v => Normal v
    | Throw => JSON_parse (repairCandidate candidate)
    end in
  match parsed with
  | Throw => Throw
  | Normal v =>
      match getProperty v "position_plan_title" with
      | Throw => Throw
      | Normal _ =>
          match v with
          | JObject members => Normal (recordOf members)
          | _ => Normal None
          end
      end
  end.

(** The loop over the candidates; its [catch] swallows what the body
    throws. *)
Fixpoint firstValid (candidates : list jsstring)
    : completion (option CommentaryStructuredPlan) :=
  match candidates with
  | [] => Normal None
  | candidate :: candidates' =>
      match tryCandidate candidate with
      | Normal (Some plan) => Normal (Some plan)
      | Normal None => firstValid candidates'
      | Throw => firstValid candidates'
      end
  end.

Definition parseCommentaryStructuredFromText (rawText : jsstring)
    : completion (option CommentaryStructuredPlan) :=
  let clean := sanitizeCommentaryText rawText in
  match clean with
  | [] => Normal None
  | _ => firstValid (candidatesOf clean)
  end.

End Commentary.
(** ** Engine ideas and playback ([routes/_layout/analysis.tsx]) *)

Module Ideas.
Import Merger.

(** The callback of [lines.slice(0, 2).map] in [buildEngineConcreteIdeas]. *)
Definition engineIdea (index : nat) (line : CandidateStockfishLine)
    : Commentary.ConcreteIdea :=
  let lineId := Commentary.lineIdOf index in
  let moveLabel :=
    match firstMoveSan line with
    | Some san => san
    | None => branchUci line
    end in
  {| Commentary.title := js "Try " ++ moveLabel;
     Commentary.description :=
       js "Engine branch " ++ lineId ++ js " scores " ++ evalLabel line
         ++ js " at depth " ++ numberToString (depth line) ++ js ".";
     Commentary.selected_line_id := lineId;
     Commentary.playback_pv_uci := pvUci line |}.

Definition buildEngineConcreteIdeas (lines : list CandidateStockfishLine)
    : list Commentary.ConcreteIdea :=
  Commentary.mapIndexed engineIdea 0 (firstn 2 lines).

(** *** [parseUciForPlayback] *)

Record PlaybackMove := {
  pm_from : jsstring;
  pm_to : jsstring;
  pm_promotion : option N
}.

(** The classes [[a-h]], [[1-8]] and [[nbrq]]. *)
Definition isFileUnit (c : N) : bool := ((97 <=? c) && (c <=? 104))%N.
Definition isRankUnit (c : N) : bool := ((49 <=? c) && (c <=? 56))%N.
Definition isPromotionUnit (c : N) : bool :=
  ((c =? 110) || (c =? 98) || (c =? 114) || (c =? 113))%N.

(** [/^[a-h][1-8][a-h][1-8][nbrq]?$/.test(clean)] *)
Definition isUciMove (clean : jsstring) : bool :=
  match clean with
  | [a; b; c; d] =>
      isFileUnit a && isRankUnit b && isFileUnit c && isRankUnit d
  | [a; b; c; d; e] =>
      isFileUnit a && isRankUnit b && isFileUnit c && isRankUnit d
      && isPromotionUnit e
  | _ => false
  end.

Definition parseUciForPlayback (uci : jsstring) : option PlaybackMove :=
  let clean := toLowerCase (trim uci) in
  if negb (isUciMove clean) then None
  else
    let promotion :=
      if (length clean =? 5)%nat then nth_error clean 4 else None in
    Some {| pm_from := firstn 2 clean;
            pm_to := firstn 2 (skipn 2 clean);
            pm_promotion := promotion |}.

(** *** The typing animation of the commentary text *)

Definition COMMENTARY_ANIMATION_CHARS_PER_TICK : nat := 3.

(** The updater that the interval timer of [kickCommentaryAnimation] passes
    to [setCommentaryRenderedText]: the next rendered text, and whether
    [stopCommentaryAnimation] was called.  [targetText] is
    [commentaryRawTextRef.current] at the tick. *)
Definition animationTick (targetText currentText : jsstring)
    : jsstring * bool :=
  if (length targetText <=? length currentText)%nat then (currentText, true)
  else
    let nextLength :=
      Nat.min (length targetText)
              (length currentText + COMMENTARY_ANIMATION_CHARS_PER_TICK) in
    (firstn nextLength targetText, false).

End Ideas.
(** ** The board ([components/chess/FenBoard.tsx]) *)

Module FenBoard.
Import QArith.

(** An element of the [arrows] property. *)
Record BoardArrow := {
  ba_from_square : jsstring;
  ba_to_square : jsstring;
  ba_color_slot : Z;
  ba_rank : option Z;
  ba_uci : option jsstring;
  ba_cp : option Z;
  ba_mate : option Z
}.

Record NormalizedArrow := {
  fromX : Q;
  fromY : Q;
  toX : Q;
  toY : Q;
  colorSlot : Z;
  fromSquare : jsstring;
  toSquare : jsstring;
  na_rank : option Z;
  na_uci : option jsstring;
  na_cp : option Z;
  na_mate : option Z
}.

Inductive Orientation := white | black.

Definition FILES : jsstring := js "abcdefgh".

(** [/^[a-h][1-8]$/.test(square)] *)
Definition isSquare (square : jsstring) : bool :=
  match square with
  | [file; rank] =>
      ((97 <=? file) && (file <=? 104) && (49 <=? rank) && (rank <=? 56))%N
  | _ => false
  end.

(** [Number(c)] for a string of one code unit [c]: a digit gives its
    value, white space gives 0, anything else [NaN] ([None]). *)
Definition numberOfUnit (c : N) : option Z :=
  if ((48 <=? c) && (c <=? 57))%N then Some (Z.of_N c - 48)%Z
  else if isWhiteSpace c then Some 0%Z
  else None.

(** The centre of a square in the unit square of the board.  The numbers
    are sixteenths, which the floating-point operations of the source
    give exactly. *)
Definition squareToNormalized (square : jsstring) (orientation : Orientation)
    : option (Q * Q) :=
  if negb (isSquare square) then None
  else
    match square with
    | file :: rankUnit :: _ =>
        match indexOf [file] FILES, numberOfUnit rankUnit with
        | Some fileIndex, Some rank =>
            let col :=
              match orientation with
              | white => Z.of_nat fileIndex
              | black => (7 - Z.of_nat fileIndex)%Z
              end in
            let row :=
              match orientation with
              | white => (8 - rank)%Z
              | black => (rank - 1)%Z
              end in
            Some ((inject_Z col + (1 # 2)) / 8, (inject_Z row + (1 # 2)) / 8)
        | _, _ => None
        end
    | _ => None
    end.

(** [(cp / 100).toFixed(2)] is [Merger.pawnScoreToFixed2]. *)
Definition evalLabel (cp mate : option Z) : jsstring :=
  match mate with
  | Some m =>
      if (m >? 0)%Z then js "M" ++ numberToString m
      else js "M" ++ numberToString m
  | None =>
      match cp with
      | Some c =>
          let score := Merger.pawnScoreToFixed2 c in
          if (c >=? 0)%Z then js "+" ++ score else score
      | None => js "?"
      end
  end.

Definition STARTING_FEN : jsstring :=
  js "rnbqkbnr/pppppppp/8/8/8/8/PPPPPPPP/RNBQKBNR w KQkq - 0 1".

Record ParsedFenBoard := {
  normalizedFen : jsstring;
  error : option jsstring
}.

(** [validateFen] of chess.js is not part of the program: it is a
    parameter.  Its result is [ok] and the optional [error]. *)
Section ParseFenBoard.
Variable validateFen : jsstring -> bool * option jsstring.

Definition parseFenBoard (fen : jsstring) : ParsedFenBoard :=
  let trimmedFen := trim fen in
  match trimmedFen with
  | [] => {| normalizedFen := STARTING_FEN; error := Some (js "FEN is empty.") |}
  | _ =>
      let result := validateFen trimmedFen in
      if negb (fst result) then
        {| normalizedFen := STARTING_FEN;
           error := Some (match snd result with
                          | Some message => message
                          | None => js "Invalid FEN."
                          end) |}
      else {| normalizedFen := trimmedFen; error := None |}
  end.
End ParseFenBoard.

(** The key under which [uniqueArrows] remembers an arrow. *)
Definition arrowKey (arrow : BoardArrow) : jsstring :=
  ba_from_square arrow ++ js "-" ++ ba_to_square arrow.

(** [arrows.filter(...)] with the set [seen] that the callback fills. *)
Fixpoint uniqueFrom (seen : list jsstring) (arrows : list BoardArrow)
    : list BoardArrow :=
  match arrows with
  | [] => []
  | arrow :: rest =>
      let key := arrowKey arrow in
      if existsb (jsstring_eqb key) seen then uniqueFrom seen rest
      else arrow :: uniqueFrom (seen ++ [key]) rest
  end.

Definition uniqueArrows (arrows : list BoardArrow) : list BoardArrow :=
  uniqueFrom [] arrows.

(** The callback of [uniqueArrows.reduce]. *)
Definition pushNormalized (orientation : Orientation)
    (acc : list NormalizedArrow) (arrow : BoardArrow) : list NormalizedArrow :=
  match squareToNormalized (ba_from_square arrow) orientation,
        squareToNormalized (ba_to_square arrow) orientation with
  | Some from, Some to =>
      acc ++ [{| fromX := fst from; fromY := snd from;
                 toX := fst to; toY := snd to;
                 colorSlot := ba_color_slot arrow;
                 fromSquare := ba_from_square arrow;
                 toSquare := ba_to_square arrow;
                 na_rank := ba_rank arrow; na_uci := ba_uci arrow;
                 na_cp := ba_cp arrow; na_mate := ba_mate arrow |}]
  | _, _ => acc
  end.

Definition normalizedArrows (orientation : Orientation)
    (arrows : list BoardArrow) : list NormalizedArrow :=
  fold_left (pushNormalized orientation) (uniqueArrows arrows) [].

End FenBoard.
(** ** The evaluation chart ([components/chess/AnalysisEvalChart.tsx]) *)

Module EvalChart.
Import QArith Qminmax.
Import Merger.

Record LinePoint := {
  lp_depth : Z;
  lp_value : Q;
  lp_cp : option Z;
  lp_mate : option Z
}.

Record LineSeries := {
  ls_id : jsstring;
  ls_rank : Z;
  ls_san : option jsstring;
  ls_colorSlot : Z;
  ls_points : list LinePoint
}.

Definition MAX_DISPLAY_SERIES : nat := 5.

Definition isDepthEvent (event : StockfishStreamEvent)
    : option ArrowState.DepthLike :=
  match event with
  | depth_update e => Some (ArrowState.dl_update e)
  | analysis_complete e => Some (ArrowState.dl_complete e)
  | _ => None
  end.

Definition eventDepth (event : ArrowState.DepthLike) : Z :=
  match event with
  | ArrowState.dl_complete e => ac_final_depth e
  | ArrowState.dl_update e => du_depth e
  end.

(** The plotted value, in pawns and kept within -12 and 12.  The quotient
    [cp / 100] is taken exactly; the source rounds it to a double, which
    changes neither its order nor the bounds. *)
Definition normalizeEval (cp mate : option Z) : option Q :=
  match mate with
  | Some m => Some (if (m >=? 0)%Z then 12 else -12)
  | None =>
      match cp with
      | Some c =>
          let pawns := inject_Z c / 100 in
          Some (Qmax (-12) (Qmin 12 pawns))
      | None => None
      end
  end.

(** [Array.prototype.findIndex], with [None] for -1. *)
Fixpoint findIndex {A} (test : A -> bool) (l : list A) : option nat :=
  match l with
  | [] => None
  | a :: l' => if test a then Some O else option_map S (findIndex test l')
  end.

(** [next[index] = value] for an index within the array. *)
Fixpoint setAt {A} (index : nat) (value : A) (l : list A) : list A :=
  match l, index with
  | [], _ => []
  | _ :: l', O => value :: l'
  | a :: l', S index' => a :: setAt index' value l'
  end.

(** [(a, b) => a.depth - b.depth] *)
Definition comparePoints (a b : LinePoint) : Z := (lp_depth a - lp_depth b)%Z.

Definition withPoints (series : LineSeries) (points : list LinePoint)
    : LineSeries :=
  {| ls_id := ls_id series; ls_rank := ls_rank series; ls_san := ls_san series;
     ls_colorSlot := ls_colorSlot series; ls_points := points |}.

Definition upsertPoint (series : LineSeries) (depth : Z)
    (line : StockfishPVLine) : LineSeries :=
  match normalizeEval (cp line) (mate line) with
  | None => series
  | Some normalized =>
      let point := {| lp_depth := depth; lp_value := normalized;
                      lp_cp := cp line; lp_mate := mate line |} in
      match findIndex (fun entry => (lp_depth entry =? depth)%Z)
                      (ls_points series) with
      | Some existing =>
          withPoints series (setAt existing point (ls_points series))
      | None =>
          withPoints series (sortBy comparePoints (ls_points series ++ [point]))
      end
  end.

(** [{ ...series, rank: line.rank, san: line.san ?? null,
       colorSlot: line.arrow.color_slot }] *)
Definition relabel (series : LineSeries) (line : StockfishPVLine)
    : LineSeries :=
  {| ls_id := ls_id series; ls_rank := rank line; ls_san := san line;
     ls_colorSlot := la_color_slot (arrow line);
     ls_points := ls_points series |}.

(** The body of the loop over the lines of a depth event, on [map]. *)
Definition recordLine (depth : Z) (map : @JsMap LineSeries)
    (line : StockfishPVLine) : JsMap :=
  let id := la_uci (arrow line) in
  match id with
  | [] => map
  | _ =>
      let base :=
        match mapGet id map with
        | Some series => series
        | None => {| ls_id := id; ls_rank := rank line; ls_san := san line;
                     ls_colorSlot := la_color_slot (arrow line);
                     ls_points := [] |}
        end in
      mapSet id (upsertPoint (relabel base line) depth line) map
  end.

(** The body of the loop over the events. *)
Definition recordEvent (map : @JsMap LineSeries) (event : StockfishStreamEvent)
    : JsMap :=
  match isDepthEvent event with
  | None => map
  | Some depthEvent =>
      fold_left (recordLine (eventDepth depthEvent))
        (ArrowState.linesOfEvent depthEvent) map
  end.

(** The loop over the lines of the latest depth event, with its [break]. *)
Fixpoint activeLoop (map : @JsMap LineSeries) (lines : list StockfishPVLine)
    (seenActive : list jsstring) (activeSeries : list LineSeries)
    : list LineSeries :=
  match lines with
  | [] => activeSeries
  | line :: rest =>
      if (MAX_DISPLAY_SERIES <=? length activeSeries)%nat then activeSeries
      else
        let id := la_uci (arrow line) in
        if Commentary.isEmpty id || existsb (jsstring_eqb id) seenActive
        then activeLoop map rest seenActive activeSeries
        else
          let seenActive' := seenActive ++ [id] in
          match mapGet id map with
          | None => activeLoop map rest seenActive' activeSeries
          | Some historical =>
              match ls_points historical with
              | [] => activeLoop map rest seenActive' activeSeries
              | _ =>
                  activeLoop map rest seenActive'
                    (activeSeries ++ [relabel historical line])
              end
          end
  end.

(** [(a, b) => a.rank - b.rank] *)
Definition compareSeries (a b : LineSeries) : Z := (ls_rank a - ls_rank b)%Z.

Definition buildSeries (events : list StockfishStreamEvent)
    : list LineSeries :=
  match find (fun event => match isDepthEvent event with
                           | Some _ => true
                           | None => false
                           end) (rev events) with
  | None => []
  | Some latestDepthEvent =>
      let map := fold_left recordEvent events [] in
      let lines :=
        match isDepthEvent latestDepthEvent with
        | Some depthEvent => ArrowState.linesOfEvent depthEvent
        | None => []
        end in
      sortBy compareSeries (activeLoop map lines [] [])
  end.

(** *** Rows *)

(** A row of the chart data: [depth], and the other properties, which are
    filed under the ids of the series. *)
Record DepthRow := {
  row_depth : Q;
  row_cells : @JsMap Q
}.

(** [row[id] = value]: the property [depth] is the row's depth. *)
Definition setCell (id : jsstring) (value : Q) (row : DepthRow) : DepthRow :=
  if jsstring_eqb id (js "depth")
  then {| row_depth := value; row_cells := row_cells row |}
  else {| row_depth := row_depth row;
          row_cells := mapSet id value (row_cells row) |}.

(** A [Map] with numbers as keys, in insertion order. *)
Fixpoint rowGet (key : Z) (rows : list (Z * DepthRow)) : option DepthRow :=
  match rows with
  | [] => None
  | (k, row) :: rows' => if (k =? key)%Z then Some row else rowGet key rows'
  end.

Fixpoint rowSet (key : Z) (row : DepthRow) (rows : list (Z * DepthRow))
    : list (Z * DepthRow) :=
  match rows with
  | [] => [(key, row)]
  | (k, r) :: rows' =>
      if (k =? key)%Z then (key, row) :: rows' else (k, r) :: rowSet key row rows'
  end.

Definition recordPoint (id : jsstring) (rows : list (Z * DepthRow))
    (point : LinePoint) : list (Z * DepthRow) :=
  let row :=
    match rowGet (lp_depth point) rows with
    | Some row => row
    | None => {| row_depth := inject_Z (lp_depth point); row_cells := [] |}
    end in
  rowSet (lp_depth point) (setCell id (lp_value point) row) rows.

(** The sign of [a.depth - b.depth], which is all the sort looks at. *)
Definition compareRows (a b : DepthRow) : Z :=
  match Qcompare (row_depth a) (row_depth b) with
  | Lt => (-1)%Z
  | Eq => 0%Z
  | Gt => 1%Z
  end.

Definition buildDepthRows (series : list LineSeries) : list DepthRow :=
  let rows :=
    fold_left (fun rows line =>
                 fold_left (recordPoint (ls_id line)) (ls_points line) rows)
      series [] in
  sortBy compareRows (List.map snd rows).

(** [computeXDomain].  Its sum [min + 1] is a sum of doubles, whose result
    is the double nearest to the exact sum: from 2^53 on that is [min]
    itself.  The sum is the parameter [addOne] of the model. *)
Section XDomain.
Variable addOne : Q -> Q.

Definition computeXDomain (data : list DepthRow) : Q * Q :=
  match data with
  | [] => (8, 24)
  | first :: _ =>
      let min := row_depth first in
      let max := row_depth (last data first) in
      if Qlt_le_dec min max then (min, max) else (min, addOne min)
  end.

End XDomain.

End EvalChart.
(** ** The opening replay of the dashboard ([routes/_layout/index.tsx]) *)

Module Dashboard.

Record OpeningReplay := {
  eco : jsstring;
  name : jsstring;
  moves : list jsstring;
  note : jsstring
}.

Definition ruyLopez : OpeningReplay :=
  {| eco := js "C60"; name := js "Ruy Lopez";
     moves := List.map js ["e4"; "e5"; "Nf3"; "Nc6"; "Bb5"; "a6"; "Ba4";
                           "Nf6"; "O-O"; "Be7"]%string;
     note := js "Classical center control with long-term queenside pressure." |}.

Definition OPENING_REPLAYS : list OpeningReplay :=
  [ ruyLopez;
    {| eco := js "B20"; name := js "Sicilian Defense";
       moves := List.map js ["e4"; "c5"; "Nf3"; "d6"; "d4"; "cxd4"; "Nxd4";
                             "Nf6"; "Nc3"; "a6"]%string;
       note := js "Asymmetrical play from move one and rich tactical middlegames." |};
    {| eco := js "D30"; name := js "Queen's Gambit Declined";
       moves := List.map js ["d4"; "d5"; "c4"; "e6"; "Nc3"; "Nf6"; "Bg5";
                             "Be7"; "e3"; "O-O"]%string;
       note := js "Solid central structure with strategic piece maneuvering." |};
    {| eco := js "E60"; name := js "King's Indian Defense";
       moves := List.map js ["d4"; "Nf6"; "c4"; "g6"; "Nc3"; "Bg7"; "e4";
                             "d6"; "Nf3"; "O-O"]%string;
       note := js "Black yields space early and aims for dynamic counterplay." |};
    {| eco := js "A46"; name := js "London System";
       moves := List.map js ["d4"; "Nf6"; "Nf3"; "e6"; "Bf4"; "d5"; "e3";
                             "Bd6"; "Bg3"; "O-O"]%string;
       note := js "Reliable setup with quick development and a clear plan." |};
    {| eco := js "C42"; name := js "Petrov Defense";
       moves := List.map js ["e4"; "e5"; "Nf3"; "Nf6"; "Nxe5"; "d6"; "Nf3";
                             "Nxe4"; "d4"; "d5"]%string;
       note := js "Balanced structure where precise move order matters." |} ].

(** [draw n] stands for [Math.floor(Math.random() * n)], the index that
    the call draws for an array of [n] options; [OPENING_REPLAYS[0]] is
    [hd ruyLopez OPENING_REPLAYS]. *)
Section PickRandomOpening.
Variable draw : nat -> nat.

Definition pickRandomOpening (previous : option jsstring) : OpeningReplay :=
  if (length OPENING_REPLAYS =? 1)%nat then hd ruyLopez OPENING_REPLAYS
  else
    let options :=
      match previous with
      | Some ((_ :: _) as previousName) =>
          filter (fun opening => negb (jsstring_eqb (name opening) previousName))
            OPENING_REPLAYS
      | _ => OPENING_REPLAYS
      end in
    match nth_error options (draw (length options)) with
    | Some opening => opening
    | None => hd ruyLopez OPENING_REPLAYS
    end.
End PickRandomOpening.

End Dashboard.

(** ** Notions for the analysis reducer *)

Module ArrowStateNotions.
Import ArrowState.




End ArrowStateNotions.

(** ** Notions for the frame decoder *)

Module SseNotions.
Import Sse.

Definition normalize (s : jsstring) : jsstring := replaceAll CRLF LF s.

Definition CR : jsstring := [13%N].

Definition CRCRLF : jsstring := [13%N; 13%N; 10%N].

(** The loop run with enough fuel. *)
Definition splitFrames (working : jsstring) : list SseFrame * jsstring :=
  emitLoop (length working) working.

Definition emitBlock (rawBlock : jsstring) (emitted : list SseFrame)
    : list SseFrame :=
  match parseSseEventBlock rawBlock with
  | Some parsed => parsed :: emitted
  | None => emitted
  end.

End SseNotions.

(** ** Notions for the transport *)

Module TransportNotions.
Import Sse Transport.






(** Case analysis on a step: the handle, the input, and the tests the
    transition makes. *)
Ltac step_cases h i :=
  let cl := fresh "cl" in
  let ab := fresh "ab" in
  let pt := fresh "pt" in
  destruct h as [cl ab pt]; destruct i as [[|] ? ? [|]|?|?| | |[?|]|?| |?|];
  destruct pt as [|?| |?|[|? ?] ?| |];
  unfold step, close, catchError, loopHead, afterLoop, emitNext; simpl;
  try match goal with
      | |- context [emitBufferedEvents ?x] =>
          destruct (emitBufferedEvents x) as [[|? ?] ?]; simpl
      end;
  destruct cl; simpl; destruct ab; simpl.

End TransportNotions.

(** ** Notions for the candidate line merger *)

Module MergerNotions.
Import Merger.

(** Every value of the map is filed under its own branch. *)
Definition keyed (m : @JsMap CandidateStockfishLine) : Prop :=
  forall k v, In (k, v) m -> branchUci v = k.

Definition wellKeyed (m : @JsMap CandidateStockfishLine) : Prop :=
  NoDup (mapKeys m) /\ keyed m.

(** [e'] took the place of [e] in a report at depth [D]: it is at that
    depth, and [e] was shallower, or as deep and ranked worse. *)
Definition supersedes (D : Z) (e e' : CandidateStockfishLine) : Prop :=
  depth e' = D /\
  (depth e < D \/ (depth e = D /\ cand_rank e' < cand_rank e)).

Definition notShallower (e v : CandidateStockfishLine) : bool :=
  depth e <=? depth v.

End MergerNotions.

(** ** Notions for the commentary extractor *)

Module CommentaryNotions.
Import Json Commentary.

(** The text [J] inside a closed fence: the opening marker with its info
    string (such as [json]), [J] on the lines between, the closing marker. *)
Definition fenced (info J : jsstring) : jsstring :=
  fence ++ info ++ [10%N] ++ J ++ [10%N] ++ fence.






















End CommentaryNotions.
(** ** Notions for the plan bullets *)

Module PlanNotions.
Import Json Commentary.


(** The strings among the entries of a list. *)
Definition entryTexts (items : list value) : list jsstring :=
  flat_map (fun v => match v with JString s => [s] | _ => [] end) items.

(** A separator at the head of a text, with its length: a line feed, a
    semicolon, the bullet marker, or a dash between two white-space
    characters.  A line feed is a separator by itself, also when a dash
    follows it. *)
Inductive separatorHead : jsstring -> nat -> Prop :=
| sep_newline rest : separatorHead (10%N :: rest) 1
| sep_semicolon rest : separatorHead (59%N :: rest) 1
| sep_bullet rest : separatorHead (bullet ++ rest) 3
| sep_dash a b rest :
    isWhiteSpace a = true -> a <> 10%N -> isWhiteSpace b = true ->
    separatorHead (a :: 45%N :: b :: rest) 3.

(** No separator starts at one of the first [n] positions of the text. *)
Definition separatorFreeUpTo (n : nat) (text : jsstring) : Prop :=
  forall i width, (i < n)%nat -> ~ separatorHead (skipn i text) width.

(** A text that holds no separator. *)
Definition separatorFree (text : jsstring) : Prop :=
  separatorFreeUpTo (length text) text.

(** The pieces into which its separators cut a text, from the left. *)
Inductive cutsInto : jsstring -> list jsstring -> Prop :=
| cuts_last text : separatorFree text -> cutsInto text [text]
| cuts_next piece tail width pieces :
    separatorFreeUpTo (length piece) (piece ++ tail) ->
    separatorHead tail width ->
    cutsInto (skipn width tail) pieces ->
    cutsInto (piece ++ tail) (piece :: pieces).

(** [b] is the pair of the first two texts that are not blank, trimmed. *)
Definition firstTwoFilled (texts : list jsstring) (b : jsstring * jsstring)
    : Prop :=
  exists pre s1 mid s2 post,
    texts = pre ++ s1 :: mid ++ s2 :: post /\
    Forall (fun s => trim s = []) pre /\
    Forall (fun s => trim s = []) mid /\
    trim s1 <> [] /\ trim s2 <> [] /\
    b = (trim s1, trim s2).

(** A plan field resolves to the two bullets [b]: a list is read entry by
    entry, a string is cut at its separators, and [b] holds the first two
    texts that are not blank.  Nothing else resolves. *)
Definition resolvesTo (field : option value) (b : jsstring * jsstring) : Prop :=
  match field with
  | Some (JArray items) => firstTwoFilled (entryTexts items) b
  | Some (JString s) => exists pieces, cutsInto s pieces /\ firstTwoFilled pieces b
  | _ => False
  end.



End PlanNotions.
(** ** Notions for the states the reducer reaches *)

Module ArrowStateReach.
Import ArrowState.

(** The state after a run of dispatched actions, from the initial state. *)
Definition reached (actions : list (Z * AnalysisArrowAction))
    : AnalysisArrowState :=
  dispatchAll createInitialAnalysisArrowState actions.

(** A depth update whose [multipv] is the number of its lines. *)
Definition trimmedUpdate (e : StockfishStreamEvent) : Prop :=
  match e with
  | depth_update u => du_multipv u = Z.of_nat (length (du_lines u))
  | _ => False
  end.

(** The shape of the event log: depth updates with [multipv] the number of
    their lines, and at the very end possibly one [analysis_complete] or
    [analysis_error]. *)
Fixpoint wellLogged (log : list StockfishStreamEvent) : Prop :=
  match log with
  | [] => True
  | e :: rest =>
      match e with
      | depth_update u => du_multipv u = Z.of_nat (length (du_lines u))
      | analysis_complete _ => rest = []
      | analysis_error _ => rest = []
      | other_event _ => False
      end /\ wellLogged rest
  end.

(** A depth update for the position of [sess] that carries the analysis id
    [sess] is pinned to. *)
Definition loggedFor (sess : AnalysisArrowSession) (e : StockfishStreamEvent)
    : Prop :=
  match e with
  | depth_update u =>
      du_fen u = targetFen sess /\ analysisId sess = Some (du_analysis_id u)
  | _ => False
  end.

(** The snapshot shows the depth-like event [e]: its position, analysis id
    and depth, and one arrow for each of its lines, in their order. *)
Definition shows (snap : AnalysisArrowSnapshot) (e : StockfishStreamEvent)
    : Prop :=
  match isDepthLikeEvent e with
  | Some dl =>
      snap_targetFen snap = fenOfEvent dl /\
      snap_analysisId snap = analysisIdOfEvent dl /\
      snap_depth snap = depthOfEvent dl /\
      arrows snap = List.map mapLineToBoardArrow (linesOfEvent dl)
  | None => False
  end.

(** What every reached state satisfies. *)
Definition coherent (state : AnalysisArrowState) : Prop :=
  wellLogged (events state) /\
  match snapshot state with
  | Some snap =>
      exists earlier e, events state = earlier ++ [e] /\ shows snap e
  | None => True
  end /\
  match session state with
  | Some sess =>
      status state = streaming /\
      Forall (loggedFor sess) (events state) /\
      match analysisId sess with
      | Some id =>
          exists snap, snapshot state = Some snap /\
                       snap_analysisId snap = id /\
                       snap_targetFen snap = targetFen sess
      | None => snapshot state = None /\ events state = []
      end
  | None => True
  end.

End ArrowStateReach.
(** ** More notions for the frame decoder *)

Module SseFrameNotions.
Import Sse.

(** The result of [parseSseEventBlock] from what the loop over the lines
    leaves. *)
Definition frameOf (acc : jsstring * list jsstring) : option SseFrame :=
  match snd acc with
  | [] => None
  | dataLines => Some {| eventName := fst acc; eventData := join LF dataLines |}
  end.

(** The frame has an event name: it is not empty and has no white space
    at its ends. *)
Definition named (frame : SseFrame) : Prop :=
  eventName frame <> [] /\ trim (eventName frame) = eventName frame.

End SseFrameNotions.

Module ListTactics.

(** A code unit does not occur in a given text. *)
Ltac not_in :=
  let H := fresh in intros H; vm_compute in H; intuition discriminate.

End ListTactics.

(** ** More notions for the transport *)

Module TransportRuns.
Import Sse Transport.

Definition isOnOpen (c : Callback) : bool :=
  match c with OnOpen => true | _ => false end.

Definition isOnEvent (c : Callback) : bool :=
  match c with OnEvent _ => true | _ => false end.

(** Neither [onOpen] nor [onEvent]. *)
Definition isQuietCallback (c : Callback) : bool :=
  negb (isOnOpen c || isOnEvent c).

(** [run] has not come to [callbacks.onOpen()] and will not: it has failed
    or ended, or is reading the body of an error response. *)
Definition neverOpens (h : Handle) : Prop :=
  match point h with
  | Finished => True
  | AwaitErrorBody _ => True
  | _ => False
  end.

(** The inputs of a read loop that is left alone: every read resolves with
    the next chunk, the consumer returns from every call of [onEvent] without
    closing the handle, the stream ends after the last chunk and the
    consumer returns from [onClose].  [buffer] is what the loop holds when
    it starts. *)
Fixpoint readAll (buffer : jsstring) (chunks : list jsstring) : list Input :=
  match chunks with
  | [] => [ReadDone; Returned]
  | chunk :: chunks' =>
      let (frames, remainder) := emitBufferedEvents (buffer ++ chunk) in
      ReadValue (Some chunk) :: repeat Returned (length frames)
        ++ readAll remainder chunks'
  end.

(** The request succeeds, the consumer returns from [onOpen], and the
    stream is read to its end. *)
Definition undisturbed (status : Z) (statusText : jsstring)
    (chunks : list jsstring) : list Input :=
  FetchResolved true status statusText true :: Returned :: readAll [] chunks.

End TransportRuns.

(** ** More notions for the candidate lines *)

Module MergerRuns.
Import Merger.

(** The candidate list of a stream: it starts empty and every depth-like
    payload is merged into it. *)
Definition mergeAll (payloads : list DepthLikeEvent)
    : list CandidateStockfishLine :=
  fold_left mergeCandidateStockfishLines payloads [].

(** A candidate as the merger builds it: filed under a branch that is not
    empty, with a line of one to eight moves that starts with the branch. *)
Definition builtCandidate (c : CandidateStockfishLine) : Prop :=
  branchUci c <> [] /\
  hd_error (pvUci c) = Some (branchUci c) /\
  (length (pvUci c) <= 8)%nat.

End MergerRuns.

(** ** Notions for playback and the typing animation *)

Module AnimationNotions.
Import Ideas.

(** The text of a move, as [parseUciForPlayback] took it apart. *)
Definition moveText (move : PlaybackMove) : jsstring :=
  pm_from move ++ pm_to move
    ++ match pm_promotion move with Some p => [p] | None => [] end.

(** The rendered text after a number of ticks with the same target. *)
Fixpoint ticks (n : nat) (targetText currentText : jsstring) : jsstring :=
  match n with
  | O => currentText
  | S n' => ticks n' targetText (fst (animationTick targetText currentText))
  end.

End AnimationNotions.

(** ** Notions for the board *)

Module FenBoardNotions.
Import FenBoard QArith.

(** Strictly inside the unit square. *)
Definition inside (p : Q * Q) : Prop :=
  0 < fst p /\ fst p < 1 /\ 0 < snd p /\ snd p < 1.

(** What holds of every arrow that [normalizedArrows] returns. *)
Definition wellPlaced (a : NormalizedArrow) : Prop :=
  isSquare (fromSquare a) = true /\ isSquare (toSquare a) = true /\
  inside (fromX a, fromY a) /\ inside (toX a, toY a).

Definition keyOf (n : NormalizedArrow) : jsstring :=
  fromSquare n ++ js "-" ++ toSquare n.

End FenBoardNotions.

(** ** More notions for the commentary extractor *)

Module CommentaryShapes.
Import Commentary.

(** A text field as [asText] returns it: not empty, with no white space at
    its ends. *)
Definition filled (s : jsstring) : Prop := s <> [] /\ trim s = s.

Definition filledIdea (idea : ConcreteIdea) : Prop :=
  filled (title idea) /\ filled (description idea) /\
  selected_line_id idea <> [] /\
  playback_pv_uci idea <> [] /\
  Forall (fun move => move <> []) (playback_pv_uci idea).

(** A text from an opening to a closing brace. *)
Definition braced (s : jsstring) : Prop :=
  exists middle, s = 123%N :: middle ++ [125%N].

(** What the scan of [extractJsonObjectCandidates] keeps true when it has
    read [prefix]: outside every object [startIndex] is -1; inside,
    [startIndex] is where an opening brace stands in [prefix]. *)
Definition scanInvariant (prefix : jsstring) (st : scanState) : Prop :=
  0 <= depth st /\
  (depth st = 0 -> startIndex st = -1) /\
  (0 < depth st ->
     exists before middle,
       prefix = before ++ 123%N :: middle /\
       startIndex st = Z.of_nat (length before)) /\
  Forall braced (candidates st).

End CommentaryShapes.

(** ** Notions for the evaluation chart *)

Module EvalChartNotions.
Import EvalChart QArith.

(** The points stand in strictly increasing depth. *)
Definition ascending (points : list LinePoint) : Prop :=
  StronglySorted Z.lt (List.map lp_depth points).

(** The point recorded for a depth. *)
Definition pointAt (depth : Z) (points : list LinePoint) : option LinePoint :=
  find (fun point => (lp_depth point =? depth)%Z) points.

(** The value of the point is the normalised evaluation of the score it
    carries. *)
Definition plotted (point : LinePoint) : Prop :=
  normalizeEval (lp_cp point) (lp_mate point) = Some (lp_value point).

Definition withinBounds (point : LinePoint) : Prop :=
  -12 <= lp_value point /\ lp_value point <= 12.

(** A series as the chart shows it. *)
Definition shownSeries (series : LineSeries) : Prop :=
  ls_id series <> [] /\
  ls_points series <> [] /\
  ascending (ls_points series) /\
  Forall plotted (ls_points series) /\
  Forall withinBounds (ls_points series).

(** Every series of the map is filed under its id, which is not empty,
    and its points are in order. *)
Definition recorded (map : @Merger.JsMap LineSeries) : Prop :=
  forall id series,
    In (id, series) map ->
    ls_id series = id /\ id <> [] /\
    ascending (ls_points series) /\ Forall plotted (ls_points series).

Definition rowLe (a b : DepthRow) : Prop := row_depth a <= row_depth b.

End EvalChartNotions.

(** ** Concrete inputs used by the examples below *)

Module Examples.
Import ArrowState.

Definition STARTING_FEN : jsstring :=
  js "rnbqkbnr/pppppppp/8/8/8/8/PPPPPPPP/RNBQKBNR w KQkq - 0 1".

Definition mkLine (r : Z) (move : string) (score : Z) : StockfishPVLine :=
  {| rank := r; san := None; cp := Some score; mate := None;
     arrow := {| la_uci := js move;
                 la_from_square := firstn 2 (js move);
                 la_to_square := firstn 2 (skipn 2 (js move));
                 la_color_slot := r |};
     pv := [js move] |}.

Definition mkDepthUpdate (id : string) (fen : jsstring) (depth : Z)
    (lines : list StockfishPVLine) : StockfishDepthUpdateEvent :=
  {| du_analysis_id := js id; du_fen := fen; du_side_to_move := js "white";
     du_depth := depth; du_multipv := Z.of_nat (length lines);
     du_bestmove_uci := None; du_lines := lines;
     du_generated_at := js "2026-01-01T00:00:00Z" |}.

(** The state after [start_session] with the constants of the analysis
    route: minDepth 8, warmupDepthCount 10, warmupTopN 5, steadyTopN 5. *)
Definition startedState (tok : Z) : AnalysisArrowState :=
  analysisArrowReducer 0 createInitialAnalysisArrowState
    (start_session tok STARTING_FEN 8 10 5 5).

Definition startedSession (tok : Z) : AnalysisArrowSession :=
  {| streamToken := tok; targetFen := STARTING_FEN; analysisId := None;
     minDepth := 8; warmupDepthCount := 10; warmupTopN := 5; steadyTopN := 5 |}.

(** A session that asks for no arrow while warming up (depths 8 to 17) and
    for three afterwards. *)
Definition bareState (tok : Z) : AnalysisArrowState :=
  analysisArrowReducer 0 createInitialAnalysisArrowState
    (start_session tok STARTING_FEN 8 10 0 3).


Definition fiveLines : list StockfishPVLine :=
  [mkLine 1 "e2e4" 31; mkLine 2 "d2d4" 29; mkLine 3 "g1f3" 25;
   mkLine 4 "c2c4" 22; mkLine 5 "e2e3" 12].

(** A depth report whose lines arrive with rank 2 ahead of rank 1. *)
Definition unsortedLines : list StockfishPVLine :=
  [mkLine 2 "d2d4" 29; mkLine 1 "e2e4" 31].

Definition depth8 (lines : list StockfishPVLine) : StockfishDepthUpdateEvent :=
  mkDepthUpdate "run-1" STARTING_FEN 8 lines.

Definition depth18 (lines : list StockfishPVLine) : StockfishDepthUpdateEvent :=
  mkDepthUpdate "run-1" STARTING_FEN 18 lines.

(** A depth-9 report of two branches, then a depth-8 report that ranks the
    second branch first. *)
Definition reportDepth9 : Merger.DepthLikeEvent :=
  Merger.update (mkDepthUpdate "run-1" STARTING_FEN 9
                   [mkLine 1 "E2E4" 31; mkLine 2 "d2d4" 29]).

Definition reportDepth8 : Merger.DepthLikeEvent :=
  Merger.update (mkDepthUpdate "run-1" STARTING_FEN 8
                   [mkLine 1 "d2d4" 35; mkLine 2 "e2e4" 20; mkLine 3 "g1f3" 10]).

(** Eleven distinct first moves in one report. *)
Definition elevenBranches : Merger.DepthLikeEvent :=
  Merger.update (mkDepthUpdate "run-1" STARTING_FEN 10
    [mkLine 1 "a2a3" 1; mkLine 2 "b2b3" 1; mkLine 3 "c2c3" 1; mkLine 4 "d2d3" 1;
     mkLine 5 "e2e3" 1; mkLine 6 "f2f3" 1; mkLine 7 "g2g3" 1; mkLine 8 "h2h3" 1;
     mkLine 9 "a2a4" 1; mkLine 10 "b2b4" 1; mkLine 11 "c2c4" 1]).

(** A stream whose first line ends in CR CR LF, cut before the blank line's
    line feed. *)
Definition crChunks : list jsstring :=
  [js "data: a" ++ [13%N; 13%N; 10%N]; [10%N]].

(** Two frames with CR LF line ends, cut inside the first delimiter and
    inside the second frame. *)
Definition crlfChunks : list jsstring :=
  [js "event: depth" ++ Sse.CRLF ++ js "data: {" ++ Sse.CRLF ++ js "data: }"
     ++ [13%N];
   [10%N; 13%N; 10%N] ++ js ": ping" ++ Sse.CRLF ++ js "da";
   js "ta:  x" ++ Sse.CRLF ++ Sse.CRLF ++ js "data: rest"].

(** The request fails, and the consumer then closes the handle. *)
Definition failThenClose : list Transport.Input :=
  [Transport.FetchRejected (Some (js "Failed to fetch")); Transport.Close].

(** One chunk carries two frames; the consumer calls [close()] from inside
    the callback of the first. *)
Definition twoFrames : jsstring :=
  js "data: 1" ++ Sse.blankLine ++ js "data: 2" ++ Sse.blankLine.

Definition closeInsideOnEvent : list Transport.Input :=
  [Transport.FetchResolved true 200 (js "OK") true; Transport.Returned;
   Transport.ReadValue (Some twoFrames); Transport.Close; Transport.Returned;
   Transport.Returned; Transport.ReadRejected (Some (js "aborted"))].

(** The stream ends on its own, and the consumer's [onClose] throws. *)
Definition throwInsideOnClose : list Transport.Input :=
  [Transport.FetchResolved true 200 (js "OK") true; Transport.Returned;
   Transport.ReadDone; Transport.Threw (Some (js "render failed"))].

(** The consumer's [onEvent] closes the handle and then throws. *)
Definition closeThenThrow : list Transport.Input :=
  [Transport.FetchResolved true 200 (js "OK") true; Transport.Returned;
   Transport.ReadValue (Some twoFrames); Transport.Close;
   Transport.Threw (Some (js "render failed"))].

(** A stream read to its end. *)
Definition readToEnd : list Transport.Input :=
  [Transport.FetchResolved true 200 (js "OK") true; Transport.Returned;
   Transport.ReadValue (Some twoFrames); Transport.Returned; Transport.Returned;
   Transport.ReadDone; Transport.Close].

(** The commentary object of the specification's scenario. *)
Definition samplePlan : jsstring :=
  jsq ("{'position_plan_title':'Open center','advantage_side':'white',"
       ++ "'advantage_summary':'White is ahead in development',"
       ++ "'best_move_san':'e4','best_move_reason':'It takes space',"
       ++ "'danger_to_watch':'The pin on the knight',"
       ++ "'white_plan':['Develop','Castle'],"
       ++ "'black_plan':'Trade queens; Equalize',"
       ++ "'concrete_ideas':[{'title':'Try e4','description':'Central push',"
       ++ "'playback_pv_uci':['E2E4 ','e7e5']},3,{'title':'No moves'}]}").

(** The same with a triple backtick inside the title. *)
Definition backtickPlan : jsstring :=
  jsq ("{'position_plan_title':'Open ```center','advantage_side':'white',"
       ++ "'advantage_summary':'White is ahead in development',"
       ++ "'best_move_san':'e4','best_move_reason':'It takes space',"
       ++ "'danger_to_watch':'The pin on the knight',"
       ++ "'white_plan':['Develop','Castle'],"
       ++ "'black_plan':['Trade queens','Equalize']}").

(** A plan whose white plan lacks the second bullet. *)
Definition oneBulletPlan : jsstring :=
  jsq ("{'position_plan_title':'Open center','advantage_side':'white',"
       ++ "'advantage_summary':'White is ahead in development',"
       ++ "'best_move_san':'e4','best_move_reason':'It takes space',"
       ++ "'danger_to_watch':'The pin on the knight',"
       ++ "'white_plan':['Develop',' '],"
       ++ "'black_plan':['Trade queens','Equalize']}").

(** Both plans given as strings. *)
Definition twoTextPlans : jsstring :=
  jsq ("{'position_plan_title':'Open center','advantage_side':'white',"
       ++ "'advantage_summary':'White is ahead in development',"
       ++ "'best_move_san':'e4','best_move_reason':'It takes space',"
       ++ "'danger_to_watch':'The pin on the knight',"
       ++ "'white_plan':' ;Develop; Castle;Attack',"
       ++ "'black_plan':'Trade queens - Equalize'}").


(** The members of a JSON object text, none if it is no object. *)
Definition membersOf (text : jsstring) : list (jsstring * Json.value) :=
  match Json.parse text with
  | Some (Json.JObject members) => members
  | _ => []
  end.

End Examples.

(** What the examples show of a result. *)

Module ExampleViews.
Import Sse Commentary Merger Examples.

Definition frame (data : string) : SseFrame :=
  {| eventName := js "message"; eventData := js data |}.

Definition summary (l : list CandidateStockfishLine)
    : list (jsstring * Z * Z * jsstring) :=
  List.map (fun c => (branchUci c, depth c, cand_rank c, evalLabel c)) l.

Definition e2e4AtDepth9 : CandidateStockfishLine :=
  candidateOfLine 9 (mkLine 1 "E2E4" 31).

Definition titleOf (r : completion (option CommentaryStructuredPlan))
    : option jsstring :=
  match r with
  | Normal (Some plan) => Some (position_plan_title plan)
  | _ => None
  end.

End ExampleViews.
(** ** More concrete inputs *)

Module Runs.
Import ArrowState Examples.

(** A session is started and two depth reports come in. *)
Definition twoReports : list (Z * AnalysisArrowAction) :=
  [(0, start_session 1 STARTING_FEN 8 10 5 5);
   (7, ingest_stream_event 1 (depth_update (depth8 fiveLines)));
   (9, ingest_stream_event 1
         (depth_update (mkDepthUpdate "run-1" STARTING_FEN 9 unsortedLines)))].

(** The session as the two reports leave it. *)
Definition pinnedSession : AnalysisArrowSession :=
  withAnalysisId (startedSession 1) (js "run-1").

(** A report of another engine run. *)
Definition otherRun : StockfishDepthUpdateEvent :=
  mkDepthUpdate "run-2" STARTING_FEN 9 fiveLines.

End Runs.

Module Frames.
Import Sse.

(** A keep-alive comment between two data lines. *)
Definition keepAlive : jsstring := js ": keep-alive".

(** A JSON text of two lines. *)
Definition twoLineData : jsstring := js "{" ++ LF ++ js "}".

Definition depthName : jsstring := js " depth".

End Frames.

Module Boards.
Import FenBoard.

(** A stand-in for [validateFen]: six fields separated by single spaces. *)
Definition sixFields (fen : jsstring) : bool * option jsstring :=
  if (length (split 32 fen) =? 6)%nat then (true, None)
  else (false, Some (js "Invalid FEN: must contain six space-delimited fields"))
.

Definition paddedFen : jsstring :=
  js "  8/8/8/8/8/8/8/K6k w - - 0 1 ".

(** A promotion, written in capitals and with spaces around it. *)
Definition promotionText : jsstring := js " E7E8Q ".

(** A fence block whose only line starts with a fence itself. *)
Definition fenceInside : jsstring :=
  js "```" ++ [10%N] ++ js "```x" ++ [10%N] ++ js "```".

End Boards.

Module Charts.
Import EvalChart Examples QArith.

(** A series with one point, at depth 8. *)
Definition oneBranch : LineSeries :=
  {| ls_id := js "e2e4"; ls_rank := 1; ls_san := None; ls_colorSlot := 1;
     ls_points := [{| lp_depth := 8; lp_value := 31 # 100;
                      lp_cp := Some 31%Z; lp_mate := None |}] |}.

(** 2^53, from where on not every integer is a double. *)
Definition twoTo53 : Z := 9007199254740992.

(** The sum [x + 1] of doubles for the integers up to 2^53, where it is
    exact but for 2^53 itself. *)
Definition addOneUpTo2p53 (x : Q) : Q :=
  if Qeq_bool x (inject_Z twoTo53) then x else x + 1.

(** A series with one point, at depth 2^53. *)
Definition farBranch : LineSeries :=
  {| ls_id := js "e2e4"; ls_rank := 1; ls_san := None; ls_colorSlot := 1;
     ls_points := [{| lp_depth := twoTo53; lp_value := 31 # 100;
                      lp_cp := Some 31%Z; lp_mate := None |}] |}.

End Charts.

(** * Properties *)

(** ** JavaScript strings *)

Section JsTextFacts.

Lemma jsstring_eqb_eq a b : jsstring_eqb a b = true <-> a = b.
Proof.
unfold jsstring_eqb. destruct (jsstring_eq_dec a b); split; congruence.
Qed.

Lemma jsstring_eqb_refl a : jsstring_eqb a a = true.
Proof. now apply jsstring_eqb_eq. Qed.

Lemma jsstring_eqb_neq a b : jsstring_eqb a b = false <-> a <> b.
Proof.
unfold jsstring_eqb. destruct (jsstring_eq_dec a b); split; congruence.
Qed.

Lemma startsWith_iff pattern s :
startsWith pattern s = true <-> exists rest, s = pattern ++ rest.
Proof.
revert s. induction pattern as [|p pattern IH]; intros s; simpl.
- split; [intros _; now exists s|reflexivity].
- destruct s as [|c s]; [split; [discriminate|intros [r Hr]; discriminate]|].
  rewrite andb_true_iff, N.eqb_eq, IH. split.
  + intros [-> [r ->]]. now exists r.
  + intros [r [= -> ->]]. split; [reflexivity|now exists r].
Qed.

Lemma startsWith_app pattern rest : startsWith pattern (pattern ++ rest) = true.
Proof. apply startsWith_iff. now exists rest. Qed.

Lemma startsWith_length pattern s :
startsWith pattern s = true -> (length pattern <= length s)%nat.
Proof.
intros H. apply startsWith_iff in H. destruct H as [r ->].
rewrite length_app. lia.
Qed.

Lemma startsWith_skipn pattern s :
startsWith pattern s = true -> s = pattern ++ skipn (length pattern) s.
Proof.
intros H. apply startsWith_iff in H. destruct H as [r ->].
now rewrite skipn_app, skipn_all, Nat.sub_diag.
Qed.

(** Extending the text does not change whether a pattern that fits starts
  it. *)
Lemma startsWith_extend pattern s y :
(length pattern <= length s)%nat ->
startsWith pattern (s ++ y) = startsWith pattern s.
Proof.
revert s. induction pattern as [|p pattern IH]; intros s Hlen; simpl.
- reflexivity.
- destruct s as [|c s]; simpl in *; [lia|].
  rewrite IH by lia. reflexivity.
Qed.

Lemma startsWith_extend_true pattern s y :
startsWith pattern s = true -> startsWith pattern (s ++ y) = true.
Proof.
intros H. rewrite startsWith_extend; [exact H|now apply startsWith_length].
Qed.

(** *** [replaceAll] *)

Lemma replaceAllFrom_skip skip pattern replacement s :
replaceAllFrom skip pattern replacement s =
  replaceAll pattern replacement (skipn skip s).
Proof.
revert skip. induction s as [|c s IH]; intros [|skip]; simpl; try reflexivity.
apply IH.
Qed.

Lemma replaceAll_nil pattern replacement : replaceAll pattern replacement [] = [].
Proof. reflexivity. Qed.

Lemma replaceAll_match pattern replacement s :
pattern <> [] -> startsWith pattern s = true ->
replaceAll pattern replacement s =
  replacement ++ replaceAll pattern replacement (skipn (length pattern) s).
Proof.
intros Hne Hs. destruct s as [|c s].
- destruct pattern; [congruence|discriminate].
- unfold replaceAll at 1. simpl replaceAllFrom. rewrite Hs.
  rewrite replaceAllFrom_skip. destruct pattern as [|p pattern]; [congruence|].
  simpl. now rewrite Nat.sub_0_r.
Qed.

Lemma replaceAll_step pattern replacement c s :
startsWith pattern (c :: s) = false ->
replaceAll pattern replacement (c :: s) = c :: replaceAll pattern replacement s.
Proof. intros Hs. unfold replaceAll. simpl. now rewrite Hs. Qed.

(** *** [indexOf] and [includes] *)

Lemma indexOf_Some pattern s i :
indexOf pattern s = Some i ->
s = firstn i s ++ pattern ++ skipn (i + length pattern) s.
Proof.
revert i. induction s as [|c s IH]; intros i; simpl.
- destruct (startsWith pattern []) eqn:E; [|discriminate].
  intros [= <-]. destruct pattern; [reflexivity|discriminate].
- destruct (startsWith pattern (c :: s)) eqn:E.
  + intros [= <-]. simpl firstn. simpl app at 1.
    now apply startsWith_skipn.
  + destruct (indexOf pattern s) as [j|]; [|discriminate].
    intros [= <-]. simpl. f_equal. now apply IH.
Qed.

Lemma indexOf_bound pattern s i :
indexOf pattern s = Some i -> (i + length pattern <= length s)%nat.
Proof.
revert i. induction s as [|c s IH]; intros i; simpl.
- destruct (startsWith pattern []) eqn:E; [|discriminate].
  intros [= <-]. apply startsWith_length in E. simpl in *. lia.
- destruct (startsWith pattern (c :: s)) eqn:E.
  + intros [= <-]. apply startsWith_length in E. simpl in *. lia.
  + destruct (indexOf pattern s) as [j|]; [|discriminate].
    intros [= <-]. specialize (IH j eq_refl). simpl. lia.
Qed.

(** The first occurrence stays the first when text is appended. *)
Lemma indexOf_extend pattern s y i :
indexOf pattern s = Some i -> indexOf pattern (s ++ y) = Some i.
Proof.
revert i. induction s as [|c s IH]; intros i.
- simpl. destruct (startsWith pattern []) eqn:E; [|discriminate].
  intros [= <-]. destruct pattern; [|discriminate].
  destruct y; reflexivity.
- intros H. pose proof (indexOf_bound _ _ _ H) as Hb. simpl in H.
  assert (Hx : startsWith pattern (c :: s ++ y) = startsWith pattern (c :: s))
    by (apply (startsWith_extend pattern (c :: s) y); lia).
  simpl app. simpl indexOf. rewrite Hx.
  destruct (startsWith pattern (c :: s)); [exact H|].
  destruct (indexOf pattern s) as [j|]; [|discriminate].
  now rewrite (IH j eq_refl).
Qed.

Lemma includes_false_cons pattern c s :
includes pattern (c :: s) = false ->
startsWith pattern (c :: s) = false /\ includes pattern s = false.
Proof.
unfold includes. simpl. destruct (startsWith pattern (c :: s)); [discriminate|].
destruct (indexOf pattern s); [discriminate|]. now split.
Qed.

Lemma includes_cons pattern c s :
includes pattern (c :: s) = startsWith pattern (c :: s) || includes pattern s.
Proof.
unfold includes. simpl. destruct (startsWith pattern (c :: s)); [reflexivity|].
destruct (indexOf pattern s); reflexivity.
Qed.

Lemma includes_false_app_r pattern x y :
includes pattern (x ++ y) = false -> includes pattern y = false.
Proof.
induction x as [|c x IH]; simpl; [tauto|].
intros H. apply includes_false_cons in H. now apply IH.
Qed.

Lemma includes_false_app_l pattern x y :
includes pattern (x ++ y) = false -> includes pattern x = false.
Proof.
induction x as [|c x IH]; intros H.
- unfold includes. simpl. destruct (startsWith pattern []) eqn:E; [|reflexivity].
  destruct pattern; [|discriminate]. unfold includes in H.
  destruct y; discriminate.
- simpl in H. apply includes_false_cons in H. destruct H as [Hs Hi].
  rewrite includes_cons, (IH Hi), orb_false_r.
  destruct (startsWith pattern (c :: x)) eqn:E; [|reflexivity].
  pose proof (startsWith_extend_true _ _ y E) as Hx. simpl app in Hx.
  congruence.
Qed.

Lemma startsWith_includes pattern s :
  startsWith pattern s = true -> includes pattern s = true.
Proof.
  intros H. unfold includes. destruct s; simpl; now rewrite H.
Qed.

(** A text without the pattern is left as it is. *)
Lemma replaceAll_none pattern replacement s :
  includes pattern s = false -> replaceAll pattern replacement s = s.
Proof.
  induction s as [|c s IH]; intros H; [reflexivity|].
  apply includes_false_cons in H. destruct H as [Hs Hi].
  rewrite replaceAll_step by exact Hs. now rewrite IH.
Qed.

Lemma startsWith_prefix p q s :
  startsWith (p ++ q) s = true -> startsWith p s = true.
Proof.
  intros H. apply startsWith_iff in H. destruct H as [r ->].
  rewrite <- app_assoc. apply startsWith_app.
Qed.

Lemma includes_false_longer p q s :
  includes p s = false -> includes (p ++ q) s = false.
Proof.
  induction s as [|c s IH]; intros H.
  - unfold includes in *. simpl in *.
    destruct (startsWith p []) eqn:E; [discriminate|].
    destruct (startsWith (p ++ q) []) eqn:E'; [|reflexivity].
    apply startsWith_prefix in E'. congruence.
  - apply includes_false_cons in H. destruct H as [Hs Hi].
    rewrite includes_cons, (IH Hi), orb_false_r.
    destruct (startsWith (p ++ q) (c :: s)) eqn:E; [|reflexivity].
    apply startsWith_prefix in E. congruence.
Qed.

(** *** [trim] *)

Lemma trimStart_suffix s : exists pre, s = pre ++ trimStart s.
Proof.
  induction s as [|c s [pre IH]]; simpl; [now exists []|].
  destruct (isWhiteSpace c); [|now exists []].
  exists (c :: pre). simpl. now f_equal.
Qed.

Lemma trimEnd_prefix s : exists post, s = trimEnd s ++ post.
Proof.
  unfold trimEnd. destruct (trimStart_suffix (rev s)) as [pre H].
  exists (rev pre). rewrite <- rev_app_distr, <- H. now rewrite rev_involutive.
Qed.



(** [trim] cuts the text out of its white-space margins. *)
Lemma trim_infix s : exists pre post, s = pre ++ trim s ++ post.
Proof.
  unfold trim. destruct (trimStart_suffix s) as [pre Hpre].
  destruct (trimEnd_prefix (trimStart s)) as [post Hpost].
  exists pre, post. now rewrite <- Hpost.
Qed.

Lemma includes_false_trim pattern s :
  includes pattern s = false -> includes pattern (trim s) = false.
Proof.
  intros H. destruct (trim_infix s) as (pre & post & E). rewrite E in H.
  apply includes_false_app_r in H. now apply includes_false_app_l in H.
Qed.

Lemma trimStart_all_space s :
  trimStart s = [] -> Forall (fun c => isWhiteSpace c = true) s.
Proof.
  induction s as [|c s IH]; simpl; [constructor|].
  destruct (isWhiteSpace c) eqn:E; [|discriminate].
  intros H. constructor; auto.
Qed.

Lemma trimStart_head s :
  trimStart s = [] \/ isWhiteSpace (hd 0%N (trimStart s)) = false.
Proof.
  induction s as [|c s IH]; simpl; [now left|].
  destruct (isWhiteSpace c) eqn:E; [exact IH|]. right. exact E.
Qed.

Lemma trimStart_id s : isWhiteSpace (hd 0%N s) = false -> trimStart s = s.
Proof. destruct s as [|c s]; simpl; [reflexivity|]. now intros ->. Qed.

Lemma trim_nil_all_space s :
  trim s = [] -> Forall (fun c => isWhiteSpace c = true) s.
Proof.
  unfold trim, trimEnd. intros H.
  assert (H1 : trimStart (rev (trimStart s)) = []).
  { rewrite <- (rev_involutive (trimStart _)), H. reflexivity. }
  apply trimStart_all_space in H1.
  destruct (trimStart_head s) as [H0|H0]; [now apply trimStart_all_space|].
  destruct (trimStart s) as [|c r] eqn:E; [now apply trimStart_all_space|].
  exfalso. simpl in H0. rewrite Forall_forall in H1.
  rewrite (H1 c) in H0; [discriminate|]. apply -> in_rev. now left.
Qed.

(** A text that neither starts nor ends with white space is trimmed. *)
Lemma trim_id s :
  isWhiteSpace (hd 0%N s) = false -> isWhiteSpace (last s 0%N) = false ->
  trim s = s.
Proof.
  intros Hh Hl. unfold trim, trimEnd. rewrite (trimStart_id s Hh).
  rewrite trimStart_id; [apply rev_involutive|].
  destruct s as [|c s] using rev_ind; [reflexivity|].
  rewrite rev_app_distr. simpl. now rewrite last_last in Hl.
Qed.

(** *** [split] and [join] *)

Lemma split_nonempty sep s : split sep s <> [].
Proof.
  destruct s as [|c s]; simpl; [discriminate|].
  destruct (c =? sep)%N; [discriminate|].
  destruct (split sep s); discriminate.
Qed.

Lemma split_cons_other sep c s :
  (c =? sep)%N = false ->
  split sep (c :: s) = (c :: hd [] (split sep s)) :: tl (split sep s).
Proof.
  intros H. simpl. rewrite H.
  destruct (split sep s) eqn:E; [now apply split_nonempty in E|reflexivity].
Qed.

Lemma split_app_sep sep x y :
  split sep (x ++ sep :: y) = split sep x ++ split sep y.
Proof.
  induction x as [|c x IH].
  - simpl. now rewrite N.eqb_refl.
  - simpl app. destruct (c =? sep)%N eqn:E.
    + simpl. rewrite E, IH. reflexivity.
    + rewrite !split_cons_other by exact E. rewrite IH.
      destruct (split sep x) eqn:Ex; [now apply split_nonempty in Ex|].
      reflexivity.
Qed.

Lemma split_none sep s : ~ In sep s -> split sep s = [s].
Proof.
  induction s as [|c s IH]; intros H; [reflexivity|].
  assert (Hc : (c =? sep)%N = false)
    by (apply N.eqb_neq; intros ->; apply H; now left).
  rewrite split_cons_other by exact Hc.
  rewrite IH by (intros Hin; apply H; now right). reflexivity.
Qed.

Lemma join_split sep s : join [sep] (split sep s) = s.
Proof.
  induction s as [|c s IH]; [reflexivity|].
  destruct (c =? sep)%N eqn:E.
  - simpl. rewrite E. apply N.eqb_eq in E. subst c.
    destruct (split sep s) eqn:Es; [now apply split_nonempty in Es|].
    simpl in *. now rewrite IH.
  - rewrite split_cons_other by exact E.
    destruct (split sep s) as [|first others] eqn:Es;
      [now apply split_nonempty in Es|].
    simpl hd. simpl tl. rewrite <- IH.
    destruct others; reflexivity.
Qed.

Lemma includes_single c s : includes [c] s = false -> ~ In c s.
Proof.
  induction s as [|d s IH]; intros H; [tauto|].
  apply includes_false_cons in H. destruct H as [Hs Hi]. simpl in Hs.
  rewrite andb_true_r in Hs. apply N.eqb_neq in Hs.
  intros [->|Hin]; [congruence|now apply IH].
Qed.

End JsTextFacts.

(** ** Lists *)

Section ListFacts.
Context {A : Type}.

Lemma In_firstn_In n (l : list A) x : In x (firstn n l) -> In x l.
Proof.
  intros H. rewrite <- (firstn_skipn n l). apply in_or_app. now left.
Qed.

Lemma last_app_nonempty (x y : list A) d :
  y <> [] -> last (x ++ y) d = last y d.
Proof.
  intros Hy. induction x as [|a x IH]; [reflexivity|].
  simpl app. destruct (x ++ y) eqn:E.
  - apply app_eq_nil in E. tauto.
  - rewrite <- IH. reflexivity.
Qed.

Lemma firstn_min_length n (l : list A) :
  firstn (Nat.min n (length l)) l = firstn n l.
Proof.
  revert l. induction n as [|n IH]; intros [|x l]; simpl; try reflexivity.
  now rewrite IH.
Qed.

Lemma StronglySorted_firstn (R : A -> A -> Prop) n l :
  StronglySorted R l -> StronglySorted R (firstn n l).
Proof.
  revert l. induction n as [|n IH]; intros l Hs; simpl; [constructor|].
  destruct l as [|x l]; [constructor|].
  inversion Hs as [|? ? Hs' Hall]; subst. constructor; [now apply IH|].
  rewrite Forall_forall in *. intros y Hy. apply Hall.
  eapply In_firstn_In; eassumption.
Qed.


Lemma NoDup_firstn n (l : list A) : NoDup l -> NoDup (firstn n l).
Proof.
  revert l. induction n as [|n IH]; intros l Hnd; simpl; [constructor|].
  destruct l as [|x l]; [constructor|].
  inversion Hnd as [|? ? Hni Hnd']; subst. constructor; [|now apply IH].
  intros Hin. apply Hni. eapply In_firstn_In; eassumption.
Qed.

Lemma filter_length_perm (P : A -> bool) l l' :
  Permutation l l' -> length (filter P l) = length (filter P l').
Proof.
  induction 1 as [|x l l' Hp IH|x y l|l l' l'' H1 IH1 H2 IH2]; simpl.
  - reflexivity.
  - destruct (P x); simpl; congruence.
  - destruct (P x), (P y); reflexivity.
  - congruence.
Qed.

(** In a sorted list, an element that at most [n] elements are not behind
    is among the first [n]. *)
Lemma In_firstn_sorted (R : A -> A -> Prop) (P : A -> bool) (e : A) :
  (forall x, R x e -> P x = true) -> P e = true ->
  forall l n, StronglySorted R l -> In e l ->
    (length (filter P l) <= n)%nat -> In e (firstn n l).
Proof.
  intros HR He. induction l as [|x l IH]; intros n Hs Hin Hlen; [destruct Hin|].
  inversion Hs as [|? ? Hs' Hall]; subst.
  destruct Hin as [->|Hin].
  - simpl in Hlen. rewrite He in Hlen. simpl in Hlen.
    destruct n; [lia|]. now left.
  - assert (Hx : P x = true).
    { apply HR. rewrite Forall_forall in Hall. now apply Hall. }
    simpl in Hlen. rewrite Hx in Hlen. simpl in Hlen.
    destruct n; [lia|]. right. apply IH; [assumption..|lia].
Qed.
End ListFacts.

(** ** The analysis reducer *)

Module ArrowStateFacts.
Import ArrowState ArrowStateNotions.




(** The token invariant behind no-resurrection: a reducer step keeps a token
    dead unless it starts a session with that token. *)
Lemma tokenDead_step now tok state a :
  tokenDead tok state -> ~ startsToken tok a ->
  tokenDead tok (analysisArrowReducer now state a).
Proof.
  unfold tokenDead. intros Hdead Hns.
  destruct a as [t fen a b c d|t ns| |m|t p]; simpl.
  - simpl in Hns. intros sess [= <-]. simpl. exact Hns.
  - destruct (session state) as [s0|] eqn:Hs; [|now rewrite Hs].
    destruct (streamToken s0 =? t); simpl; [discriminate|].
    now rewrite Hs.
  - discriminate.
  - discriminate.
  - destruct (session state) as [s0|] eqn:Hs; [|now rewrite Hs].
    destruct (streamToken s0 =? t) eqn:Ht; simpl; [|now rewrite Hs].
    unfold ingest.
    destruct p as [e|e|e|ty]; simpl; try discriminate; try (now rewrite Hs).
    + destruct (jsstring_eqb (du_fen e) (targetFen s0)); simpl; [|now rewrite Hs].
      destruct (analysisId s0) as [id|].
      * destruct (jsstring_eqb (du_analysis_id e) id); simpl; [|now rewrite Hs].
        intros sess [= <-]. simpl. now apply Hdead.
      * intros sess [= <-]. simpl. now apply Hdead.
    + destruct (jsstring_eqb (ac_fen e) (targetFen s0)); simpl; [|now rewrite Hs].
      destruct (analysisId s0) as [id|].
      * destruct (jsstring_eqb (ac_analysis_id e) id); simpl; [|now rewrite Hs].
        discriminate.
      * discriminate.
Qed.

Lemma tokenDead_dispatchAll tok acts : forall state,
  tokenDead tok state ->
  Forall (fun a => ~ startsToken tok (snd a)) acts ->
  tokenDead tok (dispatchAll state acts).
Proof.
  induction acts as [|a acts IH]; intros state Hdead Hall; simpl; [exact Hdead|].
  inversion Hall; subst. apply IH; [|assumption].
  now apply tokenDead_step.
Qed.

Lemma tokenDead_after_stop now tok ns state :
  tokenDead tok (analysisArrowReducer now state (stop_session tok ns)).
Proof.
  unfold tokenDead. simpl.
  destruct (session state) as [s0|] eqn:Hs.
  - destruct (streamToken s0 =? tok) eqn:Ht; simpl.
    + discriminate.
    + rewrite Hs. intros sess [= <-]. now apply Z.eqb_neq.
  - rewrite Hs. discriminate.
Qed.

Lemma ingest_dead_noop now tok state p :
  tokenDead tok state ->
  analysisArrowReducer now state (ingest_stream_event tok p) = state.
Proof.
  unfold tokenDead. intros Hdead. simpl.
  destruct (session state) as [s0|] eqn:Hs; [|reflexivity].
  specialize (Hdead s0 eq_refl). apply Z.eqb_neq in Hdead.
  now rewrite Hdead.
Qed.

(** C1. Once [stop_session] has been applied with token [tokA], and whatever
    actions follow as long as none of them starts a session with [tokA],
    an [ingest_stream_event] carrying [tokA] returns the state unchanged.
    This holds from every state, reachable or not. *)
Theorem stop_session_no_resurrection :
  forall (state : AnalysisArrowState) (tokA : Z) (now0 : Z)
         (nextStatus : AnalysisStreamStatus)
         (later : list (Z * AnalysisArrowAction))
         (now : Z) (payload : StockfishStreamEvent),
    Forall (fun a => ~ startsToken tokA (snd a)) later ->
    let stopped := analysisArrowReducer now0 state (stop_session tokA nextStatus) in
    let state' := dispatchAll stopped later in
    analysisArrowReducer now state' (ingest_stream_event tokA payload) = state'.
Proof.
  intros state tokA now0 ns later now payload Hall stopped state'.
  apply ingest_dead_noop. apply tokenDead_dispatchAll; [|exact Hall].
  apply tokenDead_after_stop.
Qed.

(** C10. When the state's session token equals the action's token,
    [stop_session] sets [status] to [nextStatus] and [session] to null and
    leaves [snapshot], [events] and [lastError] as they were. *)
Theorem stop_session_frame :
  forall (now : Z) (state : AnalysisArrowState) (sess : AnalysisArrowSession)
         (tok : Z) (nextStatus : AnalysisStreamStatus),
    session state = Some sess -> streamToken sess = tok ->
    let state' := analysisArrowReducer now state (stop_session tok nextStatus) in
    status state' = nextStatus /\ session state' = None /\
    snapshot state' = snapshot state /\ events state' = events state /\
    lastError state' = lastError state.
Proof.
  intros now state sess tok ns Hs Ht. simpl. rewrite Hs, Ht, Z.eqb_refl. simpl.
  repeat split.
Qed.




End ArrowStateFacts.

Module ArrowStateExamples.
Import ArrowState ArrowStateNotions ArrowStateFacts Examples.

(** The scenario of the specification: after start, a depth-8 report with
    five lines keeps the machine streaming, pins the analysis id and shows
    five arrows. *)
Example ingest_first_report :
  let s := analysisArrowReducer 7 (startedState 1)
             (ingest_stream_event 1 (depth_update (depth8 fiveLines))) in
  status s = streaming /\
  option_map analysisId (session s) = Some (Some (js "run-1")) /\
  option_map (fun sn => length (arrows sn)) (snapshot s) = Some 5%nat.
Proof. repeat split. Qed.


(** Witness of C1: stop token 1, then start token 2 and ingest under it;
    a late event for token 1 changes nothing. *)
Lemma stop_session_no_resurrection_witness :
  let later := [(3, start_session 2 STARTING_FEN 8 10 5 5);
                (4, ingest_stream_event 2 (depth_update (depth8 fiveLines)))] in
  Forall (fun a => ~ startsToken 1 (snd a)) later /\
  let state' := dispatchAll
                  (analysisArrowReducer 2 (startedState 1) (stop_session 1 closed))
                  later in
  analysisArrowReducer 5 state'
    (ingest_stream_event 1 (depth_update (depth8 unsortedLines))) = state'.
Proof.
  assert (H : Forall (fun a => ~ startsToken 1 (snd a))
                [(3, start_session 2 STARTING_FEN 8 10 5 5);
                 (4, ingest_stream_event 2 (depth_update (depth8 fiveLines)))]).
  { repeat constructor; simpl; [lia | tauto]. }
  split; [exact H|].
  exact (stop_session_no_resurrection (startedState 1) 1 2 closed _ 5
           (depth_update (depth8 unsortedLines)) H).
Defined.

(** Witness of C10. *)
Lemma stop_session_frame_witness :
  session (startedState 1) = Some (startedSession 1) /\
  streamToken (startedSession 1) = 1 /\
  let state' := analysisArrowReducer 9 (startedState 1) (stop_session 1 idle) in
  status state' = idle /\ session state' = None /\
  snapshot state' = snapshot (startedState 1) /\
  events state' = events (startedState 1) /\
  lastError state' = lastError (startedState 1).
Proof.
  split; [reflexivity|]. split; [reflexivity|].
  exact (stop_session_frame 9 (startedState 1) (startedSession 1) 1 idle
           eq_refl eq_refl).
Defined.


(** With warmupTopN 0 a depth-8 report of five lines still shows one arrow,
    and with steadyTopN 3 a depth-18 report of five lines shows three. *)
Example arrows_of_bare_session :
  option_map (fun sn => length (arrows sn))
    (snapshot (analysisArrowReducer 7 (bareState 1)
                 (ingest_stream_event 1 (depth_update (depth8 fiveLines)))))
    = Some 1%nat /\
  option_map (fun sn => length (arrows sn))
    (snapshot (analysisArrowReducer 7 (bareState 1)
                 (ingest_stream_event 1 (depth_update (depth18 fiveLines)))))
    = Some 3%nat.
Proof. split; reflexivity. Qed.




End ArrowStateExamples.

(** ** The frame decoder *)

Module SseFacts.
Import Sse SseNotions.

(** *** Line-ending normalisation, [buffer.replace(/\r\n/g, "\n")] *)

Lemma startsWith_CRLF c s :
  startsWith CRLF (c :: s) = ((c =? 13) && (hd 0 s =? 10))%N.
Proof.
  destruct s as [|d s]; simpl.
  - now rewrite andb_false_r.
  - now rewrite andb_true_r.
Qed.

Lemma normalize_nil : normalize [] = [].
Proof. reflexivity. Qed.

Lemma normalize_crlf s : normalize (13%N :: 10%N :: s) = 10%N :: normalize s.
Proof.
  unfold normalize. rewrite replaceAll_match; [reflexivity|discriminate|reflexivity].
Qed.

Lemma normalize_other c s :
  ((c =? 13) && (hd 0 s =? 10))%N = false ->
  normalize (c :: s) = c :: normalize s.
Proof.
  intros H. unfold normalize. apply replaceAll_step. now rewrite startsWith_CRLF.
Qed.

(** The shape of a text, as normalisation sees it. *)
Lemma normalize_cases s :
  s = [] \/
  (exists s', s = 13%N :: 10%N :: s') \/
  (exists c s', s = c :: s' /\ ((c =? 13) && (hd 0 s' =? 10))%N = false).
Proof.
  destruct s as [|c s]; [now left|right].
  destruct ((c =? 13) && (hd 0 s =? 10))%N eqn:E.
  - left. apply andb_true_iff in E. destruct E as [Hc Hd].
    apply N.eqb_eq in Hc, Hd. destruct s as [|d s]; simpl in Hd; [discriminate|].
    subst. now exists s.
  - right. now exists c, s.
Qed.

(** Normalisation distributes over a cut that does not separate a carriage
    return from its line feed. *)
Lemma normalize_app_bounded n : forall x z,
  (length x <= n)%nat ->
  last x 0%N <> 13%N \/ hd 0%N z <> 10%N ->
  normalize (x ++ z) = normalize x ++ normalize z.
Proof.
  induction n as [|n IH]; intros x z Hlen Hcut.
  - destruct x; [reflexivity|simpl in Hlen; lia].
  - destruct (normalize_cases x) as [->|[[x' ->]|(c & x' & -> & Hc)]].
    + reflexivity.
    + simpl app. rewrite !normalize_crlf. simpl. f_equal.
      apply IH; [simpl in Hlen; lia|].
      destruct x' as [|d x']; [left; discriminate|exact Hcut].
    + simpl app. rewrite (normalize_other c x' Hc).
      destruct x' as [|d x'].
      * simpl. rewrite normalize_other; [reflexivity|].
        simpl in Hcut. apply andb_false_iff.
        destruct Hcut as [H|H]; [left|right]; now apply N.eqb_neq.
      * rewrite normalize_other by exact Hc. simpl. f_equal.
        apply (IH (d :: x') z); [simpl in *; lia|exact Hcut].
Qed.

Lemma normalize_app x z :
  last x 0%N <> 13%N \/ hd 0%N z <> 10%N ->
  normalize (x ++ z) = normalize x ++ normalize z.
Proof. now apply (normalize_app_bounded (length x)). Qed.

(** A text without CR LF is left as it is. *)
Lemma normalize_id s : includes CRLF s = false -> normalize s = s.
Proof.
  induction s as [|c s IH]; intros H; [reflexivity|].
  apply includes_false_cons in H. destruct H as [Hs Hi].
  rewrite startsWith_CRLF in Hs. rewrite normalize_other by exact Hs.
  now rewrite IH.
Qed.

Lemma normalize_hd s :
  hd 0%N (normalize s) = 10%N -> hd 0%N s = 10%N \/ startsWith CRLF s = true.
Proof.
  destruct (normalize_cases s) as [->|[[s' ->]|(c & s' & -> & Hc)]].
  - simpl. discriminate.
  - now right.
  - rewrite (normalize_other _ _ Hc). simpl. now left.
Qed.

(** Without CR CR LF in the text, one pass leaves no CR LF behind. *)
Lemma normalize_clean_bounded n : forall s,
  (length s <= n)%nat ->
  includes CRCRLF s = false -> includes CRLF (normalize s) = false.
Proof.
  induction n as [|n IH]; intros s Hlen H.
  - destruct s; [reflexivity|simpl in Hlen; lia].
  - destruct (normalize_cases s) as [->|[[s' ->]|(c & s' & -> & Hc)]].
    + reflexivity.
    + rewrite normalize_crlf. rewrite includes_cons, startsWith_CRLF. simpl.
      apply IH; [simpl in Hlen; lia|].
      apply (includes_false_app_r CRCRLF [13%N; 10%N]). exact H.
    + rewrite (normalize_other _ _ Hc). rewrite includes_cons, startsWith_CRLF.
      apply includes_false_cons in H. destruct H as [Hs Hi].
      rewrite (IH s' ltac:(simpl in Hlen; lia) Hi), orb_false_r.
      destruct (c =? 13)%N eqn:Ec; [|reflexivity]. simpl in Hc |- *.
      apply N.eqb_neq. intros Hhd.
      destruct (normalize_hd s' Hhd) as [H10|Hcrlf].
      * apply N.eqb_eq in H10. congruence.
      * apply N.eqb_eq in Ec. subst c.
        apply startsWith_iff in Hcrlf. destruct Hcrlf as [r ->].
        simpl in Hs. discriminate.
Qed.

Lemma normalize_clean s :
  includes CRCRLF s = false -> includes CRLF (normalize s) = false.
Proof. now apply (normalize_clean_bounded (length s)). Qed.

(** Normalisation keeps the last code unit. *)
Lemma normalize_last_bounded n : forall s,
  (length s <= n)%nat -> last (normalize s) 0%N = last s 0%N.
Proof.
  induction n as [|n IH]; intros s Hlen.
  - destruct s; [reflexivity|simpl in Hlen; lia].
  - destruct (normalize_cases s) as [->|[[s' ->]|(c & s' & -> & Hc)]].
    + reflexivity.
    + rewrite normalize_crlf.
      assert (Hn : (length s' <= n)%nat) by (simpl in Hlen; lia).
      specialize (IH s' Hn).
      destruct s' as [|d s']; [reflexivity|].
      change (last (13%N :: 10%N :: d :: s') 0%N) with (last (d :: s') 0%N).
      rewrite <- IH.
      destruct (normalize (d :: s')) eqn:E; [|reflexivity].
      exfalso. destruct (normalize_cases (d :: s'))
        as [H|[[r H]|(c & r & H & Hc)]]; try discriminate.
      * rewrite H, normalize_crlf in E. discriminate.
      * rewrite H, (normalize_other _ _ Hc) in E. discriminate.
    + rewrite (normalize_other _ _ Hc).
      assert (Hn : (length s' <= n)%nat) by (simpl in Hlen; lia).
      specialize (IH s' Hn).
      destruct s' as [|d s']; [reflexivity|].
      change (last (c :: d :: s') 0%N) with (last (d :: s') 0%N).
      rewrite <- IH.
      destruct (normalize (d :: s')) eqn:E; [|reflexivity].
      exfalso. destruct (normalize_cases (d :: s'))
        as [H|[[r H]|(c' & r & H & Hc')]]; try discriminate.
      * rewrite H, normalize_crlf in E. discriminate.
      * rewrite H, (normalize_other _ _ Hc') in E. discriminate.
Qed.

Lemma normalize_last s : last (normalize s) 0%N = last s 0%N.
Proof. now apply (normalize_last_bounded (length s)). Qed.

(** *** The loop over the blank-line delimiters *)

Lemma skipn_delimiter_length (w : jsstring) i :
  indexOf blankLine w = Some i ->
  (length (skipn (i + 2) w) < length w)%nat.
Proof.
  intros H. apply indexOf_bound in H. simpl in H. rewrite length_skipn. lia.
Qed.

Lemma emitLoop_S fuel w :
  emitLoop (S fuel) w =
    match indexOf blankLine w with
    | None => ([], w)
    | Some delimiterIndex =>
        let (emitted, remainder) :=
          emitLoop fuel (skipn (delimiterIndex + 2) w) in
        (match parseSseEventBlock (firstn delimiterIndex w) with
         | Some parsed => parsed :: emitted
         | None => emitted
         end, remainder)
    end.
Proof. reflexivity. Qed.

Lemma emitLoop_fuel f1 : forall f2 w,
  (length w <= f1)%nat -> (length w <= f2)%nat -> emitLoop f1 w = emitLoop f2 w.
Proof.
  induction f1 as [|f1 IH]; intros f2 w H1 H2.
  - destruct w; [|simpl in H1; lia]. destruct f2; reflexivity.
  - destruct f2 as [|f2].
    + destruct w; [reflexivity|simpl in H2; lia].
    + rewrite !emitLoop_S.
      destruct (indexOf blankLine w) as [i|] eqn:E; [|reflexivity].
      pose proof (skipn_delimiter_length w i E).
      rewrite (IH f2) by lia. reflexivity.
Qed.

(** One turn of the loop. *)
Lemma splitFrames_eq w :
  splitFrames w =
    match indexOf blankLine w with
    | None => ([], w)
    | Some i =>
        (emitBlock (firstn i w) (fst (splitFrames (skipn (i + 2) w))),
         snd (splitFrames (skipn (i + 2) w)))
    end.
Proof.
  unfold splitFrames. destruct w as [|c w]; [reflexivity|].
  simpl length. rewrite emitLoop_S.
  destruct (indexOf blankLine (c :: w)) as [i|] eqn:E; [|reflexivity].
  pose proof (skipn_delimiter_length _ i E) as Hlt. simpl length in Hlt.
  rewrite (emitLoop_fuel (length w) (length (skipn (i + 2) (c :: w)))) by lia.
  unfold emitBlock. now destruct (emitLoop _ (skipn (i + 2) (c :: w))).
Qed.

Lemma emitBufferedEvents_eq buffer :
  emitBufferedEvents buffer = splitFrames (normalize buffer).
Proof. reflexivity. Qed.

(** The remainder holds no delimiter and ends the text. *)
Lemma splitFrames_remainder n : forall w,
  (length w <= n)%nat ->
  indexOf blankLine (snd (splitFrames w)) = None /\
  exists consumed, w = consumed ++ snd (splitFrames w).
Proof.
  induction n as [|n IH]; intros w Hlen; rewrite splitFrames_eq.
  - destruct w; [|simpl in Hlen; lia]. split; [reflexivity|now exists []].
  - destruct (indexOf blankLine w) as [i|] eqn:E; simpl.
    + pose proof (skipn_delimiter_length w i E) as Hlt.
      destruct (IH (skipn (i + 2) w) ltac:(lia)) as [Hnone [consumed Hc]].
      split; [exact Hnone|].
      exists (firstn (i + 2) w ++ consumed).
      rewrite <- app_assoc, <- Hc. now rewrite firstn_skipn.
    + split; [exact E|now exists []].
Qed.

(** Decoding a text that goes on: the frames of the text so far, then what
    its remainder and the continuation decode to. *)
Lemma splitFrames_app n : forall w y,
  (length w <= n)%nat ->
  splitFrames (w ++ y) =
    (fst (splitFrames w) ++ fst (splitFrames (snd (splitFrames w) ++ y)),
     snd (splitFrames (snd (splitFrames w) ++ y))).
Proof.
  induction n as [|n IH]; intros w y Hlen.
  - destruct w; [|simpl in Hlen; lia]. simpl.
    now destruct (splitFrames y).
  - rewrite (splitFrames_eq w).
    destruct (indexOf blankLine w) as [i|] eqn:E; simpl.
    + pose proof (skipn_delimiter_length w i E) as Hlt.
      pose proof (indexOf_bound _ _ _ E) as Hb. simpl in Hb.
      rewrite (splitFrames_eq (w ++ y)), (indexOf_extend _ _ y _ E).
      rewrite firstn_app, skipn_app.
      replace (i - length w)%nat with O by lia.
      replace (i + 2 - length w)%nat with O by lia.
      simpl firstn. simpl skipn. rewrite app_nil_r.
      rewrite (IH (skipn (i + 2) w) y) by lia. simpl.
      unfold emitBlock.
      destruct (parseSseEventBlock (firstn i w)); reflexivity.
    + now destruct (splitFrames (w ++ y)).
Qed.

Lemma indexOf_blankLine_CR r :
  indexOf blankLine r = None -> indexOf blankLine (r ++ CR) = None.
Proof.
  induction r as [|c r IH]; [reflexivity|].
  simpl indexOf.
  destruct ((c =? 10)%N && match r with
                           | [] => false
                           | c0 :: _ => (c0 =? 10)%N && true
                           end) eqn:E; [discriminate|].
  destruct (indexOf blankLine r) eqn:Er; [discriminate|].
  intros _. rewrite (IH eq_refl).
  replace ((c =? 10)%N && match r ++ CR with
                          | [] => false
                          | c0 :: _ => (c0 =? 10)%N && true
                          end) with false; [reflexivity|].
  destruct r as [|d r]; simpl in *; [now rewrite andb_false_r|now rewrite E].
Qed.

(** *** Chunk boundaries *)

(** Feeding the decoder the text [a] and then, with the remainder it
    returned, the text [b], against feeding it [a ++ b] at once. *)
Lemma emitBufferedEvents_app a b :
  includes CRCRLF (a ++ b) = false ->
  emitBufferedEvents (a ++ b) =
    (fst (emitBufferedEvents a)
       ++ fst (emitBufferedEvents (snd (emitBufferedEvents a) ++ b)),
     snd (emitBufferedEvents (snd (emitBufferedEvents a) ++ b))).
Proof.
  intros Hclean. rewrite !emitBufferedEvents_eq.
  assert (Ha : includes CRLF (normalize a) = false)
    by (apply normalize_clean; eapply includes_false_app_l; exact Hclean).
  destruct (N.eq_dec (last a 0%N) 13) as [Hlast|Hlast];
    [destruct (N.eq_dec (hd 0%N b) 10) as [Hhd|Hhd]|].
  - (* the cut separates a carriage return from its line feed *)
    destruct (exists_last (l := a)) as (a' & c & ->);
      [intros ->; discriminate|].
    rewrite last_last in Hlast. subst c.
    destruct b as [|d b']; [discriminate|]. simpl in Hhd. subst d.
    fold CR in *.
    assert (HaCR : normalize (a' ++ CR) = normalize a' ++ CR)
      by (apply normalize_app; right; discriminate).
    assert (Hab : normalize ((a' ++ CR) ++ 10%N :: b')
                  = normalize a' ++ 10%N :: normalize b').
    { rewrite <- app_assoc. simpl app.
      rewrite normalize_app by (right; discriminate).
      now rewrite normalize_crlf. }
    rewrite Hab, HaCR.
    destruct (splitFrames_remainder _ (normalize a') (le_n _))
      as [Hnone [consumed Hcons]].
    set (r0 := snd (splitFrames (normalize a'))) in *.
    assert (Hsplit : splitFrames (normalize a' ++ CR)
                     = (fst (splitFrames (normalize a')), r0 ++ CR)).
    { rewrite (splitFrames_app _ _ CR (le_n _)). fold r0.
      rewrite (splitFrames_eq (r0 ++ CR)), (indexOf_blankLine_CR _ Hnone).
      simpl. now rewrite app_nil_r. }
    rewrite Hsplit. simpl fst. simpl snd.
    assert (Hr0 : normalize r0 = r0).
    { apply normalize_id. rewrite HaCR in Ha.
      apply includes_false_app_l in Ha. rewrite Hcons in Ha.
      now apply includes_false_app_r in Ha. }
    assert (Hrb : normalize ((r0 ++ CR) ++ 10%N :: b')
                  = r0 ++ 10%N :: normalize b').
    { rewrite <- app_assoc. simpl app.
      rewrite normalize_app by (right; discriminate).
      now rewrite normalize_crlf, Hr0. }
    rewrite Hrb.
    rewrite (splitFrames_app _ (normalize a') (10%N :: normalize b') (le_n _)).
    reflexivity.
  - rewrite normalize_app by now right.
    rewrite (splitFrames_app _ (normalize a) (normalize b) (le_n _)).
    destruct (splitFrames_remainder _ (normalize a) (le_n _))
      as [Hnone [consumed Hcons]].
    set (r := snd (splitFrames (normalize a))) in *.
    rewrite (normalize_app r b) by now right.
    rewrite (normalize_id r); [reflexivity|].
    rewrite Hcons in Ha. now apply includes_false_app_r in Ha.
  - rewrite normalize_app by now left.
    rewrite (splitFrames_app _ (normalize a) (normalize b) (le_n _)).
    destruct (splitFrames_remainder _ (normalize a) (le_n _))
      as [Hnone [consumed Hcons]].
    set (r := snd (splitFrames (normalize a))) in *.
    assert (Hr : last r 0%N <> 13%N).
    { destruct r as [|c r'] eqn:Er; [discriminate|].
      rewrite <- (normalize_last a), Hcons in Hlast.
      rewrite last_app_nonempty in Hlast by discriminate. exact Hlast. }
    rewrite (normalize_app r b) by now left.
    rewrite (normalize_id r); [reflexivity|].
    rewrite Hcons in Ha. now apply includes_false_app_r in Ha.
Qed.

Lemma feedChunks_from chunks : forall consumed,
  includes CRCRLF (consumed ++ concat chunks) = false ->
  fold_left feedChunk chunks (emitBufferedEvents consumed)
    = emitBufferedEvents (consumed ++ concat chunks).
Proof.
  induction chunks as [|chunk chunks IH]; intros consumed Hclean; simpl.
  - now rewrite app_nil_r.
  - simpl in Hclean. rewrite app_assoc in Hclean.
    rewrite app_assoc, <- (IH (consumed ++ chunk) Hclean). f_equal.
    unfold feedChunk at 1.
    rewrite (emitBufferedEvents_app consumed chunk)
      by (eapply includes_false_app_l; exact Hclean).
    now destruct (emitBufferedEvents (snd (emitBufferedEvents consumed) ++ chunk)).
Qed.

(** Chunk-boundary invariance away from CR CR LF.  For a text in which no
    carriage return is followed by CR LF, however it is cut into chunks,
    feeding the chunks one after the other (each call on the previous
    remainder followed by the next chunk) emits the frames of the single
    call on the whole text, in the same order, and ends with the same
    remainder. *)
Theorem decodeChunks_whole :
  forall chunks : list jsstring,
    includes CRCRLF (concat chunks) = false ->
    decodeChunks chunks = emitBufferedEvents (concat chunks).
Proof.
  intros chunks Hclean. unfold decodeChunks.
  exact (feedChunks_from chunks [] Hclean).
Qed.

End SseFacts.

Module SseExamples.
Import Sse SseNotions SseFacts Examples.

Example decode_crlfChunks :
  decodeChunks crlfChunks =
    ([ {| eventName := js "depth"; eventData := js "{" ++ LF ++ js "}" |};
       {| eventName := js "message"; eventData := js " x" |} ],
     js "data: rest").
Proof. reflexivity. Qed.

(** Three chunks that cut CR LF pairs apart decode as the whole text does. *)
Lemma decodeChunks_whole_witness :
  includes CRCRLF (concat crlfChunks) = false /\
  decodeChunks crlfChunks = emitBufferedEvents (concat crlfChunks).
Proof.
  split; [reflexivity|]. apply (decodeChunks_whole crlfChunks). reflexivity.
Defined.

(** C2 fails on the code.  With the text cut after CR CR LF, the second
    call normalises the returned remainder once more and the frame loses the
    carriage return that the single call on the whole text keeps: the frames
    depend on where the chunks end. *)
Lemma decodeChunks_counterexample :
  fst (decodeChunks crChunks)
    = [ {| eventName := js "message"; eventData := js "a" |} ] /\
  fst (emitBufferedEvents (concat crChunks))
    = [ {| eventName := js "message"; eventData := js "a" ++ [13%N] |} ] /\
  ~ (forall chunks : list jsstring,
       fst (decodeChunks chunks) = fst (emitBufferedEvents (concat chunks))).
Proof.
  split; [reflexivity|]. split; [reflexivity|].
  intros H. specialize (H crChunks). discriminate H.
Qed.

End SseExamples.

(** ** The transport *)

Module TransportFacts.
Import Sse Transport TransportNotions.





(** A step delivers at most one callback. *)
Lemma step_one h i : (length (snd (step h i)) <= 1)%nat.
Proof. step_cases h i; simpl; lia. Qed.










(** [onError] ends [run]. *)
Lemma step_OnError_finished h i c :
  In c (snd (step h i)) -> isOnError c = true -> point (fst (step h i)) = Finished.
Proof.
  step_cases h i; simpl; intros Hin Herr; try contradiction;
    try reflexivity; destruct Hin as [<-|[]]; discriminate.
Qed.



Lemma filter_none {A} (P : A -> bool) l :
  Forall (fun c => P c = false) l -> filter P l = [].
Proof.
  induction 1 as [|x l Hx _ IH]; simpl; [reflexivity|]. now rewrite Hx.
Qed.





End TransportFacts.

Module TransportExamples.
Import Sse Transport TransportNotions TransportFacts Examples ExampleViews.

Example trace_readToEnd :
  snd (deliver opened readToEnd)
    = [OnOpen; OnEvent (frame "1"); OnEvent (frame "2"); OnClose].
Proof. reflexivity. Qed.

Example trace_failThenClose :
  snd (deliver opened failThenClose)
    = [OnError (js "Failed to fetch"); OnClose].
Proof. reflexivity. Qed.

Example trace_closeInsideOnEvent :
  snd (deliver opened closeInsideOnEvent)
    = [OnOpen; OnEvent (frame "1"); OnClose; OnEvent (frame "2")].
Proof. reflexivity. Qed.

Example trace_throwInsideOnClose :
  snd (deliver opened throwInsideOnClose)
    = [OnOpen; OnClose; OnError (js "render failed")].
Proof. reflexivity. Qed.

Example trace_closeThenThrow :
  snd (deliver opened closeThenThrow) = [OnOpen; OnEvent (frame "1"); OnClose].
Proof. reflexivity. Qed.



End TransportExamples.

(** ** The candidate line merger *)

Module MergerFacts.
Import Merger MergerNotions.

(** *** The map *)

Section JsMapFacts.
Context {V : Type}.
Implicit Types (m : @JsMap V) (k : jsstring) (v : V)
  (entries : list (jsstring * V)).

Lemma mapGet_In k v m : mapGet k m = Some v -> In (k, v) m.
Proof.
  induction m as [|[k' v'] m IH]; simpl; [discriminate|].
  destruct (jsstring_eqb k' k) eqn:E.
  - apply jsstring_eqb_eq in E. intros [= ->]. left. now subst.
  - intros H. right. now apply IH.
Qed.

Lemma In_mapGet k v m :
  NoDup (mapKeys m) -> In (k, v) m -> mapGet k m = Some v.
Proof.
  induction m as [|[k' v'] m IH]; simpl; [tauto|].
  intros Hnd [Heq|Hin]; inversion Hnd as [|? ? Hni Hnd']; subst.
  - injection Heq as -> ->. now rewrite jsstring_eqb_refl.
  - destruct (jsstring_eqb k' k) eqn:E.
    + apply jsstring_eqb_eq in E. subst. exfalso. apply Hni.
      change k with (fst (k, v)). now apply in_map.
    + now apply IH.
Qed.

Lemma mapGet_mapSet_eq k v m : mapGet k (mapSet k v m) = Some v.
Proof.
  induction m as [|[k' v'] m IH]; simpl.
  - now rewrite jsstring_eqb_refl.
  - destruct (jsstring_eqb k' k) eqn:E; simpl.
    + now rewrite jsstring_eqb_refl.
    + now rewrite E.
Qed.

Lemma mapGet_mapSet_ne k k' v m :
  k <> k' -> mapGet k' (mapSet k v m) = mapGet k' m.
Proof.
  intros Hne. induction m as [|[k0 v0] m IH]; simpl.
  - apply jsstring_eqb_neq in Hne. now rewrite Hne.
  - destruct (jsstring_eqb k0 k) eqn:E; simpl.
    + apply jsstring_eqb_eq in E. subst k0.
      apply jsstring_eqb_neq in Hne. now rewrite Hne.
    + destruct (jsstring_eqb k0 k'); [reflexivity|exact IH].
Qed.

Lemma mapKeys_mapSet k v m :
  mapKeys (mapSet k v m) =
    if in_dec jsstring_eq_dec k (mapKeys m) then mapKeys m
    else mapKeys m ++ [k].
Proof.
  induction m as [|[k' v'] m IH]; simpl; [reflexivity|].
  destruct (jsstring_eqb k' k) eqn:E.
  - apply jsstring_eqb_eq in E. subst k'. simpl.
    destruct (jsstring_eq_dec k k); [|congruence].
    reflexivity.
  - apply jsstring_eqb_neq in E. simpl. rewrite IH.
    destruct (jsstring_eq_dec k' k); [congruence|].
    destruct (in_dec jsstring_eq_dec k (mapKeys m)); reflexivity.
Qed.

Lemma NoDup_mapSet k v m : NoDup (mapKeys m) -> NoDup (mapKeys (mapSet k v m)).
Proof.
  intros H. rewrite mapKeys_mapSet.
  destruct (in_dec jsstring_eq_dec k (mapKeys m)) as [|Hni]; [exact H|].
  apply NoDup_app; [exact H|repeat constructor; simpl; tauto|].
  intros x Hx [<-|[]]. contradiction.
Qed.

Lemma NoDup_mapOfEntries_from entries : forall m,
  NoDup (mapKeys m) ->
  NoDup (mapKeys (fold_left (fun m e => mapSet (fst e) (snd e) m) entries m)).
Proof.
  induction entries as [|e entries IH]; intros m H; simpl; [exact H|].
  apply IH. now apply NoDup_mapSet.
Qed.

Lemma NoDup_mapOfEntries entries : NoDup (mapKeys (mapOfEntries entries)).
Proof. apply NoDup_mapOfEntries_from. constructor. Qed.

Lemma mapSet_fresh k v m : ~ In k (mapKeys m) -> mapSet k v m = m ++ [(k, v)].
Proof.
  induction m as [|[k' v'] m IH]; simpl; [reflexivity|].
  intros Hni. destruct (jsstring_eqb k' k) eqn:E.
  - apply jsstring_eqb_eq in E. tauto.
  - rewrite IH; tauto.
Qed.

Lemma mapOfEntries_NoDup_from entries : forall m,
  NoDup (mapKeys m ++ List.map fst entries) ->
  fold_left (fun m e => mapSet (fst e) (snd e) m) entries m = m ++ entries.
Proof.
  induction entries as [|[k v] entries IH]; intros m H; simpl.
  - now rewrite app_nil_r.
  - simpl in H. assert (Hni : ~ In k (mapKeys m)).
    { apply NoDup_remove_2 in H. intros Hin. apply H. apply in_or_app. tauto. }
    rewrite (mapSet_fresh _ _ _ Hni). rewrite IH.
    + now rewrite <- app_assoc.
    + unfold mapKeys. rewrite map_app. simpl. rewrite <- app_assoc. exact H.
Qed.

(** Building a map from entries with distinct keys keeps the entries. *)
Lemma mapOfEntries_NoDup entries :
  NoDup (List.map fst entries) -> mapOfEntries entries = entries.
Proof. intros H. apply (mapOfEntries_NoDup_from entries []). exact H. Qed.

Lemma In_mapSet k v m k' v' :
  In (k', v') (mapSet k v m) -> (k', v') = (k, v) \/ In (k', v') m.
Proof.
  induction m as [|[k0 v0] m IH]; simpl.
  - intros [H|[]]. now left.
  - destruct (jsstring_eqb k0 k) eqn:E.
    + intros [H|H]; [now left|right; now right].
    + intros [H|H]; [right; now left|].
      destruct (IH H); [now left|right; now right].
Qed.

Lemma In_mapSet_other k v m k' v' :
  k' <> k -> In (k', v') m -> In (k', v') (mapSet k v m).
Proof.
  intros Hne. induction m as [|[k0 v0] m IH]; simpl; [tauto|].
  destruct (jsstring_eqb k0 k) eqn:E.
  - apply jsstring_eqb_eq in E. subst k0.
    intros [[= <- <-]|H]; [congruence|now right].
  - intros [H|H]; [now left|right; now apply IH].
Qed.

Lemma In_mapOfEntries_from entries : forall m k v,
  In (k, v) (fold_left (fun m e => mapSet (fst e) (snd e) m) entries m) ->
  In (k, v) m \/ In (k, v) entries.
Proof.
  induction entries as [|[k0 v0] entries IH]; intros m k v; simpl; [tauto|].
  intros H. destruct (IH _ _ _ H) as [H1|H1]; [|tauto].
  destruct (In_mapSet _ _ _ _ _ H1) as [->|]; tauto.
Qed.

(** A [set] of a value outside [P] does not add values inside [P]. *)
Lemma filter_mapSet_le (P : V -> bool) k v m :
  P v = false ->
  (length (filter P (mapValues (mapSet k v m)))
     <= length (filter P (mapValues m)))%nat.
Proof.
  intros Hv. unfold mapValues.
  induction m as [|[k0 v0] m IH]; simpl.
  - now rewrite Hv.
  - destruct (jsstring_eqb k0 k); simpl.
    + rewrite Hv. destruct (P v0); simpl; lia.
    + destruct (P v0); simpl; lia.
Qed.

End JsMapFacts.

(** *** The sort *)

Section SortFacts.
Context {A : Type} (compare : A -> A -> Z) (le : A -> A -> Prop).
Hypothesis le_compare : forall x y, compare x y <= 0 -> le x y.
Hypothesis le_total : forall x y, ~ compare x y <= 0 -> le y x.
Hypothesis le_trans : forall x y z, le x y -> le y z -> le x z.

Lemma insertSorted_perm x l : Permutation (x :: l) (insertSorted compare x l).
Proof.
  induction l as [|y l IH]; simpl; [reflexivity|].
  destruct (compare x y <=? 0); [reflexivity|].
  rewrite perm_swap. now constructor.
Qed.

Lemma sortBy_perm l : Permutation l (sortBy compare l).
Proof.
  induction l as [|x l IH]; simpl; [constructor|].
  rewrite <- insertSorted_perm. now constructor.
Qed.

Lemma insertSorted_sorted x l :
  StronglySorted le l -> StronglySorted le (insertSorted compare x l).
Proof.
  induction 1 as [|y l Hs IH Hall]; simpl.
  - repeat constructor.
  - destruct (compare x y <=? 0) eqn:E.
    + apply Z.leb_le in E. constructor; [now constructor|].
      constructor; [now apply le_compare|].
      eapply Forall_impl; [|exact Hall]. intros z Hz.
      eapply le_trans; [|exact Hz]. now apply le_compare.
    + apply Z.leb_gt in E. constructor; [exact IH|].
      rewrite <- insertSorted_perm. constructor; [|exact Hall].
      apply le_total. lia.
Qed.

Lemma sortBy_sorted l : StronglySorted le (sortBy compare l).
Proof.
  induction l as [|x l IH]; simpl; [constructor|].
  now apply insertSorted_sorted.
Qed.
End SortFacts.

(** *** The merge *)

Lemma compareCandidates_le x y : compareCandidates x y <= 0 -> candidateLe x y.
Proof.
  unfold compareCandidates, candidateLe.
  destruct (depth y - depth x =? 0) eqn:E; simpl.
  - apply Z.eqb_eq in E. lia.
  - apply Z.eqb_neq in E. lia.
Qed.

Lemma compareCandidates_total x y :
  ~ compareCandidates x y <= 0 -> candidateLe y x.
Proof.
  unfold compareCandidates, candidateLe.
  destruct (depth y - depth x =? 0) eqn:E; simpl.
  - apply Z.eqb_eq in E. lia.
  - apply Z.eqb_neq in E. lia.
Qed.

Lemma candidateLe_trans x y z :
  candidateLe x y -> candidateLe y z -> candidateLe x z.
Proof. unfold candidateLe. lia. Qed.

Lemma sorted_candidates l :
  StronglySorted candidateLe (sortBy compareCandidates l).
Proof.
  exact (sortBy_sorted compareCandidates candidateLe compareCandidates_le
           compareCandidates_total candidateLe_trans l).
Qed.

Lemma keyed_values m : keyed m -> List.map branchUci (mapValues m) = mapKeys m.
Proof.
  unfold keyed, mapValues, mapKeys. induction m as [|[k v] m IH]; intros H; simpl.
  - reflexivity.
  - rewrite (H k v) by now left. f_equal. apply IH.
    intros k' v' Hin. apply H. now right.
Qed.

Lemma keyed_mapSet k v m : branchUci v = k -> keyed m -> keyed (mapSet k v m).
Proof.
  intros Hk Hm k' v' Hin.
  destruct (In_mapSet _ _ _ _ _ Hin) as [[= -> ->]|H]; [exact Hk|now apply Hm].
Qed.

Lemma wellKeyed_byBranchOf current : wellKeyed (byBranchOf current).
Proof.
  split; [apply NoDup_mapOfEntries|].
  intros k v Hin. unfold byBranchOf, mapOfEntries in Hin.
  apply In_mapOfEntries_from in Hin. destruct Hin as [[]|Hin].
  apply in_map_iff in Hin. destruct Hin as (l & [= <- <-] & _). reflexivity.
Qed.

Lemma wellKeyed_mergeLine D m line : wellKeyed m -> wellKeyed (mergeLine D m line).
Proof.
  intros [Hnd Hk]. unfold mergeLine.
  destruct (branchOfLine line) as [|c b] eqn:Hb; [now split|].
  assert (Hset : wellKeyed (mapSet (c :: b) (candidateOfLine D line) m)).
  { split; [now apply NoDup_mapSet|]. apply keyed_mapSet; [|exact Hk].
    simpl. exact Hb. }
  destruct (mapGet (c :: b) m) as [existing|]; [|exact Hset].
  destruct ((D >? depth existing)
            || ((D =? depth existing) && (rank line <? cand_rank existing)));
    [exact Hset|now split].
Qed.

Lemma wellKeyed_fold D lines : forall m,
  wellKeyed m -> wellKeyed (fold_left (mergeLine D) lines m).
Proof.
  induction lines as [|line lines IH]; intros m H; simpl; [exact H|].
  apply IH. now apply wellKeyed_mergeLine.
Qed.

Lemma wellKeyed_mergedMap current payload : wellKeyed (mergedMap current payload).
Proof. apply wellKeyed_fold, wellKeyed_byBranchOf. Qed.

Lemma merge_perm_values current payload e :
  In e (mergeCandidateStockfishLines current payload) ->
  In (branchUci e, e) (mergedMap current payload).
Proof.
  unfold mergeCandidateStockfishLines. intros H. apply In_firstn_In in H.
  apply (Permutation_in _ (Permutation_sym (sortBy_perm _ _))) in H.
  unfold mapValues in H. apply in_map_iff in H. destruct H as ([k v] & <- & Hin).
  simpl. destruct (wellKeyed_mergedMap current payload) as [_ Hk].
  now rewrite (Hk k v Hin).
Qed.

Lemma merge_length current payload :
  (length (mergeCandidateStockfishLines current payload) <= 10)%nat.
Proof. apply firstn_le_length. Qed.

Lemma merge_sorted current payload :
  StronglySorted candidateLe (mergeCandidateStockfishLines current payload).
Proof.
  apply StronglySorted_firstn.
  apply sorted_candidates.
Qed.

Lemma merge_NoDup current payload :
  NoDup (List.map branchUci (mergeCandidateStockfishLines current payload)).
Proof.
  unfold mergeCandidateStockfishLines. rewrite <- firstn_map.
  apply NoDup_firstn.
  destruct (wellKeyed_mergedMap current payload) as [Hnd Hk].
  eapply Permutation_NoDup.
  - apply Permutation_map. apply sortBy_perm.
  - now rewrite keyed_values.
Qed.

Lemma mergeLine_get D m line b e v :
  mapGet b m = Some v -> v = e \/ supersedes D e v ->
  exists v', mapGet b (mergeLine D m line) = Some v' /\
             (v' = e \/ supersedes D e v').
Proof.
  intros Hget Hv. unfold mergeLine.
  destruct (branchOfLine line) as [|c k] eqn:Hb; [eauto|].
  destruct (jsstring_eq_dec (c :: k) b) as [Heq|Hne].
  - rewrite Heq, Hget.
    destruct ((D >? depth v) || ((D =? depth v) && (rank line <? cand_rank v)))
      eqn:Hc; [|eauto].
    rewrite mapGet_mapSet_eq. eexists. split; [reflexivity|]. right.
    unfold supersedes in *. simpl.
    apply orb_true_iff in Hc.
    rewrite andb_true_iff, Z.gtb_lt, Z.eqb_eq, Z.ltb_lt in Hc.
    destruct Hv as [->|Hv]; lia.
  - assert (Hsame : forall c0, mapGet b (mapSet (c :: k) c0 m) = Some v)
      by (intros; now rewrite mapGet_mapSet_ne).
    destruct (mapGet (c :: k) m) as [existing|]; [|eauto].
    destruct ((D >? depth existing)
              || ((D =? depth existing) && (rank line <? cand_rank existing)));
      eauto.
Qed.

Lemma fold_mergeLine_get D lines b e : forall m v,
  mapGet b m = Some v -> v = e \/ supersedes D e v ->
  exists v', mapGet b (fold_left (mergeLine D) lines m) = Some v' /\
             (v' = e \/ supersedes D e v').
Proof.
  induction lines as [|line lines IH]; intros m v Hget Hv; simpl; [eauto|].
  destruct (mergeLine_get D m line b e v Hget Hv) as (v1 & Hget1 & Hv1).
  eapply IH; eassumption.
Qed.

(** An entry deeper than the report stays in the map, and the report adds
    no entry at its depth or deeper. *)
Lemma mergeLine_keeps D m line e :
  D < depth e -> wellKeyed m -> In (branchUci e, e) m ->
  In (branchUci e, e) (mergeLine D m line) /\
  (length (filter (notShallower e) (mapValues (mergeLine D m line)))
     <= length (filter (notShallower e) (mapValues m)))%nat.
Proof.
  intros HD [Hnd Hk] Hin. unfold mergeLine.
  destruct (branchOfLine line) as [|c k] eqn:Hb; [split; [exact Hin|lia]|].
  assert (Hcand : notShallower e (candidateOfLine D line) = false)
    by (apply Z.leb_gt; simpl; lia).
  assert (Hset : c :: k <> branchUci e ->
            In (branchUci e, e) (mapSet (c :: k) (candidateOfLine D line) m) /\
            (length (filter (notShallower e)
                       (mapValues (mapSet (c :: k) (candidateOfLine D line) m)))
             <= length (filter (notShallower e) (mapValues m)))%nat).
  { intros Hne. split; [apply In_mapSet_other; [congruence|exact Hin]|].
    apply (filter_mapSet_le (notShallower e)). exact Hcand. }
  destruct (mapGet (c :: k) m) as [existing|] eqn:Hget.
  - destruct ((D >? depth existing)
              || ((D =? depth existing) && (rank line <? cand_rank existing)))
      eqn:Hc; [|split; [exact Hin|lia]].
    apply Hset. intros Heq. rewrite Heq in Hget.
    rewrite (In_mapGet _ _ _ Hnd Hin) in Hget. injection Hget as <-.
    apply orb_true_iff in Hc.
    rewrite andb_true_iff, Z.gtb_lt, Z.eqb_eq in Hc. lia.
  - apply Hset. intros Heq. rewrite Heq in Hget.
    rewrite (In_mapGet _ _ _ Hnd Hin) in Hget. discriminate.
Qed.

Lemma fold_mergeLine_keeps D lines e : forall m,
  D < depth e -> wellKeyed m -> In (branchUci e, e) m ->
  In (branchUci e, e) (fold_left (mergeLine D) lines m) /\
  (length (filter (notShallower e)
             (mapValues (fold_left (mergeLine D) lines m)))
     <= length (filter (notShallower e) (mapValues m)))%nat.
Proof.
  induction lines as [|line lines IH]; intros m HD Hwf Hin; simpl;
    [split; [exact Hin|lia]|].
  destruct (mergeLine_keeps D m line e HD Hwf Hin) as [Hin1 Hlen1].
  destruct (IH _ HD (wellKeyed_mergeLine D m line Hwf) Hin1) as [Hin2 Hlen2].
  split; [exact Hin2|lia].
Qed.

Lemma merge_keeps_deeper cur payload e :
  NoDup (List.map branchUci cur) -> (length cur <= 10)%nat -> In e cur ->
  stockfishDepthOfEvent payload < depth e ->
  In e (mergeCandidateStockfishLines cur payload).
Proof.
  intros Hnd Hlen Hin HD.
  assert (Hm0 : byBranchOf cur = List.map (fun l => (branchUci l, l)) cur).
  { apply mapOfEntries_NoDup. rewrite map_map. exact Hnd. }
  assert (Hin0 : In (branchUci e, e) (byBranchOf cur)).
  { rewrite Hm0. apply in_map_iff. now exists e. }
  destruct (fold_mergeLine_keeps _ (payloadLines payload) e _ HD
              (wellKeyed_byBranchOf cur) Hin0) as [HinM HlenM].
  fold (mergedMap cur payload) in HinM, HlenM.
  unfold mergeCandidateStockfishLines.
  apply (In_firstn_sorted candidateLe (notShallower e)).
  - intros x Hx. apply Z.leb_le. unfold candidateLe in Hx. lia.
  - apply Z.leb_le. lia.
  - apply sorted_candidates.
  - apply (Permutation_in _ (sortBy_perm _ _)).
    unfold mapValues. apply in_map_iff. now exists (branchUci e, e).
  - rewrite <- (filter_length_perm _ _ _ (sortBy_perm compareCandidates _)).
    etransitivity; [exact HlenM|].
    etransitivity; [apply filter_length_le|].
    unfold mapValues. rewrite Hm0, !length_map. exact Hlen.
Qed.

(** C3. A candidate stored for a branch is replaced by a merge only by a
    line of the report whose depth is strictly greater, or equal with a
    strictly lower rank: whatever the result holds for that branch is the
    stored candidate or such a line.  And a candidate that a merge returned
    survives, unchanged and alone for its branch, the merge of any report of
    lower depth (in particular depth D - 1 after depth D). *)
Theorem merge_replaces_only_deeper_or_better :
  (forall (current : list CandidateStockfishLine) (payload : DepthLikeEvent)
          (branch : jsstring) (stored found : CandidateStockfishLine),
     mapGet branch (byBranchOf current) = Some stored ->
     In found (mergeCandidateStockfishLines current payload) ->
     branchUci found = branch ->
     found = stored \/
     (depth found = stockfishDepthOfEvent payload /\
      (depth stored < depth found \/
       (depth stored = depth found /\ cand_rank found < cand_rank stored)))) /\
  (forall (current : list CandidateStockfishLine) (report later : DepthLikeEvent)
          (entry : CandidateStockfishLine),
     In entry (mergeCandidateStockfishLines current report) ->
     stockfishDepthOfEvent later < depth entry ->
     let merged := mergeCandidateStockfishLines
                     (mergeCandidateStockfishLines current report) later in
     In entry merged /\
     forall e, In e merged -> branchUci e = branchUci entry -> e = entry).
Proof.
  split.
  - intros current payload branch stored found Hget Hin Hb.
    apply merge_perm_values in Hin. rewrite Hb in Hin.
    destruct (wellKeyed_mergedMap current payload) as [Hnd _].
    apply (In_mapGet _ _ _ Hnd) in Hin.
    destruct (fold_mergeLine_get (stockfishDepthOfEvent payload)
                (payloadLines payload) branch stored _ _ Hget (or_introl eq_refl))
      as (v' & Hget' & Hv').
    fold (mergedMap current payload) in Hget'.
    rewrite Hin in Hget'. injection Hget' as <-.
    destruct Hv' as [->|[Hd Hr]]; [now left|right]. lia.
  - intros current report later entry Hin HD merged.
    assert (Hin' : In entry merged).
    { apply merge_keeps_deeper; auto using merge_NoDup, merge_length. }
    split; [exact Hin'|].
    intros e He Hbe.
    pose proof (merge_NoDup (mergeCandidateStockfishLines current report) later)
      as Hnd. fold merged in Hnd.
    clear - He Hin' Hbe Hnd.
    induction merged as [|x l IH]; [destruct He|].
    simpl in Hnd. inversion Hnd as [|? ? Hni Hnd']; subst.
    destruct He as [->|He], Hin' as [->|Hin']; auto.
    + exfalso. apply Hni. rewrite Hbe. now apply in_map.
    + exfalso. apply Hni. rewrite <- Hbe. now apply in_map.
Qed.

(** C4. Whatever the candidates so far and however many reports are merged
    one after the other, the result has at most 10 entries and is sorted:
    every entry is at least as deep as all later ones and, at equal depth,
    of rank no higher. *)
Theorem merge_capped_and_sorted :
  forall (current : list CandidateStockfishLine) (payload : DepthLikeEvent)
         (more : list DepthLikeEvent),
    let result := fold_left mergeCandidateStockfishLines more
                    (mergeCandidateStockfishLines current payload) in
    (length result <= 10)%nat /\ StronglySorted candidateLe result.
Proof.
  intros current payload more. revert current payload.
  induction more as [|p more IH]; intros current payload; simpl.
  - split; [apply merge_length|apply merge_sorted].
  - apply IH.
Qed.

End MergerFacts.

Module MergerExamples.
Import Merger MergerNotions MergerFacts Examples ExampleViews.

Example merge_depth9 :
  summary (mergeCandidateStockfishLines [] reportDepth9) =
    [(js "e2e4", 9, 1, js "+0.31"); (js "d2d4", 9, 2, js "+0.29")].
Proof. reflexivity. Qed.

(** The depth-8 report leaves both depth-9 entries alone and adds its new
    branch behind them. *)
Example merge_depth9_then_depth8 :
  summary (mergeCandidateStockfishLines
             (mergeCandidateStockfishLines [] reportDepth9) reportDepth8) =
    [(js "e2e4", 9, 1, js "+0.31"); (js "d2d4", 9, 2, js "+0.29");
     (js "g1f3", 8, 3, js "+0.10")].
Proof. reflexivity. Qed.

Example merge_eleven_branches :
  length (mergeCandidateStockfishLines
            (mergeCandidateStockfishLines [] reportDepth9) elevenBranches) = 10%nat.
Proof. reflexivity. Qed.

Example formatEvalLabel_samples :
  formatEvalLabel (Some (-5)) None = js "-0.05" /\
  formatEvalLabel (Some 0) None = js "0.00" /\
  formatEvalLabel (Some 1234) None = js "+12.34" /\
  formatEvalLabel (Some 10) (Some (-3)) = js "M-3" /\
  formatEvalLabel None (Some 2) = js "M+2" /\
  formatEvalLabel None None = js "n/a".
Proof. repeat split. Qed.

(** Witness of C3: the branch e2e4 stored at depth 9, and the depth-8
    report. *)
Lemma merge_replaces_only_deeper_or_better_witness :
  let current := mergeCandidateStockfishLines [] reportDepth9 in
  (mapGet (js "e2e4") (byBranchOf current) = Some e2e4AtDepth9 /\
   In e2e4AtDepth9 (mergeCandidateStockfishLines current reportDepth8) /\
   branchUci e2e4AtDepth9 = js "e2e4" /\
   (e2e4AtDepth9 = e2e4AtDepth9 \/
    (depth e2e4AtDepth9 = stockfishDepthOfEvent reportDepth8 /\
     (depth e2e4AtDepth9 < depth e2e4AtDepth9 \/
      (depth e2e4AtDepth9 = depth e2e4AtDepth9 /\
       cand_rank e2e4AtDepth9 < cand_rank e2e4AtDepth9))))) /\
  (In e2e4AtDepth9 current /\
   stockfishDepthOfEvent reportDepth8 < depth e2e4AtDepth9 /\
   In e2e4AtDepth9 (mergeCandidateStockfishLines current reportDepth8)).
Proof.
  assert (Hget : mapGet (js "e2e4")
                   (byBranchOf (mergeCandidateStockfishLines [] reportDepth9))
                 = Some e2e4AtDepth9) by reflexivity.
  assert (Hin : In e2e4AtDepth9
                  (mergeCandidateStockfishLines
                     (mergeCandidateStockfishLines [] reportDepth9) reportDepth8))
    by (left; reflexivity).
  assert (Hcur : In e2e4AtDepth9 (mergeCandidateStockfishLines [] reportDepth9))
    by (left; reflexivity).
  assert (Hlt : stockfishDepthOfEvent reportDepth8 < depth e2e4AtDepth9)
    by (simpl; lia).
  destruct merge_replaces_only_deeper_or_better as [Hfirst Hsecond].
  split.
  - split; [exact Hget|]. split; [exact Hin|]. split; [reflexivity|].
    exact (Hfirst _ reportDepth8 (js "e2e4") _ _ Hget Hin eq_refl).
  - split; [exact Hcur|]. split; [exact Hlt|].
    exact (proj1 (Hsecond [] reportDepth9 reportDepth8 _ Hcur Hlt)).
Defined.

End MergerExamples.
(** ** The plan bullets *)

Module PlanFacts.
Import Json Commentary PlanNotions.

(** *** The separators of the split pattern *)

Lemma separatorAt_head s width :
  separatorAt s = Some width ->
  separatorHead s width /\ (1 <= width <= length s)%nat.
Proof.
  destruct s as [|c rest]; [discriminate|]. unfold separatorAt.
  destruct (c =? 10)%N eqn:E10.
  { apply N.eqb_eq in E10. subst c. intros [= <-].
    split; [apply sep_newline|simpl; lia]. }
  destruct (c =? 59)%N eqn:E59.
  { apply N.eqb_eq in E59. subst c. intros [= <-].
    split; [apply sep_semicolon|simpl; lia]. }
  destruct (startsWith bullet (c :: rest)) eqn:Eb.
  { intros [= <-]. pose proof (startsWith_length _ _ Eb) as Hlen.
    apply startsWith_iff in Eb. destruct Eb as [r ->].
    split; [apply sep_bullet|simpl in Hlen; simpl; lia]. }
  destruct rest as [|d [|e rest]]; try discriminate.
  destruct (isWhiteSpace c && (d =? 45)%N && isWhiteSpace e) eqn:Ed;
    [|discriminate].
  intros [= <-]. apply andb_true_iff in Ed. destruct Ed as [Ed He].
  apply andb_true_iff in Ed. destruct Ed as [Hc Hd].
  apply N.eqb_eq in Hd. subst d. apply N.eqb_neq in E10.
  split; [now apply sep_dash|simpl; lia].
Qed.


Lemma separatorHead_nonempty s width : separatorHead s width -> s <> [].
Proof. intros H. destruct H; discriminate. Qed.

Lemma separatorHead_at s width :
  separatorHead s width -> separatorAt s = Some width.
Proof.
  intros H. destruct H as [rest|rest|rest|a b rest Ha Hn Hb].
  - reflexivity.
  - reflexivity.
  - reflexivity.
  - unfold separatorAt. apply N.eqb_neq in Hn. rewrite Hn.
    destruct (a =? 59)%N eqn:E59.
    { apply N.eqb_eq in E59. subst a. discriminate Ha. }
    destruct (startsWith bullet (a :: 45%N :: b :: rest)) eqn:Eb.
    { apply startsWith_iff in Eb. destruct Eb as [r Hr].
      injection Hr as -> _. discriminate Ha. }
    now rewrite Ha, Hb.
Qed.

(** *** The split cuts the text at its separators *)

Lemma splitBulletsFrom_skip n : forall current s,
  (n <= length s)%nat ->
  splitBulletsFrom n current s = splitBulletsFrom 0 current (skipn n s).
Proof.
  induction n as [|n IH]; intros current s Hn; [reflexivity|].
  destruct s as [|c rest]; [simpl in Hn; lia|].
  simpl in Hn. cbn [splitBulletsFrom skipn]. apply IH. lia.
Qed.



Lemma splitBulletsFrom_free piece : forall current tail,
  separatorFreeUpTo (length piece) (piece ++ tail) ->
  splitBulletsFrom 0 current (piece ++ tail) =
  splitBulletsFrom 0 (rev piece ++ current) tail.
Proof.
  induction piece as [|c piece IH]; intros current tail Hfree; [reflexivity|].
  cbn [app splitBulletsFrom].
  destruct (separatorAt (c :: piece ++ tail)) as [width|] eqn:Es.
  - exfalso. apply (Hfree 0%nat width); [simpl; lia|].
    apply separatorAt_head in Es. exact (proj1 Es).
  - rewrite IH.
    + simpl. now rewrite <- app_assoc.
    + intros i width Hi. apply (Hfree (S i) width). simpl. lia.
Qed.

(** The pieces are those of the split, and no others. *)
Lemma cutsInto_splitBulletsFrom s pieces :
  cutsInto s pieces ->
  forall current,
    splitBulletsFrom 0 current s =
    match pieces with
    | piece :: others => (rev current ++ piece) :: others
    | [] => []
    end.
Proof.
  induction 1 as [text Hfree|piece tail width pieces Hfree Hhead Hcut IH];
    intros current.
  - rewrite <- (app_nil_r text) at 1.
    rewrite splitBulletsFrom_free by (now rewrite app_nil_r).
    cbn [splitBulletsFrom]. now rewrite rev_app_distr, rev_involutive.
  - rewrite splitBulletsFrom_free by exact Hfree.
    pose proof (separatorHead_at _ _ Hhead) as Hat.
    destruct (separatorAt_head _ _ Hat) as [_ [Hw1 Hw2]].
    destruct tail as [|c rest]; [discriminate Hat|].
    cbn [splitBulletsFrom]. rewrite Hat.
    rewrite rev_app_distr, rev_involutive. f_equal.
    destruct width as [|w]; [lia|].
    replace (S w - 1)%nat with w by lia.
    simpl in Hw2. rewrite splitBulletsFrom_skip by lia.
    cbn [skipn] in IH. rewrite (IH []).
    destruct pieces; reflexivity.
Qed.

Lemma cutsInto_splitBullets s pieces :
  cutsInto s pieces -> pieces = splitBullets s.
Proof.
  intros H. unfold splitBullets.
  rewrite (cutsInto_splitBulletsFrom s pieces H []).
  destruct H; reflexivity.
Qed.

(** *** The first two texts that are not blank *)


Lemma keepSome_entryTexts items :
  keepSome (List.map (fun v => asText (Some v)) items) =
  filter (fun entry => negb (isEmpty entry)) (List.map trim (entryTexts items)).
Proof.
  induction items as [|v items IH]; [reflexivity|].
  cbn [List.map keepSome entryTexts flat_map]. fold (entryTexts items).
  destruct v as [| | |s| |]; cbn [asText keepSome app]; try exact IH.
  cbn [List.map filter].
  destruct (trim s) as [|c t]; cbn [keepSome isEmpty negb]; [exact IH|].
  f_equal. exact IH.
Qed.


(** *** Fields that do not resolve *)





(** *** What resolves is what [asPlanBullets] returns *)

Lemma filter_blank (texts : list jsstring) :
  Forall (fun s => trim s = []) texts ->
  filter (fun entry => negb (isEmpty entry)) (List.map trim texts) = [].
Proof.
  induction 1 as [|x l Hx _ IH]; [reflexivity|].
  simpl. now rewrite Hx.
Qed.

Lemma filled_firstTwo (texts : list jsstring) b :
  firstTwoFilled texts b ->
  match firstn 2 (filter (fun entry => negb (isEmpty entry))
                    (List.map trim texts)) with
  | [first; second] => Some (first, second)
  | _ => None
  end = Some b.
Proof.
  intros (pre & s1 & mid & s2 & post & -> & Hpre & Hmid & H1 & H2 & ->).
  rewrite map_app, filter_app, filter_blank by exact Hpre.
  cbn [app List.map filter].
  destruct (trim s1) as [|c1 t1] eqn:E1; [congruence|].
  cbn [isEmpty negb].
  rewrite map_app, filter_app, filter_blank by exact Hmid.
  cbn [app List.map filter].
  destruct (trim s2) as [|c2 t2] eqn:E2; [congruence|].
  reflexivity.
Qed.

Lemma resolvesTo_asPlanBullets field b :
  resolvesTo field b -> asPlanBullets field = Some b.
Proof.
  destruct field as [[| | |s|items|members]|]; simpl; try contradiction.
  - intros (pieces & Hcut & Hb).
    apply cutsInto_splitBullets in Hcut. subst pieces.
    now apply filled_firstTwo.
  - intros Hb. unfold asPlanBullets. rewrite keepSome_entryTexts.
    now apply filled_firstTwo.
Qed.

End PlanFacts.

(** ** The commentary extractor *)

Module CommentaryFacts.
Import Json Commentary CommentaryNotions PlanNotions PlanFacts.

(** *** Fences *)

Lemma fenced_trimmed info J : trim (fenced info J) = fenced info J.
Proof.
  apply trim_id; [reflexivity|]. unfold fenced.
  rewrite !app_assoc. rewrite last_app_nonempty by discriminate. reflexivity.
Qed.

Lemma fenced_lines info J :
  ~ In 10%N info ->
  split 10 (fenced info J) = (fence ++ info) :: split 10 J ++ [fence].
Proof.
  intros Hinfo.
  assert (E : fenced info J = (fence ++ info) ++ 10%N :: (J ++ 10%N :: fence))
    by (unfold fenced; now rewrite app_assoc).
  rewrite E, !split_app_sep.
  rewrite split_none; [reflexivity|].
  intros Hin. apply in_app_or in Hin. destruct Hin as [Hin|Hin]; [|tauto].
  simpl in Hin. intuition discriminate.
Qed.

Lemma sanitize_fenced info J :
  ~ In 10%N info -> sanitizeCommentaryText (fenced info J) = trim J.
Proof.
  intros Hinfo. unfold sanitizeCommentaryText.
  rewrite fenced_trimmed.
  destruct (fenced info J) as [|c r] eqn:E; [discriminate|]. rewrite <- E.
  assert (Hs : startsWith fence (fenced info J) = true)
    by apply startsWith_app.
  rewrite Hs. simpl negb. cbv iota.
  rewrite (fenced_lines info J Hinfo).
  assert (Hlen : (3 <=? length ((fence ++ info) :: split 10 J ++ [fence]))%nat
                 = true).
  { apply Nat.leb_le. simpl. rewrite length_app. simpl.
    pose proof (split_nonempty 10 J). destruct (split 10 J); [tauto|simpl; lia]. }
  rewrite Hlen.
  assert (Hlast : last ((fence ++ info) :: split 10 J ++ [fence]) [] = fence).
  { change ((fence ++ info) :: split 10 J ++ [fence])
      with (((fence ++ info) :: split 10 J) ++ [fence]).
    apply last_last. }
  rewrite Hlast.
  assert (Hf : jsstring_eqb (trim fence) fence = true) by reflexivity.
  rewrite Hf. simpl andb. cbv iota. simpl tl. rewrite removelast_last.
  now rewrite join_split.
Qed.

Lemma stripFences_plain J : includes fence J = false -> stripFences J = trim J.
Proof.
  intros H. unfold stripFences.
  rewrite (replaceAll_none fenceJson);
    [|exact (includes_false_longer fence (js "json") J H)].
  now rewrite replaceAll_none.
Qed.

Lemma sanitize_plain J :
  includes fence J = false ->
  sanitizeCommentaryText J = match trim J with [] => J | _ => trim J end.
Proof.
  intros H. unfold sanitizeCommentaryText.
  destruct (trim J) as [|c r] eqn:E; [reflexivity|].
  rewrite stripFences_plain, E by exact H.
  destruct (startsWith fence (c :: r)) eqn:Es; [|reflexivity].
  apply startsWith_includes in Es. rewrite <- E in Es.
  now rewrite (includes_false_trim _ _ H) in Es.
Qed.

(** White space holds no candidate. *)
Lemma scanStep_space text index c st :
  isWhiteSpace c = true -> inString st = false -> scanStep text index c st = st.
Proof.
  intros Hc Hs. unfold scanStep. rewrite Hs.
  destruct (c =? 34)%N eqn:E1; [apply N.eqb_eq in E1; now subst|].
  destruct (c =? 123)%N eqn:E2; [apply N.eqb_eq in E2; now subst|].
  destruct (c =? 125)%N eqn:E3; [apply N.eqb_eq in E3; now subst|].
  reflexivity.
Qed.

Lemma scanLoop_space text rest : forall index st,
  Forall (fun c => isWhiteSpace c = true) rest -> inString st = false ->
  scanLoop text index rest st = st.
Proof.
  induction rest as [|c rest IH]; intros index st Hall Hs; [reflexivity|].
  inversion Hall; subst. simpl.
  rewrite scanStep_space by assumption. now apply IH.
Qed.

Lemma candidatesOf_space J :
  Forall (fun c => isWhiteSpace c = true) J -> trim J = [] -> candidatesOf J = [].
Proof.
  intros Hall Ht. unfold candidatesOf, extractJsonObjectCandidates.
  rewrite scanLoop_space by (auto; reflexivity). simpl.
  unfold pushCandidate, normalizeCandidate. rewrite Ht. reflexivity.
Qed.

(** C8 (as amended). For every text [J] that holds no triple backtick (so
    for every JSON commentary object whose strings hold none), the
    extractor returns the same on [J] inside a closed fence as on [J]
    itself. *)
Theorem fenced_same_as_plain :
  forall info J : jsstring,
    includes [10%N] info = false ->
    includes fence J = false ->
    parseCommentaryStructuredFromText (fenced info J)
      = parseCommentaryStructuredFromText J.
Proof.
  intros info J Hinfo HJ. unfold parseCommentaryStructuredFromText.
  rewrite (sanitize_fenced info J (includes_single _ _ Hinfo)).
  rewrite (sanitize_plain J HJ).
  destruct (trim J) as [|c r] eqn:E; [|reflexivity].
  destruct J as [|d J']; [reflexivity|].
  rewrite candidatesOf_space; [reflexivity| |exact E].
  now apply trim_nil_all_space.
Qed.

(** *** Strings and braces, as the scan sees them

    The scan for balanced objects, the lexer of [JSON.parse] and the
    clean-up steps of the extractor are compared through the automaton
    that tells the inside of a string from the outside. *)













(** *** The clean-up steps only erase *)






(** [repairCandidate] *)




(** [normalizeCandidate] *)




(** *** The scan for balanced objects *)




(** *** The lexer, as the scan sees it *)















(** *** The parser, as the scan sees it *)





Lemma parseStep_done v t : parseStep ([], CDone v) t = None.
Proof. reflexivity. Qed.








(** *** A truncated object *)









(** *** The extractor never throws *)


Lemma firstValid_Some candidates plan :
  firstValid candidates = Normal (Some plan) ->
  exists candidate,
    In candidate candidates /\ tryCandidate candidate = Normal (Some plan).
Proof.
  induction candidates as [|c candidates IH]; simpl; [discriminate|].
  destruct (tryCandidate c) as [[p|]|] eqn:E.
  - intros [= <-]. exists c. split; [now left|exact E].
  - intros H. destruct (IH H) as (x & Hx & Ht). exists x. split; [now right|exact Ht].
  - intros H. destruct (IH H) as (x & Hx & Ht). exists x. split; [now right|exact Ht].
Qed.

Lemma tryCandidate_Some candidate plan :
  tryCandidate candidate = Normal (Some plan) ->
  exists members, recordOf members = Some plan.
Proof.
  unfold tryCandidate.
  destruct (match JSON_parse candidate with
            | Normal v => Normal v
            | Throw => JSON_parse (repairCandidate candidate)
            end) as [v|]; [|discriminate].
  destruct v; simpl; try discriminate.
  intros [= H]. eauto.
Qed.





End CommentaryFacts.

Module CommentaryExamples.
Import Json Commentary CommentaryNotions PlanNotions PlanFacts CommentaryFacts.
Import Examples ExampleViews.

Example extract_samplePlan :
  parseCommentaryStructuredFromText samplePlan =
    Normal (Some
      {| position_plan_title := js "Open center";
         advantage_side := white;
         advantage_summary := js "White is ahead in development";
         best_move_san := js "e4";
         best_move_reason := js "It takes space";
         danger_to_watch := js "The pin on the knight";
         white_plan := (js "Develop", js "Castle");
         black_plan := (js "Trade queens", js "Equalize");
         concrete_ideas :=
           [ {| title := js "Try e4"; description := js "Central push";
                selected_line_id := js "L01";
                playback_pv_uci := [js "e2e4"; js "e7e5"] |} ] |}).
Proof. vm_compute. reflexivity. Qed.

(** The object is found inside prose, too. *)
Example extract_from_prose :
  parseCommentaryStructuredFromText
    (js "Here is the plan: " ++ samplePlan ++ js " Good luck {}")
  = parseCommentaryStructuredFromText samplePlan.
Proof. vm_compute. reflexivity. Qed.

Example extract_oneBulletPlan :
  parseCommentaryStructuredFromText oneBulletPlan = Normal None.
Proof. vm_compute. reflexivity. Qed.

(** [JSON.parse("null")] succeeds and the first property read throws; the
    loop swallows it. *)
Example extract_null :
  tryCandidate (js "null") = Throw /\
  parseCommentaryStructuredFromText (js "null") = Normal None.
Proof. split; reflexivity. Qed.

(** Plans given as strings: a semicolon and a dash between spaces separate
    the bullets. *)
Example string_plans_resolve :
  option_map (fun plan => (white_plan plan, black_plan plan))
    (recordOf (membersOf twoTextPlans))
    = Some ((js "Develop", js "Castle"), (js "Trade queens", js "Equalize")).
Proof. vm_compute. reflexivity. Qed.


(** Witness of the amended C8. *)
Lemma fenced_same_as_plain_witness :
  includes [10%N] (js "json") = false /\
  includes fence samplePlan = false /\
  parseCommentaryStructuredFromText (fenced (js "json") samplePlan)
    = parseCommentaryStructuredFromText samplePlan.
Proof.
  assert (H1 : includes [10%N] (js "json") = false) by reflexivity.
  assert (H2 : includes fence samplePlan = false) by (vm_compute; reflexivity).
  split; [exact H1|]. split; [exact H2|].
  exact (fenced_same_as_plain (js "json") samplePlan H1 H2).
Defined.

(** Counterexample to C8 as stated: [backtickPlan] is a valid commentary
    object; inside a fence its title keeps the triple backtick, on its own
    the clean-up strips it. *)
Lemma fenced_counterexample :
  titleOf (parseCommentaryStructuredFromText (fenced (js "json") backtickPlan))
    = Some (js "Open ```center") /\
  titleOf (parseCommentaryStructuredFromText backtickPlan)
    = Some (js "Open center") /\
  ~ (forall (J : jsstring) (members : list (jsstring * Json.value))
            (plan : CommentaryStructuredPlan),
       Json.parse J = Some (JObject members) ->
       recordOf members = Some plan ->
       parseCommentaryStructuredFromText (fenced (js "json") J)
         = parseCommentaryStructuredFromText J).
Proof.
  assert (H1 : titleOf (parseCommentaryStructuredFromText
                          (fenced (js "json") backtickPlan))
               = Some (js "Open ```center")) by (vm_compute; reflexivity).
  assert (H2 : titleOf (parseCommentaryStructuredFromText backtickPlan)
               = Some (js "Open center")) by (vm_compute; reflexivity).
  split; [exact H1|]. split; [exact H2|].
  intros H.
  destruct (recordOf (membersOf backtickPlan)) as [plan|] eqn:Er;
    [|vm_compute in Er; discriminate Er].
  assert (Hp : Json.parse backtickPlan = Some (JObject (membersOf backtickPlan)))
    by (vm_compute; reflexivity).
  rewrite (H backtickPlan _ plan Hp Er) in H1. rewrite H1 in H2.
  discriminate H2.
Qed.

End CommentaryExamples.
(** ** More on JavaScript strings *)

Module TextFacts.

Lemma last_rev_hd {A} (l : list A) d : last (rev l) d = hd d l.
Proof.
  destruct l as [|a l]; [reflexivity|]. simpl. apply last_last.
Qed.

Lemma trim_head s : isWhiteSpace (hd 0%N (trim s)) = false.
Proof.
  unfold trim, trimEnd.
  destruct (trimStart_suffix (rev (trimStart s))) as [pre Hpre].
  apply (f_equal (@rev N)) in Hpre. rewrite rev_involutive, rev_app_distr in Hpre.
  destruct (rev (trimStart (rev (trimStart s)))) as [|c y] eqn:E; [reflexivity|].
  destruct (trimStart_head s) as [H|H].
  - rewrite H in Hpre. discriminate.
  - rewrite Hpre in H. exact H.
Qed.

Lemma trim_last s : isWhiteSpace (last (trim s) 0%N) = false.
Proof.
  unfold trim, trimEnd. rewrite last_rev_hd.
  destruct (trimStart_head (rev (trimStart s))) as [H|H]; [|exact H].
  rewrite H. reflexivity.
Qed.

Lemma trim_trim s : trim (trim s) = trim s.
Proof. apply trim_id; [apply trim_head|apply trim_last]. Qed.

Lemma lowerUnit_idem c : lowerUnit (lowerUnit c) = lowerUnit c.
Proof.
  unfold lowerUnit.
  destruct ((65 <=? c) && (c <=? 90))%N eqn:E; [|now rewrite E].
  apply andb_true_iff in E. destruct E as [H1 H2].
  apply N.leb_le in H1, H2.
  destruct ((65 <=? c + 32) && (c + 32 <=? 90))%N eqn:E'; [|reflexivity].
  apply andb_true_iff in E'. destruct E' as [_ H3]. apply N.leb_le in H3. lia.
Qed.

Lemma toLowerCase_idem s : toLowerCase (toLowerCase s) = toLowerCase s.
Proof.
  unfold toLowerCase. rewrite map_map. apply map_ext. apply lowerUnit_idem.
Qed.

End TextFacts.
(** ** The states the reducer reaches *)

Module ArrowStateReachFacts.
Import ArrowState ArrowStateReach.

Lemma loggedFor_wellLogged sess log e :
  wellLogged log -> Forall (loggedFor sess) log -> wellLogged [e] ->
  wellLogged (log ++ [e]).
Proof.
  intros Hw Hl He. induction log as [|x log IH]; [exact He|].
  simpl in *. destruct Hw as [Hx Hw]. inversion Hl as [|? ? Hlx Hll]; subst.
  split; [|exact (IH Hw Hll)].
  destruct x; simpl in Hlx; try contradiction. exact Hx.
Qed.

Lemma loggedFor_withAnalysisId sess id log :
  (forall id', analysisId sess = Some id' -> id' = id) ->
  Forall (loggedFor sess) log ->
  Forall (loggedFor (withAnalysisId sess id)) log.
Proof.
  intros Hsome. apply Forall_impl. intros x Hx.
  destruct x; simpl in *; try contradiction.
  destruct Hx as [Hf Hid]. split; [exact Hf|].
  rewrite <- (Hsome _ Hid). reflexivity.
Qed.

(** The accepted case of [ingest]. *)
Lemma coherent_ingest now state sess payload :
  coherent state -> session state = Some sess ->
  coherent (ingest now state sess payload).
Proof.
  intros (Hlog & Hsnap & Hsess) Hs. rewrite Hs in Hsess.
  destruct Hsess as (Hst & Hfor & Hpin).
  unfold ingest.
  destruct payload as [u|c|e|t]; simpl.
  3:{ (* analysis_error *)
      repeat split; simpl; auto.
      apply (loggedFor_wellLogged sess); simpl; auto. }
  3:{ (* unknown type *)
      unfold coherent. rewrite Hs. auto. }
  - (* depth_update *)
    destruct (jsstring_eqb (du_fen u) (targetFen sess)) eqn:Hfen; simpl;
      [|unfold coherent; rewrite Hs; auto].
    apply jsstring_eqb_eq in Hfen.
    destruct (analysisId sess) as [id|] eqn:Hid.
    + destruct (jsstring_eqb (du_analysis_id u) id) eqn:Hsame; simpl;
        [|unfold coherent; rewrite Hs, Hid; auto].
      apply jsstring_eqb_eq in Hsame.
      unfold coherent; simpl. split; [|split; [|split; [|split]]].
      * apply (loggedFor_wellLogged sess); simpl; auto.
      * eexists _, _. split; [reflexivity|]. unfold shows; simpl. auto.
      * reflexivity.
      * apply Forall_app. split.
        -- apply loggedFor_withAnalysisId; auto.
           rewrite Hid. now intros ? [= <-].
        -- constructor; [|constructor]. simpl. rewrite Hsame. auto.
      * eexists. split; [reflexivity|]. simpl. auto.
    + destruct Hpin as [Hnosnap Hempty].
      unfold coherent; simpl. rewrite Hempty. simpl.
      split; [|split; [|split; [|split]]]; auto.
      * exists [], (trimPayload (dl_update u)
                      (trimLinesForStage (du_lines u) (du_depth u) sess)).
        split; [reflexivity|]. unfold shows; simpl. auto.
      * constructor; [|constructor]. simpl. auto.
      * eexists. split; [reflexivity|]. simpl. auto.
  - (* analysis_complete *)
    destruct (jsstring_eqb (ac_fen c) (targetFen sess)) eqn:Hfen; simpl;
      [|unfold coherent; rewrite Hs; auto].
    apply jsstring_eqb_eq in Hfen.
    destruct (analysisId sess) as [id|] eqn:Hid.
    + destruct (jsstring_eqb (ac_analysis_id c) id) eqn:Hsame; simpl;
        [|unfold coherent; rewrite Hs, Hid; auto].
      apply jsstring_eqb_eq in Hsame.
      unfold coherent; simpl. split; [|split]; auto.
      * apply (loggedFor_wellLogged sess); simpl; auto.
      * eexists _, _. split; [reflexivity|]. unfold shows; simpl. auto.
    + destruct Hpin as [Hnosnap Hempty].
      unfold coherent; simpl. rewrite Hempty. simpl.
      split; [|split]; auto.
      exists [], (trimPayload (dl_complete c)
                    (trimLinesForStage (ac_lines c) (ac_final_depth c) sess)).
      split; [reflexivity|]. unfold shows; simpl. auto.
Qed.

Lemma coherent_step now state action :
  coherent state -> coherent (analysisArrowReducer now state action).
Proof.
  intros H. destruct action as [t fen a b c d|t ns| |m|t p]; simpl.
  - unfold coherent; simpl. repeat split; auto.
  - destruct (session state) as [sess|] eqn:Hs; [|exact H].
    destruct (streamToken sess =? t); simpl; [|exact H].
    destruct H as (Hlog & Hsnap & _). unfold coherent; simpl. auto.
  - unfold coherent; simpl. repeat split; auto.
  - unfold coherent; simpl. repeat split; auto.
  - destruct (session state) as [sess|] eqn:Hs; [|exact H].
    destruct (streamToken sess =? t); simpl; [|exact H].
    now apply coherent_ingest.
Qed.

Lemma coherent_dispatchAll actions : forall state,
  coherent state -> coherent (dispatchAll state actions).
Proof.
  unfold dispatchAll. induction actions as [|a actions IH]; intros state H.
  - exact H.
  - simpl. apply IH. now apply coherent_step.
Qed.

Lemma coherent_reached actions : coherent (reached actions).
Proof.
  apply coherent_dispatchAll. unfold coherent; simpl. repeat split; auto.
Qed.

(** X1.  In every state the reducer reaches from the initial state, a live
    session goes with the status [streaming]. *)
Theorem live_session_is_streaming :
  forall (actions : list (Z * AnalysisArrowAction))
         (sess : AnalysisArrowSession),
    session (reached actions) = Some sess ->
    status (reached actions) = streaming.
Proof.
  intros actions sess Hs.
  destruct (coherent_reached actions) as (_ & _ & H).
  rewrite Hs in H. apply H.
Qed.

(** X2.  In every reached state the snapshot, when there is one, shows the
    last event of the log: that event is depth-like, and the snapshot has
    its position, analysis id and depth and one arrow for each of its
    lines, in their order. *)
Theorem snapshot_shows_last_event :
  forall (actions : list (Z * AnalysisArrowAction))
         (snap : AnalysisArrowSnapshot),
    snapshot (reached actions) = Some snap ->
    exists earlier e,
      events (reached actions) = earlier ++ [e] /\ shows snap e.
Proof.
  intros actions snap Hs.
  destruct (coherent_reached actions) as (_ & H & _).
  rewrite Hs in H. exact H.
Qed.

(** X3.  While a session is live, every logged event is a depth update for
    the session's position that carries the analysis id the session is
    pinned to; and as long as no id is pinned, the log is empty and there
    is no snapshot. *)
Theorem live_session_log :
  forall (actions : list (Z * AnalysisArrowAction))
         (sess : AnalysisArrowSession),
    session (reached actions) = Some sess ->
    Forall (loggedFor sess) (events (reached actions)) /\
    (analysisId sess = None ->
       events (reached actions) = [] /\ snapshot (reached actions) = None) /\
    (forall id, analysisId sess = Some id ->
       exists snap, snapshot (reached actions) = Some snap /\
                    snap_analysisId snap = id /\
                    snap_targetFen snap = targetFen sess).
Proof.
  intros actions sess Hs.
  destruct (coherent_reached actions) as (_ & _ & H).
  rewrite Hs in H. destruct H as (_ & Hfor & Hpin).
  split; [exact Hfor|].
  destruct (analysisId sess) as [id|].
  - split; [discriminate|]. now intros ? [= <-].
  - split; [tauto|discriminate].
Qed.

(** X4.  The event log of every reached state holds depth updates whose
    [multipv] is the number of their lines, followed by at most one
    [analysis_complete] or [analysis_error], which is then the last
    entry; it never holds an event of another type. *)
Theorem log_shape :
  forall actions : list (Z * AnalysisArrowAction),
    wellLogged (events (reached actions)).
Proof.
  intros actions. apply (coherent_reached actions).
Qed.

(** X5.  Once a depth update has been accepted, the session is pinned to
    its position and analysis id: a later depth-like event under the same
    token that is for another position or carries another analysis id
    leaves the state as it is. *)
Theorem accepted_update_pins_analysis :
  forall (now now' : Z) (state : AnalysisArrowState) (tok : Z)
         (u : StockfishDepthUpdateEvent) (sess : AnalysisArrowSession)
         (payload : StockfishStreamEvent) (dl : DepthLike),
    accepted state tok (depth_update u) sess (dl_update u) ->
    isDepthLikeEvent payload = Some dl ->
    fenOfEvent dl <> du_fen u \/ analysisIdOfEvent dl <> du_analysis_id u ->
    let state' :=
      analysisArrowReducer now state (ingest_stream_event tok (depth_update u)) in
    analysisArrowReducer now' state' (ingest_stream_event tok payload) = state'.
Proof.
  intros now now' state tok u sess payload dl (Hs & Ht & _ & Hf & Hid) Hdl Hne.
  simpl in Hf, Hid. cbn zeta. subst tok.
  assert (Hfen : jsstring_eqb (du_fen u) (targetFen sess) = true)
    by now apply jsstring_eqb_eq.
  assert (Hpin : match analysisId sess with
                 | Some id => negb (jsstring_eqb (du_analysis_id u) id)
                 | None => false
                 end = false).
  { destruct (analysisId sess) as [id|]; [|reflexivity].
    rewrite (Hid id eq_refl), jsstring_eqb_refl. reflexivity. }
  assert (Hpinned : match analysisId sess with
                    | Some id => id
                    | None => du_analysis_id u
                    end = du_analysis_id u).
  { destruct (analysisId sess) as [id|]; [|reflexivity].
    symmetry. exact (Hid id eq_refl). }
  simpl. rewrite Hs, Z.eqb_refl. simpl.
  rewrite Hfen, Hpin. simpl. rewrite Z.eqb_refl. simpl.
  rewrite Hpinned.
  assert (Hrej : negb (jsstring_eqb (fenOfEvent dl) (targetFen sess)) = true \/
                 jsstring_eqb (analysisIdOfEvent dl) (du_analysis_id u) = false).
  { destruct Hne as [Hne|Hne].
    - left. apply negb_true_iff, jsstring_eqb_neq. now rewrite <- Hf.
    - right. now apply jsstring_eqb_neq. }
  unfold ingest.
  destruct payload as [u'|c'|e'|t']; simpl in Hdl; try discriminate;
    injection Hdl as <-; simpl in *;
    destruct Hrej as [-> | Hrej]; try reflexivity;
    rewrite Hrej; simpl;
    destruct (negb (jsstring_eqb _ (targetFen sess))); reflexivity.
Qed.

End ArrowStateReachFacts.
Module ArrowStateReachExamples.
Import ArrowState ArrowStateReach ArrowStateReachFacts Examples Runs.

(** After a start and two reports the session is live and pinned to the
    run of the first report. *)
Example reached_twoReports :
  session (reached twoReports) = Some pinnedSession /\
  List.map isDepthLikeEvent (events (reached twoReports)) =
    [Some (dl_update (depth8 fiveLines));
     Some (dl_update (mkDepthUpdate "run-1" STARTING_FEN 9 unsortedLines))].
Proof. split; reflexivity. Qed.

(** Witness of X1. *)
Lemma live_session_is_streaming_witness :
  session (reached twoReports) = Some pinnedSession /\
  status (reached twoReports) = streaming.
Proof.
  split; [reflexivity|].
  exact (live_session_is_streaming twoReports pinnedSession eq_refl).
Defined.

(** Witness of X2. *)
Lemma snapshot_shows_last_event_witness :
  exists snap,
    snapshot (reached twoReports) = Some snap /\
    exists earlier e,
      events (reached twoReports) = earlier ++ [e] /\ shows snap e.
Proof.
  eexists. split; [reflexivity|].
  exact (snapshot_shows_last_event twoReports _ eq_refl).
Defined.

(** Witness of X3. *)
Lemma live_session_log_witness :
  session (reached twoReports) = Some pinnedSession /\
  Forall (loggedFor pinnedSession) (events (reached twoReports)).
Proof.
  split; [reflexivity|].
  exact (proj1 (live_session_log twoReports pinnedSession eq_refl)).
Defined.

(** Witness of X5: a report of another run after the first accepted one. *)
Lemma accepted_update_pins_analysis_witness :
  let state' :=
    analysisArrowReducer 7 (startedState 1)
      (ingest_stream_event 1 (depth_update (depth8 fiveLines))) in
  analysisArrowReducer 9 state'
    (ingest_stream_event 1 (depth_update otherRun)) = state'.
Proof.
  refine (accepted_update_pins_analysis 7 9 (startedState 1) 1
            (depth8 fiveLines) (startedSession 1) (depth_update otherRun)
            (dl_update otherRun) _ eq_refl _).
  - repeat split. intros id H. discriminate H.
  - right. simpl. intros H. discriminate H.
Defined.

End ArrowStateReachExamples.
(** ** More on the frame decoder *)

Module SseFrameFacts.
Import Sse SseNotions SseFacts SseFrameNotions TextFacts.

Lemma split_join sep lines :
  lines <> [] -> Forall (fun l => ~ In sep l) lines ->
  split sep (join [sep] lines) = lines.
Proof.
  intros Hne Hfree. induction Hfree as [|l lines Hl Hfree IH]; [contradiction|].
  destruct lines as [|l2 lines].
  - simpl. now apply split_none.
  - change (join [sep] (l :: l2 :: lines))
      with (l ++ sep :: join [sep] (l2 :: lines)).
    rewrite split_app_sep, (split_none _ _ Hl), IH by discriminate.
    reflexivity.
Qed.

Lemma parseSseEventBlock_lines lines :
  Forall (fun l => ~ In 10%N l) lines ->
  parseSseEventBlock (join LF lines) =
    frameOf (fold_left parseLine lines (js "message", [])).
Proof.
  intros Hfree. unfold parseSseEventBlock, frameOf.
  destruct lines as [|l lines].
  - reflexivity.
  - unfold LF. rewrite split_join by (discriminate || assumption).
    destruct (fold_left parseLine (l :: lines) (js "message", []))
      as [name [|d ds]]; reflexivity.
Qed.

Lemma parseLine_other acc line :
  startsWith (js "event:") line = false ->
  startsWith (js "data:") line = false ->
  parseLine acc line = acc.
Proof.
  intros He Hd. unfold parseLine. destruct acc as [name dataLines].
  destruct line as [|c line]; [reflexivity|].
  rewrite He, Hd. destruct (startsWith (js ":") (c :: line)); reflexivity.
Qed.

Lemma parseLine_data name dataLines value :
  parseLine (name, dataLines) (js "data: " ++ value) =
    (name, dataLines ++ [value]).
Proof. reflexivity. Qed.

Lemma parseLine_event name dataLines value :
  trim value <> [] ->
  parseLine (name, dataLines) (js "event:" ++ value) = (trim value, dataLines).
Proof.
  intros H. unfold parseLine.
  change (js "event:" ++ value)
    with (101 :: 118 :: 101 :: 110 :: 116 :: 58 :: value)%N.
  change (startsWith (js ":") (101 :: 118 :: 101 :: 110 :: 116 :: 58 :: value)%N)
    with false.
  change (101 :: 118 :: 101 :: 110 :: 116 :: 58 :: value)%N
    with (js "event:" ++ value).
  rewrite startsWith_app. cbv iota.
  change (skipn 6 (js "event:" ++ value)) with value.
  destruct (trim value); [contradiction|reflexivity].
Qed.

Lemma fold_data_lines name values : forall dataLines,
  fold_left parseLine (List.map (fun l => js "data: " ++ l) values)
    (name, dataLines) = (name, dataLines ++ values).
Proof.
  induction values as [|v values IH]; intros dataLines;
    cbn [List.map fold_left].
  - now rewrite app_nil_r.
  - rewrite parseLine_data, IH, <- app_assoc. reflexivity.
Qed.

(** Where the first blank line stands in a text put together from lines. *)
Lemma indexOf_blankLine_free l y :
  ~ In 10%N l ->
  indexOf blankLine (l ++ y) =
    option_map (Nat.add (length l)) (indexOf blankLine y).
Proof.
  intros Hl. induction l as [|c l IH]; simpl app.
  - destruct (indexOf blankLine y); reflexivity.
  - assert (Hc : (c =? 10)%N = false).
    { apply N.eqb_neq. intros ->. apply Hl. now left. }
    cbn [indexOf]. unfold blankLine at 1. cbn [startsWith]. rewrite Hc. cbn [andb].
    rewrite IH by (intros H; apply Hl; now right).
    destruct (indexOf blankLine y); reflexivity.
Qed.

Lemma indexOf_blankLine_LF c s :
  (c =? 10)%N = false ->
  indexOf blankLine (10%N :: c :: s) =
    option_map S (indexOf blankLine (c :: s)).
Proof.
  intros Hc.
  change (indexOf blankLine (10%N :: c :: s))
    with (if startsWith blankLine (10%N :: c :: s) then Some 0%nat
          else option_map S (indexOf blankLine (c :: s))).
  unfold blankLine at 1. cbn [startsWith]. rewrite Hc. reflexivity.
Qed.

Lemma indexOf_blankLine_lines lines : forall y,
  lines <> [] ->
  Forall (fun l => ~ In 10%N l /\ l <> []) lines ->
  indexOf blankLine (join LF lines ++ blankLine ++ y)
    = Some (length (join LF lines)).
Proof.
  induction lines as [|l lines IH]; intros y Hne Hall; [contradiction|].
  inversion Hall as [|? ? [Hl Hl0] Hall']; subst.
  destruct lines as [|l2 lines].
  - simpl join. rewrite indexOf_blankLine_free by exact Hl.
    simpl. now rewrite Nat.add_0_r.
  - change (join LF (l :: l2 :: lines))
      with (l ++ LF ++ join LF (l2 :: lines)).
    rewrite <- !app_assoc. rewrite indexOf_blankLine_free by exact Hl.
    specialize (IH y ltac:(discriminate) Hall').
    inversion Hall' as [|? ? [Hl2 Hl20] _]; subst.
    destruct l2 as [|c l2]; [contradiction|].
    assert (Hc : (c =? 10)%N = false).
    { apply N.eqb_neq. intros ->. apply Hl2. now left. }
    assert (Hj : exists rest, join LF ((c :: l2) :: lines) = c :: rest).
    { destruct lines; simpl; eauto. }
    destruct Hj as [rest Hj]. rewrite Hj in *.
    unfold LF at 1. cbn [app].
    rewrite indexOf_blankLine_LF by exact Hc.
    change (c :: rest ++ blankLine ++ y) with ((c :: rest) ++ blankLine ++ y).
    rewrite IH. cbn [option_map]. f_equal.
    rewrite !length_app. simpl. lia.
Qed.

(** X6.  What [emitBufferedEvents] returns holds no blank line any more,
    and it is the end of the buffer with its line ends normalised: every
    complete block has been taken off the front. *)
Theorem remainder_holds_no_block :
  forall buffer : jsstring,
    let remainder := snd (emitBufferedEvents buffer) in
    indexOf blankLine remainder = None /\
    exists consumed, replaceAll CRLF LF buffer = consumed ++ remainder.
Proof.
  intros buffer. cbn zeta. rewrite emitBufferedEvents_eq.
  exact (splitFrames_remainder _ (normalize buffer) (le_n _)).
Qed.

(** X7.  A line of a block that starts with neither [event:] nor [data:]
    (an empty line, a comment, a field such as [id:] or [retry:]) is
    ignored: the block yields the same frame with or without it. *)
Theorem other_lines_are_ignored :
  forall (before after : list jsstring) (line : jsstring),
    startsWith (js "event:") line = false ->
    startsWith (js "data:") line = false ->
    ~ In 10%N line ->
    Forall (fun l => ~ In 10%N l) before ->
    Forall (fun l => ~ In 10%N l) after ->
    parseSseEventBlock (join LF (before ++ line :: after)) =
      parseSseEventBlock (join LF (before ++ after)).
Proof.
  intros before after line He Hd Hl Hb Ha.
  rewrite !parseSseEventBlock_lines.
  - rewrite !fold_left_app. simpl fold_left.
    now rewrite parseLine_other.
  - apply Forall_app. now split.
  - apply Forall_app. split; [exact Hb|]. now constructor.
Qed.

(** X8.  Round trip of a frame.  A block with an [event:] line and the data
    sent as one [data: ] line for each of its lines, closed by a blank
    line, is decoded to exactly one frame, with the trimmed event name and
    the data as it was, and nothing is left in the buffer. *)
Theorem frame_round_trip :
  forall name data : jsstring,
    trim name <> [] -> ~ In 10%N name -> ~ In 13%N name -> ~ In 13%N data ->
    emitBufferedEvents
      (join LF ((js "event:" ++ name)
                  :: List.map (fun l => js "data: " ++ l) (split 10 data))
         ++ blankLine)
    = ([{| eventName := trim name; eventData := data |}], []).
Proof.
  intros name data Hname Hlf Hcr Hdata.
  set (lines := (js "event:" ++ name)
                  :: List.map (fun l => js "data: " ++ l) (split 10 data)).
  assert (Hparts : Forall (fun l => ~ In 10%N l) (split 10 data)).
  { clear. induction data as [|c data IH]; simpl.
    - constructor; [tauto|constructor].
    - destruct (N.eqb_spec c 10).
      + constructor; [tauto|exact IH].
      + pose proof (split_nonempty 10 data) as Hne.
        destruct (split 10 data) as [|first others]; [contradiction|].
        inversion IH; subst. constructor; [|assumption].
        intros [->|H]; [now apply n|contradiction]. }
  assert (Hfree : Forall (fun l => ~ In 10%N l /\ l <> []) lines).
  { constructor.
    - split; [|discriminate].
      intros H. apply in_app_or in H. destruct H as [H|H]; [|contradiction].
      vm_compute in H. intuition discriminate.
    - apply Forall_map. eapply Forall_impl; [|exact Hparts].
      intros l Hl. split; [|discriminate].
      intros H. apply in_app_or in H. destruct H as [H|H]; [|contradiction].
      vm_compute in H. intuition discriminate. }
  assert (Hfree' : Forall (fun l => ~ In 10%N l) lines)
    by (eapply Forall_impl; [|exact Hfree]; now intros l [H _]).
  assert (Hcrfree : ~ In 13%N (join LF lines ++ blankLine)).
  { intros H. apply in_app_or in H. destruct H as [H|H];
      [|vm_compute in H; intuition discriminate].
    assert (Hall : Forall (fun l => ~ In 13%N l) lines).
    { constructor.
      - intros H1. apply in_app_or in H1. destruct H1 as [H1|H1];
          [vm_compute in H1; intuition discriminate|contradiction].
      - apply Forall_map. apply Forall_forall. intros l Hin H1.
        apply in_app_or in H1. destruct H1 as [H1|H1];
          [vm_compute in H1; intuition discriminate|].
        apply Hdata. rewrite <- (join_split 10 data).
        clear - Hin H1. induction (split 10 data) as [|p ps IH]; [contradiction|].
        destruct ps as [|p2 ps].
        + destruct Hin as [->|[]]. exact H1.
        + change (join [10%N] (p :: p2 :: ps))
            with (p ++ [10%N] ++ join [10%N] (p2 :: ps)).
          destruct Hin as [->|Hin].
          * apply in_or_app. now left.
          * apply in_or_app. right. apply in_or_app. right. now apply IH. }
    clear - H Hall. induction Hall as [|l ls Hl Hall IH]; [contradiction|].
    destruct ls as [|l2 ls].
    - contradiction.
    - change (join LF (l :: l2 :: ls)) with (l ++ LF ++ join LF (l2 :: ls)) in H.
      apply in_app_or in H. destruct H as [H|H]; [contradiction|].
      apply in_app_or in H. destruct H as [H|H];
        [vm_compute in H; intuition discriminate|now apply IH]. }
  rewrite emitBufferedEvents_eq.
  rewrite normalize_id.
  2:{ destruct (includes CRLF (join LF lines ++ blankLine)) eqn:E; [|reflexivity].
      exfalso. apply Hcrfree. unfold includes in E.
      destruct (indexOf CRLF (join LF lines ++ blankLine)) as [i|] eqn:Ei;
        [|discriminate].
      apply indexOf_Some in Ei. rewrite Ei.
      apply in_or_app. right. now left. }
  rewrite splitFrames_eq.
  pose proof (indexOf_blankLine_lines lines [] ltac:(discriminate) Hfree) as Hi.
  rewrite app_nil_r in Hi. rewrite Hi.
  rewrite firstn_app, firstn_all, Nat.sub_diag, app_nil_r.
  replace (skipn (length (join LF lines) + 2) (join LF lines ++ blankLine))
    with (@nil N).
  2:{ symmetry. apply skipn_all2. rewrite length_app. simpl. lia. }
  unfold emitBlock. rewrite parseSseEventBlock_lines by exact Hfree'.
  unfold lines. cbn [fold_left].
  rewrite parseLine_event by exact Hname.
  rewrite fold_data_lines. unfold frameOf. cbn [fst snd app].
  pose proof (split_nonempty 10 data) as Hne.
  destruct (split 10 data) as [|p ps] eqn:Es; [contradiction|].
  rewrite <- Es. unfold LF. rewrite join_split. reflexivity.
Qed.

Lemma normalize_CR_free s : ~ In 13%N s -> normalize s = s.
Proof.
  intros H. induction s as [|c s IH]; [reflexivity|].
  rewrite normalize_other.
  - rewrite IH; [reflexivity|]. intros Hin. apply H. now right.
  - destruct (N.eqb_spec c 13) as [->|]; [|reflexivity].
    exfalso. apply H. now left.
Qed.

Lemma normalize_CRLF_ends s :
  ~ In 13%N s -> normalize (replaceAll LF CRLF s) = s.
Proof.
  intros H. induction s as [|c s IH]; [reflexivity|].
  assert (Hs : ~ In 13%N s) by (intros Hin; apply H; now right).
  destruct (N.eqb_spec c 10) as [->|Hc].
  - rewrite replaceAll_match by (discriminate || reflexivity).
    change (CRLF ++ replaceAll LF CRLF (skipn (length LF) (10%N :: s)))
      with (13%N :: 10%N :: replaceAll LF CRLF s).
    rewrite normalize_crlf, IH by exact Hs. reflexivity.
  - rewrite replaceAll_step.
    + rewrite normalize_other.
      * rewrite IH by exact Hs. reflexivity.
      * destruct (N.eqb_spec c 13) as [->|]; [|reflexivity].
        exfalso. apply H. now left.
    + unfold LF. cbn [startsWith]. apply N.eqb_neq in Hc. now rewrite Hc.
Qed.

(** X9.  Line ends.  A text without carriage returns decodes the same
    whether its lines end in LF or, each LF replaced, in CR LF. *)
Theorem crlf_line_ends_decode_alike :
  forall text : jsstring,
    ~ In 13%N text ->
    emitBufferedEvents (replaceAll LF CRLF text) = emitBufferedEvents text.
Proof.
  intros text H. rewrite !emitBufferedEvents_eq.
  now rewrite normalize_CRLF_ends, normalize_CR_free.
Qed.

(** *** Event names *)

Lemma parseLine_name acc line :
  (fst acc <> [] /\ trim (fst acc) = fst acc) ->
  fst (parseLine acc line) <> [] /\
  trim (fst (parseLine acc line)) = fst (parseLine acc line).
Proof.
  intros H. unfold parseLine. destruct acc as [name dataLines].
  destruct line as [|c line]; [exact H|].
  destruct (startsWith (js ":") (c :: line)); [exact H|].
  destruct (startsWith (js "event:") (c :: line)).
  - cbn [fst]. destruct (trim (skipn 6 (c :: line))) as [|d value] eqn:E.
    + split; [discriminate|reflexivity].
    + split; [discriminate|]. rewrite <- E. apply trim_trim.
  - destruct (startsWith (js "data:") (c :: line)); exact H.
Qed.

Lemma parseSseEventBlock_named block frame :
  parseSseEventBlock block = Some frame -> named frame.
Proof.
  unfold parseSseEventBlock.
  assert (H : forall lines acc,
            (fst acc <> [] /\ trim (fst acc) = fst acc) ->
            fst (fold_left parseLine lines acc) <> [] /\
            trim (fst (fold_left parseLine lines acc))
              = fst (fold_left parseLine lines acc)).
  { induction lines as [|l lines IH]; intros acc Hacc; simpl; [exact Hacc|].
    apply IH. now apply parseLine_name. }
  assert (Hmessage : fst (js "message", @nil jsstring) <> [] /\
                     trim (fst (js "message", @nil jsstring))
                       = fst (js "message", @nil jsstring))
    by (split; [discriminate|vm_compute; reflexivity]).
  specialize (H (split 10 block) (js "message", []) Hmessage).
  destruct (fold_left parseLine (split 10 block) (js "message", []))
    as [name [|d ds]]; [discriminate|].
  intros [= <-]. exact H.
Qed.

Lemma emitLoop_named fuel : forall working,
  Forall named (fst (emitLoop fuel working)).
Proof.
  induction fuel as [|fuel IH]; intros working; [constructor|].
  rewrite emitLoop_S.
  destruct (indexOf blankLine working) as [i|]; [|constructor].
  specialize (IH (skipn (i + 2) working)).
  destruct (emitLoop fuel (skipn (i + 2) working)) as [emitted remainder].
  cbn [fst] in *.
  destruct (parseSseEventBlock (firstn i working)) as [frame|] eqn:E;
    [|exact IH].
  constructor; [exact (parseSseEventBlock_named _ _ E)|exact IH].
Qed.

(** X30.  Every frame that the decoder emits has an event name: the name
    is never empty ([message] when the block gives none, or a blank one)
    and has no white space at its ends; this holds of the frames of a
    buffer and of those of a stream fed chunk by chunk. *)
Theorem emitted_frames_are_named :
  (forall buffer : jsstring, Forall named (fst (emitBufferedEvents buffer))) /\
  (forall chunks : list jsstring, Forall named (fst (decodeChunks chunks))).
Proof.
  assert (H : forall buffer, Forall named (fst (emitBufferedEvents buffer)))
    by (intros buffer; apply emitLoop_named).
  split; [exact H|].
  intros chunks. unfold decodeChunks.
  assert (Hfold : forall st,
            Forall named (fst st) ->
            Forall named (fst (fold_left feedChunk chunks st))).
  { induction chunks as [|chunk chunks IH]; intros st Hst; simpl; [exact Hst|].
    apply IH. unfold feedChunk. specialize (H (snd st ++ chunk)).
    destruct (emitBufferedEvents (snd st ++ chunk)) as [emitted remainder].
    cbn [fst] in *. apply Forall_app. now split. }
  apply Hfold. constructor.
Qed.

End SseFrameFacts.
Module SseFrameExamples.
Import Sse SseNotions SseFrameFacts Examples Frames ListTactics.

(** Witness of X7. *)
Lemma other_lines_are_ignored_witness :
  parseSseEventBlock (join LF ([js "data: 1"] ++ keepAlive :: [js "data: 2"])) =
    parseSseEventBlock (join LF ([js "data: 1"] ++ [js "data: 2"])).
Proof.
  apply other_lines_are_ignored.
  - reflexivity.
  - reflexivity.
  - not_in.
  - constructor; [not_in|constructor].
  - constructor; [not_in|constructor].
Defined.

(** Witness of X8. *)
Lemma frame_round_trip_witness :
  emitBufferedEvents
    (join LF ((js "event:" ++ depthName)
                :: List.map (fun l => js "data: " ++ l) (split 10 twoLineData))
       ++ blankLine)
  = ([{| eventName := js "depth"; eventData := twoLineData |}], []).
Proof.
  apply (frame_round_trip depthName twoLineData).
  - vm_compute. discriminate.
  - not_in.
  - not_in.
  - not_in.
Defined.

(** Witness of X9. *)
Lemma crlf_line_ends_decode_alike_witness :
  emitBufferedEvents (replaceAll LF CRLF twoFrames) = emitBufferedEvents twoFrames.
Proof.
  apply crlf_line_ends_decode_alike. not_in.
Defined.

End SseFrameExamples.
(** ** More on the transport *)

Module TransportRunFacts.
Import Sse Transport TransportNotions TransportFacts TransportRuns.

Lemma step_neverOpens h i :
  neverOpens h ->
  neverOpens (fst (step h i)) /\
  Forall (fun c => isQuietCallback c = true) (snd (step h i)).
Proof.
  unfold neverOpens. step_cases h i; intros H; simpl in *;
    try contradiction; try destruct (trim _); simpl;
    repeat constructor.
Qed.

Lemma deliver_neverOpens inputs : forall h,
  neverOpens h ->
  Forall (fun c => isQuietCallback c = true) (snd (deliver h inputs)).
Proof.
  induction inputs as [|i inputs IH]; intros h H; simpl; [constructor|].
  destruct (step_neverOpens h i H) as [H1 H2].
  destruct (step h i) as [h' now]. specialize (IH h' H1).
  destruct (deliver h' inputs) as [h'' later]. simpl in *.
  apply Forall_app. now split.
Qed.

Lemma step_opened h i :
  point h <> AwaitFetch ->
  point (fst (step h i)) <> AwaitFetch /\
  Forall (fun c => isOnOpen c = false) (snd (step h i)).
Proof.
  step_cases h i; intros H; simpl in *;
    try (exfalso; apply H; reflexivity); try destruct (trim _); simpl;
    (split; [discriminate|repeat constructor]).
Qed.

Lemma deliver_opened inputs : forall h,
  point h <> AwaitFetch ->
  Forall (fun c => isOnOpen c = false) (snd (deliver h inputs)).
Proof.
  induction inputs as [|i inputs IH]; intros h H; simpl; [constructor|].
  destruct (step_opened h i H) as [H1 H2].
  destruct (step h i) as [h' now]. specialize (IH h' H1).
  destruct (deliver h' inputs) as [h'' later]. simpl in *.
  apply Forall_app. now split.
Qed.

(** What a step does while the request is under way. *)
Lemma step_AwaitFetch h i :
  point h = AwaitFetch ->
  (point (fst (step h i)) = AwaitFetch /\
   Forall (fun c => isQuietCallback c = true) (snd (step h i))) \/
  (neverOpens (fst (step h i)) /\
   Forall (fun c => isQuietCallback c = true) (snd (step h i))) \/
  (point (fst (step h i)) = AfterOpen /\ snd (step h i) = [OnOpen]).
Proof.
  unfold neverOpens. step_cases h i; intros H; simpl in *; try discriminate;
    try (left; split; [reflexivity|repeat constructor]; fail);
    try (right; left; split; [exact I|repeat constructor]; fail);
    try (right; right; split; reflexivity).
Qed.

(** The property of a trace: at most one [onOpen], ahead of every
    [onEvent]. *)
Lemma opens_first_quiet now later :
  Forall (fun c => isQuietCallback c = true) now ->
  ((length (filter isOnOpen later) <= 1)%nat /\
   forall t1 frame t2, later = t1 ++ OnEvent frame :: t2 -> In OnOpen t1) ->
  (length (filter isOnOpen (now ++ later)) <= 1)%nat /\
  forall t1 frame t2, now ++ later = t1 ++ OnEvent frame :: t2 -> In OnOpen t1.
Proof.
  intros Hq [Hcount Hfirst]. induction Hq as [|c now Hc Hq IH]; [now split|].
  destruct IH as [IHc IHf]. simpl.
  unfold isQuietCallback in Hc. apply negb_true_iff, orb_false_iff in Hc.
  destruct Hc as [Ho He]. rewrite Ho. split; [exact IHc|].
  intros t1 frame t2 Heq. destruct t1 as [|d t1].
  - injection Heq as -> _. discriminate He.
  - injection Heq as <- Heq. right. exact (IHf _ _ _ Heq).
Qed.

Lemma deliver_opens_first inputs : forall h,
  point h = AwaitFetch ->
  (length (filter isOnOpen (snd (deliver h inputs))) <= 1)%nat /\
  forall t1 frame t2,
    snd (deliver h inputs) = t1 ++ OnEvent frame :: t2 -> In OnOpen t1.
Proof.
  induction inputs as [|i inputs IH]; intros h H; simpl.
  - split; [lia|]. intros [|? ?] ? ? Heq; discriminate Heq.
  - pose proof (step_AwaitFetch h i H) as Hstep.
    destruct (step h i) as [h' now]. simpl in Hstep.
    pose proof (IH h') as IHh. pose proof (deliver_neverOpens inputs h') as Hnever.
    pose proof (deliver_opened inputs h') as Hopened.
    destruct (deliver h' inputs) as [h'' later]. simpl in *.
    destruct Hstep as [[Hp Hq]|[[Hp Hq]|[Hp ->]]].
    + apply opens_first_quiet; auto.
    + apply opens_first_quiet; [exact Hq|].
      specialize (Hnever Hp). split.
      * rewrite filter_none; [simpl; lia|].
        eapply Forall_impl; [|exact Hnever]. intros c Hc.
        unfold isQuietCallback in Hc. apply negb_true_iff, orb_false_iff in Hc.
        tauto.
      * intros t1 frame t2 ->. apply Forall_app in Hnever.
        destruct Hnever as [_ Hn]. inversion Hn as [|? ? Hc _]. discriminate Hc.
    + assert (Hno : Forall (fun c => isOnOpen c = false) later)
        by (apply Hopened; rewrite Hp; discriminate).
      simpl. split.
      * rewrite filter_none by exact Hno. simpl. lia.
      * intros [|d t1] frame t2 Heq; [discriminate Heq|].
        injection Heq as <- _. now left.
Qed.

(** X10.  On every handle [onOpen] is delivered at most once, and no
    [onEvent] is delivered before it. *)
Theorem onOpen_comes_first :
  forall inputs : list Input,
    let trace := snd (deliver opened inputs) in
    (length (filter isOnOpen trace) <= 1)%nat /\
    forall t1 frame t2, trace = t1 ++ OnEvent frame :: t2 -> In OnOpen t1.
Proof.
  intros inputs. apply deliver_opens_first. reflexivity.
Qed.

(** *** After [onError] *)

Lemma deliver_finished_closed inputs : forall h,
  point h = Finished -> closed h = true -> snd (deliver h inputs) = [].
Proof.
  induction inputs as [|i inputs IH]; intros h Hp Hc; simpl; [reflexivity|].
  assert (Hstep : step h i = (h, [])).
  { destruct h as [cl ab pt]; simpl in *; subst.
    destruct i as [? ? ? ?|?|?| | |[?|]|?| |?|]; reflexivity. }
  rewrite Hstep. specialize (IH h Hp Hc).
  destruct (deliver h inputs). simpl in *. exact IH.
Qed.

Lemma deliver_finished_trace inputs : forall h,
  point h = Finished ->
  snd (deliver h inputs) = [] \/ snd (deliver h inputs) = [OnClose].
Proof.
  induction inputs as [|i inputs IH]; intros h Hp; simpl; [now left|].
  destruct (closed h) eqn:Hc.
  - left. pose proof (deliver_finished_closed (i :: inputs) h Hp Hc) as H.
    simpl in H. exact H.
  - destruct h as [cl ab pt]; simpl in *; subst.
    destruct i as [? ? ? ?|?|?| | |[?|]|?| |?|]; simpl;
      try (specialize (IH {| closed := false; aborted := ab; point := Finished |}
                         eq_refl);
           destruct (deliver _ inputs); simpl in *; exact IH).
    pose proof (deliver_finished_closed inputs
                  {| closed := true; aborted := true; point := Finished |}
                  eq_refl eq_refl) as H.
    unfold close; simpl.
    destruct (deliver _ inputs). simpl in *. subst. now right.
Qed.

Lemma deliver_after_OnError inputs : forall h t1 message t2,
  snd (deliver h inputs) = t1 ++ OnError message :: t2 ->
  t2 = [] \/ t2 = [OnClose].
Proof.
  induction inputs as [|i inputs IH]; intros h t1 message t2; simpl.
  - destruct t1; discriminate.
  - pose proof (step_one h i) as Hone.
    pose proof (step_OnError_finished h i) as Hfin.
    destruct (step h i) as [h' now]. simpl in *.
    pose proof (IH h') as IHh.
    pose proof (deliver_finished_trace inputs h') as Hend.
    destruct (deliver h' inputs) as [h'' later]. simpl in *.
    destruct now as [|c [|d now]]; simpl in *; [|clear Hone|lia].
    + apply IHh.
    + intros Heq. destruct t1 as [|e t1].
      * injection Heq as -> ->.
        apply Hend. apply (Hfin (OnError message)); [now left|reflexivity].
      * injection Heq as _ Heq. exact (IHh _ _ _ Heq).
Qed.

(** X11.  Nothing but one [onClose] can follow [onError]: once [onError]
    has been delivered there is no further [onEvent], [onOpen] or
    [onError], and at most one [onClose] (from a later [close()]). *)
Theorem nothing_but_onClose_after_onError :
  forall (inputs : list Input) (t1 : list Callback) (message : jsstring)
         (t2 : list Callback),
    snd (deliver opened inputs) = t1 ++ OnError message :: t2 ->
    t2 = [] \/ t2 = [OnClose].
Proof.
  intros inputs. apply deliver_after_OnError.
Qed.

(** *** A stream left alone *)

Lemma feedChunk_acc chunks : forall emitted buffer,
  fold_left feedChunk chunks (emitted, buffer) =
    (emitted ++ fst (fold_left feedChunk chunks ([], buffer)),
     snd (fold_left feedChunk chunks ([], buffer))).
Proof.
  induction chunks as [|chunk chunks IH]; intros emitted buffer; simpl.
  - now rewrite app_nil_r.
  - unfold feedChunk at 2 4 6. simpl.
    destruct (emitBufferedEvents (buffer ++ chunk)) as [frames remainder].
    simpl. rewrite (IH (emitted ++ frames) remainder), (IH frames remainder).
    simpl. rewrite app_assoc. reflexivity.
Qed.

Lemma deliver_cons h i inputs :
  deliver h (i :: inputs) =
    (fst (deliver (fst (step h i)) inputs),
     snd (step h i) ++ snd (deliver (fst (step h i)) inputs)).
Proof.
  simpl. destruct (step h i) as [h' now]. simpl.
  destruct (deliver h' inputs). reflexivity.
Qed.

(** The consumer returns from the calls of [onEvent] one after the other. *)
Lemma deliver_returns pending : forall ab remainder rest,
  deliver {| closed := false; aborted := ab;
             point := Emitting pending remainder |}
    (repeat Returned (S (length pending)) ++ rest) =
  (fst (deliver {| closed := false; aborted := ab;
                   point := AwaitRead remainder |} rest),
   List.map OnEvent pending
     ++ snd (deliver {| closed := false; aborted := ab;
                        point := AwaitRead remainder |} rest)).
Proof.
  induction pending as [|frame pending IH]; intros ab remainder rest.
  - change (repeat Returned (S (length (@nil SseFrame))) ++ rest)
      with (Returned :: rest).
    rewrite deliver_cons. reflexivity.
  - change (repeat Returned (S (length (frame :: pending))) ++ rest)
      with (Returned :: (repeat Returned (S (length pending)) ++ rest)).
    rewrite deliver_cons.
    change (step {| closed := false; aborted := ab;
                    point := Emitting (frame :: pending) remainder |} Returned)
      with ({| closed := false; aborted := ab;
               point := Emitting pending remainder |}, [OnEvent frame]).
    cbn [fst snd]. rewrite IH. reflexivity.
Qed.

Lemma deliver_readAll chunks : forall ab buffer,
  snd (deliver {| closed := false; aborted := ab; point := AwaitRead buffer |}
         (readAll buffer chunks)) =
  List.map OnEvent (fst (fold_left feedChunk chunks ([], buffer))) ++ [OnClose].
Proof.
  induction chunks as [|chunk chunks IH]; intros ab buffer.
  - reflexivity.
  - cbn [readAll fold_left]. unfold feedChunk at 2. cbn [fst snd app].
    pose proof (deliver_cons
                  {| closed := false; aborted := ab; point := AwaitRead buffer |}
                  (ReadValue (Some chunk))) as Hcons.
    unfold step in Hcons; cbn [point] in Hcons.
    destruct (emitBufferedEvents (buffer ++ chunk)) as [frames remainder] eqn:E.
    rewrite Hcons. clear Hcons.
    rewrite feedChunk_acc. cbn [fst snd].
    rewrite map_app, <- app_assoc, <- (IH ab remainder).
    destruct frames as [|frame frames].
    + reflexivity.
    + change (repeat Returned (length (frame :: frames)))
        with (repeat Returned (S (length frames))).
      unfold emitNext. cbn [fst snd closed aborted].
      rewrite deliver_returns. reflexivity.
Qed.

(** X12.  A stream left alone.  When the request succeeds, every read
    resolves with the next chunk, the consumer returns from each callback
    without closing the handle, and the stream then ends, the callbacks
    are [onOpen], then [onEvent] for exactly the frames the decoder makes
    of the chunks, in their order, then [onClose]. *)
Theorem undisturbed_stream_trace :
  forall (status : Z) (statusText : jsstring) (chunks : list jsstring),
    snd (deliver opened (undisturbed status statusText chunks)) =
      OnOpen :: List.map OnEvent (fst (decodeChunks chunks)) ++ [OnClose].
Proof.
  intros status statusText chunks. unfold undisturbed, decodeChunks.
  rewrite <- (deliver_readAll chunks false []).
  rewrite !deliver_cons. reflexivity.
Qed.

End TransportRunFacts.
(** ** Candidate lines of a stream, engine ideas, playback *)

Module IdeasFacts.
Import Merger MergerNotions MergerFacts MergerRuns Ideas AnimationNotions.

Lemma In_fold_mergeLine D lines : forall m k v,
  In (k, v) (fold_left (mergeLine D) lines m) ->
  In (k, v) m \/
  exists line, In line lines /\ branchOfLine line <> [] /\
               v = candidateOfLine D line.
Proof.
  induction lines as [|line lines IH]; intros m k v H; simpl in H; [now left|].
  apply IH in H. destruct H as [H|(l & Hl & Hb & ->)].
  - unfold mergeLine in H.
    destruct (branchOfLine line) as [|c b] eqn:Eb; [now left|].
    assert (Hset : In (k, v) (mapSet (c :: b) (candidateOfLine D line) m) ->
                   In (k, v) m \/
                   exists l, In l (line :: lines) /\ branchOfLine l <> [] /\
                             v = candidateOfLine D l).
    { intros Hin. apply In_mapSet in Hin. destruct Hin as [[= -> ->]|Hin].
      - right. exists line. split; [now left|]. split; [|reflexivity].
        rewrite Eb. discriminate.
      - now left. }
    destruct (mapGet (c :: b) m) as [existing|]; [|now apply Hset].
    destruct ((D >? depth existing)
              || (D =? depth existing) && (rank line <? cand_rank existing));
      [now apply Hset|now left].
  - right. exists l. split; [now right|]. now split.
Qed.

Lemma builtCandidate_candidateOfLine D line :
  branchOfLine line <> [] -> builtCandidate (candidateOfLine D line).
Proof.
  intros H. unfold builtCandidate, candidateOfLine; cbn [branchUci pvUci].
  split; [exact H|]. split.
  - unfold branchOfLine. destruct (pv line) as [|move moves]; reflexivity.
  - apply firstn_le_length.
Qed.

Lemma builtCandidate_merge current payload :
  Forall builtCandidate current ->
  Forall builtCandidate (mergeCandidateStockfishLines current payload).
Proof.
  intros Hcur. apply Forall_forall. intros e He.
  apply merge_perm_values in He. unfold mergedMap in He.
  apply In_fold_mergeLine in He. destruct He as [He|(line & _ & Hb & ->)].
  - unfold byBranchOf, mapOfEntries in He.
    apply In_mapOfEntries_from in He. destruct He as [[]|He].
    apply in_map_iff in He. destruct He as (x & [= _ ->] & Hx).
    rewrite Forall_forall in Hcur. now apply Hcur.
  - now apply builtCandidate_candidateOfLine.
Qed.

Lemma builtCandidate_fold payloads : forall current,
  Forall builtCandidate current ->
  Forall builtCandidate (fold_left mergeCandidateStockfishLines payloads current).
Proof.
  induction payloads as [|p payloads IH]; intros current H; simpl; [exact H|].
  apply IH. now apply builtCandidate_merge.
Qed.

Lemma NoDup_fold_merge payloads : forall current,
  NoDup (List.map branchUci current) ->
  NoDup (List.map branchUci
           (fold_left mergeCandidateStockfishLines payloads current)).
Proof.
  induction payloads as [|p payloads IH]; intros current H; simpl; [exact H|].
  apply IH. apply merge_NoDup.
Qed.

Lemma stream_built payloads :
  NoDup (List.map branchUci (mergeAll payloads)) /\
  Forall builtCandidate (mergeAll payloads).
Proof.
  unfold mergeAll. split.
  - apply NoDup_fold_merge. constructor.
  - apply builtCandidate_fold. constructor.
Qed.

(** X13.  The candidate list of a stream (it starts empty and every
    depth-like payload is merged into it) holds one candidate for each
    branch, and every candidate is filed under a branch that is not
    empty and carries a line of one to eight moves whose first move is
    the branch. *)
Theorem stream_candidates_are_built :
  forall payloads : list DepthLikeEvent,
    NoDup (List.map branchUci (mergeAll payloads)) /\
    Forall builtCandidate (mergeAll payloads).
Proof.
  intros payloads. apply stream_built.
Qed.

Lemma mapIndexed_length {A B} (f : nat -> A -> B) l : forall i,
  length (Commentary.mapIndexed f i l) = length l.
Proof.
  induction l as [|a l IH]; intros i; simpl; [reflexivity|].
  now rewrite IH.
Qed.

Lemma mapIndexed_Forall2 {A B} (f : nat -> A -> B) (R : B -> A -> Prop) l :
  forall i, (forall j a, R (f j a) a) ->
            Forall2 R (Commentary.mapIndexed f i l) l.
Proof.
  induction l as [|a l IH]; intros i H; simpl; constructor; auto.
Qed.

(** X14.  The engine ideas built from the candidate list of a stream are
    at most two, one for each of the first two candidates and in their
    order, with the line ids [L01] and [L02]; the playback of an idea is
    the candidate's line, so it is never empty and starts with the
    candidate's branch. *)
Theorem engine_ideas_are_playable :
  forall payloads : list DepthLikeEvent,
    let candidates := mergeAll payloads in
    let ideas := buildEngineConcreteIdeas candidates in
    length ideas = Nat.min 2 (length candidates) /\
    List.map Commentary.selected_line_id ideas =
      firstn (length ideas) [js "L01"; js "L02"] /\
    Forall2 (fun idea candidate =>
               Commentary.playback_pv_uci idea = pvUci candidate /\
               hd_error (Commentary.playback_pv_uci idea)
                 = Some (branchUci candidate))
            ideas (firstn 2 candidates).
Proof.
  intros payloads candidates ideas.
  pose proof (proj2 (stream_built payloads)) as Hbuilt.
  fold candidates in Hbuilt.
  unfold ideas, buildEngineConcreteIdeas.
  split; [|split].
  - rewrite mapIndexed_length. apply length_firstn.
  - destruct candidates as [|c1 [|c2 rest]]; reflexivity.
  - assert (Hfirst : Forall builtCandidate (firstn 2 candidates)).
    { apply Forall_forall. intros x Hx. rewrite Forall_forall in Hbuilt.
      apply Hbuilt. eapply In_firstn_In. exact Hx. }
    clear Hbuilt. revert Hfirst. generalize (firstn 2 candidates) as l.
    generalize 0%nat as i.
    intros i l. revert i. induction l as [|c l IH]; intros i Hf; simpl.
    + constructor.
    + inversion Hf as [|? ? Hc Hl]; subst. constructor.
      * simpl. split; [reflexivity|]. apply Hc.
      * now apply IH.
Qed.

End IdeasFacts.
(** ** The board *)

Module FenBoardFacts.
Import FenBoard FenBoardNotions TextFacts.

(** *** The position *)

(** X19.  Whatever the text of the FEN field, the position that
    [parseFenBoard] hands to the board passes [validateFen], provided the
    starting position does; the text is returned trimmed when it is
    valid, and parsing the returned position again gives it back with no
    error. *)
Theorem parseFenBoard_position_is_valid :
  forall (validateFen : jsstring -> bool * option jsstring) (fen : jsstring),
    fst (validateFen STARTING_FEN) = true ->
    let parsed := parseFenBoard validateFen fen in
    fst (validateFen (normalizedFen parsed)) = true /\
    (error parsed = None -> normalizedFen parsed = trim fen) /\
    parseFenBoard validateFen (normalizedFen parsed) =
      {| normalizedFen := normalizedFen parsed; error := None |}.
Proof.
  intros validateFen fen Hstart. cbn zeta.
  assert (Hs : parseFenBoard validateFen STARTING_FEN =
               {| normalizedFen := STARTING_FEN; error := None |}).
  { unfold parseFenBoard.
    change (trim STARTING_FEN) with STARTING_FEN.
    unfold STARTING_FEN at 1. cbn [js List.map list_ascii_of_string].
    fold STARTING_FEN. rewrite Hstart. reflexivity. }
  assert (Hcases :
            (exists message,
               parseFenBoard validateFen fen =
                 {| normalizedFen := STARTING_FEN; error := Some message |}) \/
            (parseFenBoard validateFen fen =
               {| normalizedFen := trim fen; error := None |} /\
             trim fen <> [] /\ fst (validateFen (trim fen)) = true)).
  { unfold parseFenBoard. destruct (trim fen) as [|c rest] eqn:Et.
    - left. eexists. reflexivity.
    - destruct (fst (validateFen (c :: rest))) eqn:Ev; cbn [negb].
      + right. split; [reflexivity|]. split; [discriminate|reflexivity].
      + left. eexists. reflexivity. }
  destruct Hcases as [[message ->]|(-> & Hne & Hv)]; cbn [normalizedFen error].
  - split; [exact Hstart|]. split; [discriminate|exact Hs].
  - split; [exact Hv|]. split; [reflexivity|].
    unfold parseFenBoard. rewrite trim_trim.
    destruct (trim fen) as [|c rest]; [contradiction|].
    rewrite Hv. reflexivity.
Qed.

(** *** Labels *)

(** X15.  The two evaluation labels.  [evalLabel] of the board (and of
    the chart) and [formatEvalLabel] of the analysis route give the same
    text for a centipawn score exactly when the score is not 0 (a level
    score is [+0.00] on the board and [0.00] in the route), and the same
    text for a mate distance exactly when it is not positive (the route
    writes [M+3] where the board writes [M3]). *)
Theorem eval_labels_agree :
  (forall c : Z,
     evalLabel (Some c) None = Merger.formatEvalLabel (Some c) None <-> c <> 0) /\
  (forall (cp : option Z) (m : Z),
     evalLabel cp (Some m) = Merger.formatEvalLabel cp (Some m) <-> m <= 0).
Proof.
  split.
  - intros c. unfold evalLabel, Merger.formatEvalLabel. split.
    + intros H ->. vm_compute in H. discriminate H.
    + intros H. destruct (Z.gtb_spec c 0) as [Hp|Hn].
      * destruct (Z.geb_spec c 0); [reflexivity|lia].
      * destruct (Z.geb_spec c 0) as [Hge|]; [lia|reflexivity].
  - intros cp m. unfold evalLabel, Merger.formatEvalLabel. split.
    + intros H. destruct (Z.gtb_spec m 0) as [Hp|Hn]; [|lia].
      apply (f_equal (@length N)) in H. rewrite !length_app in H.
      simpl in H. lia.
    + intros H. destruct (Z.gtb_spec m 0); [lia|reflexivity].
Qed.

(** *** Arrows *)

Lemma uniqueFrom_keys seen arrows :
  forall a, In a (uniqueFrom seen arrows) ->
            In a arrows /\ ~ In (arrowKey a) seen.
Proof.
  revert seen. induction arrows as [|x arrows IH]; intros seen a H; simpl in H.
  - contradiction.
  - destruct (existsb (jsstring_eqb (arrowKey x)) seen) eqn:E.
    + destruct (IH _ _ H). split; [now right|assumption].
    + destruct H as [<-|H].
      * split; [now left|]. intros Hin.
        assert (existsb (jsstring_eqb (arrowKey x)) seen = true).
        { apply existsb_exists. exists (arrowKey x). split; [exact Hin|].
          apply jsstring_eqb_refl. }
        congruence.
      * destruct (IH _ _ H) as [H1 H2]. split; [now right|].
        intros Hin. apply H2. apply in_or_app. now left.
Qed.

Lemma uniqueFrom_length arrows : forall seen,
  (length (uniqueFrom seen arrows) <= length arrows)%nat.
Proof.
  induction arrows as [|a arrows IH]; intros seen; simpl; [lia|].
  destruct (existsb _ seen); simpl.
  - specialize (IH seen). lia.
  - specialize (IH (seen ++ [arrowKey a])). lia.
Qed.

Lemma uniqueFrom_NoDup arrows : forall seen,
  NoDup (List.map arrowKey (uniqueFrom seen arrows)).
Proof.
  induction arrows as [|x arrows IH]; intros seen; simpl.
  - constructor.
  - destruct (existsb (jsstring_eqb (arrowKey x)) seen); [apply IH|].
    simpl. constructor; [|apply IH].
    intros Hin. apply in_map_iff in Hin. destruct Hin as (a & Hk & Ha).
    apply uniqueFrom_keys in Ha. destruct Ha as [_ Ha]. apply Ha.
    rewrite Hk. apply in_or_app. right. now left.
Qed.

Lemma existsb_key key seen :
  existsb (jsstring_eqb key) seen = true <-> In key seen.
Proof.
  rewrite existsb_exists. split.
  - intros (x & Hx & He). apply jsstring_eqb_eq in He. now subst.
  - intros H. exists key. split; [exact H|apply jsstring_eqb_refl].
Qed.

Lemma uniqueFrom_covers arrows : forall seen a,
  In a arrows ->
  In (arrowKey a) seen \/ In (arrowKey a) (List.map arrowKey (uniqueFrom seen arrows)).
Proof.
  induction arrows as [|x arrows IH]; intros seen a H; [contradiction|].
  simpl. destruct (existsb (jsstring_eqb (arrowKey x)) seen) eqn:E.
  - destruct H as [->|H]; [left; now apply existsb_key|now apply IH].
  - simpl. destruct H as [->|H]; [right; now left|].
    destruct (IH (seen ++ [arrowKey x]) a H) as [Hs|Hr]; [|right; now right].
    apply in_app_or in Hs. destruct Hs as [Hs|[Hs|[]]]; [now left|].
    right. left. exact Hs.
Qed.

Lemma uniqueFrom_first arrows : forall seen before a after,
  arrows = before ++ a :: after ->
  ~ In (arrowKey a) seen ->
  ~ In (arrowKey a) (List.map arrowKey before) ->
  In a (uniqueFrom seen arrows).
Proof.
  induction arrows as [|x arrows IH]; intros seen before a after Heq Hs Hb.
  - destruct before; discriminate.
  - destruct before as [|b before]; simpl in Heq; injection Heq as -> ->.
    + simpl. destruct (existsb (jsstring_eqb (arrowKey a)) seen) eqn:E.
      * apply existsb_key in E. contradiction.
      * now left.
    + simpl. simpl in Hb.
      destruct (existsb (jsstring_eqb (arrowKey b)) seen).
      * apply (IH seen before a after eq_refl Hs). tauto.
      * right. apply (IH _ before a after eq_refl); [|tauto].
        intros Hin. apply in_app_or in Hin. destruct Hin as [Hin|[Hin|[]]].
        -- contradiction.
        -- apply Hb. now left.
Qed.

Lemma uniqueFrom_fixed arrows : forall seen,
  NoDup (List.map arrowKey arrows) ->
  (forall a, In a arrows -> ~ In (arrowKey a) seen) ->
  uniqueFrom seen arrows = arrows.
Proof.
  induction arrows as [|x arrows IH]; intros seen Hnd Hs; [reflexivity|].
  simpl in *. inversion Hnd as [|? ? Hx Hnd']; subst.
  destruct (existsb (jsstring_eqb (arrowKey x)) seen) eqn:E.
  - apply existsb_key in E. exfalso. apply (Hs x); [now left|exact E].
  - f_equal. apply IH; [exact Hnd'|].
    intros a Ha Hin. apply in_app_or in Hin. destruct Hin as [Hin|[Hin|[]]].
    + apply (Hs a); [now right|exact Hin].
    + apply Hx. rewrite Hin. now apply in_map.
Qed.

(** X16.  [uniqueArrows] keeps, of the arrows with the same pair of
    squares, the first one: the arrows it returns have distinct keys,
    every key of the input is still there, an arrow whose key no earlier
    arrow has is kept, and arrows that are distinct already are left as
    they are. *)
Theorem uniqueArrows_keeps_first :
  forall arrows : list BoardArrow,
    NoDup (List.map arrowKey (uniqueArrows arrows)) /\
    (forall a, In a arrows ->
       In (arrowKey a) (List.map arrowKey (uniqueArrows arrows))) /\
    (forall before a after,
       arrows = before ++ a :: after ->
       ~ In (arrowKey a) (List.map arrowKey before) ->
       In a (uniqueArrows arrows)) /\
    (forall a, In a (uniqueArrows arrows) -> In a arrows) /\
    uniqueArrows (uniqueArrows arrows) = uniqueArrows arrows.
Proof.
  intros arrows. unfold uniqueArrows. repeat split.
  - apply uniqueFrom_NoDup.
  - intros a H. destruct (uniqueFrom_covers arrows [] a H) as [[]|H']. exact H'.
  - intros before a after Heq Hb.
    apply (uniqueFrom_first arrows [] before a after Heq); auto.
  - intros a H. now apply uniqueFrom_keys in H.
  - apply uniqueFrom_fixed; [apply uniqueFrom_NoDup|]. intros a _ [].
Qed.

(** *** Squares *)

Import QArith Lqa.

Lemma isSquare_cases square :
  isSquare square = true ->
  exists file rank,
    square = [file; rank] /\
    (file = 97 \/ file = 98 \/ file = 99 \/ file = 100 \/ file = 101 \/
     file = 102 \/ file = 103 \/ file = 104)%N /\
    (rank = 49 \/ rank = 50 \/ rank = 51 \/ rank = 52 \/ rank = 53 \/
     rank = 54 \/ rank = 55 \/ rank = 56)%N.
Proof.
  destruct square as [|file [|rank [|? ?]]]; try discriminate.
  simpl. rewrite !andb_true_iff, !N.leb_le. intros [[[H1 H2] H3] H4].
  exists file, rank. split; [reflexivity|]. split; lia.
Qed.

Lemma squareToNormalized_valid square :
  isSquare square = true ->
  exists p q,
    squareToNormalized square white = Some p /\
    squareToNormalized square black = Some q /\
    inside p /\ inside q /\
    fst q == 1 - fst p /\ snd q == 1 - snd p.
Proof.
  intros H. destruct (isSquare_cases square H) as (file & rank & -> & Hf & Hr).
  unfold inside.
  destruct Hf as [-> | [-> | [-> | [-> | [-> | [-> | [-> | ->]]]]]]];
    destruct Hr as [-> | [-> | [-> | [-> | [-> | [-> | [-> | ->]]]]]]];
    (eexists; eexists; split; [vm_compute; reflexivity|];
     split; [vm_compute; reflexivity|];
     cbn [fst snd]; repeat split; reflexivity).
Qed.

Lemma squareToNormalized_invalid square orientation :
  isSquare square = false -> squareToNormalized square orientation = None.
Proof. intros H. unfold squareToNormalized. now rewrite H. Qed.

(** X17.  A square that is well formed (a file a-h and a rank 1-8) has a
    centre strictly inside the unit square of the board, for either
    orientation, and turning the board mirrors it through the middle:
    the centre for [black] is [(1 - x, 1 - y)] when it is [(x, y)] for
    [white].  Any other text gives no point. *)
Theorem squareToNormalized_mirrors :
  forall square : jsstring,
    if isSquare square then
      exists p q,
        squareToNormalized square white = Some p /\
        squareToNormalized square black = Some q /\
        inside p /\ inside q /\
        fst q == 1 - fst p /\ snd q == 1 - snd p
    else
      squareToNormalized square white = None /\
      squareToNormalized square black = None.
Proof.
  intros square. destruct (isSquare square) eqn:H.
  - now apply squareToNormalized_valid.
  - split; now apply squareToNormalized_invalid.
Qed.

Lemma squareToNormalized_inside square orientation p :
  squareToNormalized square orientation = Some p ->
  isSquare square = true /\ inside p.
Proof.
  intros H. destruct (isSquare square) eqn:E.
  - split; [reflexivity|].
    destruct (squareToNormalized_valid square E)
      as (p1 & p2 & H1 & H2 & I1 & I2 & _).
    destruct orientation; congruence.
  - rewrite squareToNormalized_invalid in H by exact E. discriminate.
Qed.

Lemma pushNormalized_spec orientation acc arrow :
  pushNormalized orientation acc arrow = acc \/
  exists n, pushNormalized orientation acc arrow = acc ++ [n] /\
            wellPlaced n /\
            fromSquare n = ba_from_square arrow /\
            toSquare n = ba_to_square arrow.
Proof.
  unfold pushNormalized.
  destruct (squareToNormalized (ba_from_square arrow) orientation)
    as [from|] eqn:Ef; [|now left].
  destruct (squareToNormalized (ba_to_square arrow) orientation)
    as [to|] eqn:Et; [|now left].
  right. eexists. split; [reflexivity|].
  apply squareToNormalized_inside in Ef, Et.
  unfold wellPlaced; simpl. destruct from, to. tauto.
Qed.

Lemma fold_pushNormalized orientation arrows : forall acc,
  exists added,
    fold_left (pushNormalized orientation) arrows acc = acc ++ added /\
    Forall wellPlaced added /\
    (NoDup (List.map arrowKey arrows) -> NoDup (List.map keyOf added)) /\
    (forall n, In n added -> In (keyOf n) (List.map arrowKey arrows)).
Proof.
  induction arrows as [|a arrows IH]; intros acc; simpl.
  - exists []. rewrite app_nil_r. repeat split; auto; constructor.
  - destruct (pushNormalized_spec orientation acc a)
      as [->|(n & -> & Hn & Hf & Ht)].
    + destruct (IH acc) as (added & -> & Hw & Hd & Hk).
      exists added. repeat split; auto.
      intros Hnd. inversion Hnd; subst. auto.
    + destruct (IH (acc ++ [n])) as (added & -> & Hw & Hd & Hk).
      exists (n :: added). rewrite <- app_assoc. repeat split; auto.
      * intros Hnd. inversion Hnd as [|? ? Hx Hnd']; subst. simpl.
        constructor; [|auto].
        intros Hin. apply in_map_iff in Hin. destruct Hin as (m & Hm & Hin).
        apply Hk in Hin. apply Hx. rewrite Hm in Hin.
        unfold keyOf in Hin. rewrite Hf, Ht in Hin. exact Hin.
      * intros m [<-|Hm]; [left; unfold keyOf, arrowKey; now rewrite Hf, Ht|].
        right. now apply Hk.
Qed.

(** X18.  Every arrow that [normalizedArrows] hands to the hover test
    joins two well-formed squares, both its ends lie strictly inside the
    unit square, no two of the arrows join the same pair of squares, and
    there are at most as many as arrows were given. *)
Theorem normalizedArrows_are_well_placed :
  forall (orientation : Orientation) (arrows : list BoardArrow),
    let result := normalizedArrows orientation arrows in
    Forall wellPlaced result /\
    NoDup (List.map keyOf result) /\
    (length result <= length arrows)%nat.
Proof.
  intros orientation arrows. cbn zeta. unfold normalizedArrows.
  destruct (fold_pushNormalized orientation (uniqueArrows arrows) [])
    as (added & -> & Hw & Hd & Hk).
  simpl. split; [exact Hw|]. split.
  - apply Hd. apply uniqueFrom_NoDup.
  - specialize (Hd (uniqueFrom_NoDup arrows [])).
    assert (H1 : (length added <= length (uniqueArrows arrows))%nat).
    { rewrite <- (length_map keyOf added),
              <- (length_map arrowKey (uniqueArrows arrows)).
      apply NoDup_incl_length; [exact Hd|].
      intros k Hin. apply in_map_iff in Hin. destruct Hin as (n & <- & Hn).
      now apply Hk. }
    pose proof (uniqueFrom_length arrows []) as H2.
    unfold uniqueArrows in H1. lia.
Qed.

End FenBoardFacts.
(** ** Playback moves and the typing animation *)

Module PlaybackFacts.
Import Ideas AnimationNotions TextFacts.

Lemma printable_not_space c : (33 <= c <= 126)%N -> isWhiteSpace c = false.
Proof.
  intros H. unfold isWhiteSpace. rewrite !orb_false_iff.
  repeat split;
    try (apply N.eqb_neq; lia);
    apply andb_false_iff;
    ((left; apply N.leb_gt; lia) || (right; apply N.leb_gt; lia)).
Qed.

Lemma lowerUnit_small c : (91 <= c)%N -> lowerUnit c = c.
Proof.
  intros H. unfold lowerUnit.
  replace (c <=? 90)%N with false by (symmetry; apply N.leb_gt; lia).
  now rewrite andb_false_r.
Qed.

Lemma isFileUnit_range c : isFileUnit c = true -> (97 <= c <= 104)%N.
Proof.
  unfold isFileUnit. rewrite andb_true_iff, !N.leb_le. tauto.
Qed.

Lemma isRankUnit_range c : isRankUnit c = true -> (49 <= c <= 56)%N.
Proof.
  unfold isRankUnit. rewrite andb_true_iff, !N.leb_le. tauto.
Qed.

Lemma isPromotionUnit_range c : isPromotionUnit c = true -> (98 <= c <= 114)%N.
Proof.
  unfold isPromotionUnit. rewrite !orb_true_iff, !N.eqb_eq. lia.
Qed.

Lemma lowerUnit_digit c : (49 <= c <= 56)%N -> lowerUnit c = c.
Proof.
  intros H. unfold lowerUnit.
  replace (65 <=? c)%N with false by (symmetry; apply N.leb_gt; lia).
  reflexivity.
Qed.

(** The text of a move that [isUciMove] accepts is in lower case already
    and has no white space at its ends. *)
Lemma isUciMove_clean clean :
  isUciMove clean = true -> toLowerCase (trim clean) = clean.
Proof.
  intros H.
  destruct clean as [|a [|b [|c [|d [|e [|? ?]]]]]]; try discriminate;
    simpl in H; rewrite !andb_true_iff in H.
  - destruct H as [[[Ha Hb] Hc] Hd].
    apply isFileUnit_range in Ha, Hc. apply isRankUnit_range in Hb, Hd.
    rewrite trim_id by (simpl; apply printable_not_space; lia).
    simpl. rewrite (lowerUnit_small a), (lowerUnit_digit b),
             (lowerUnit_small c), (lowerUnit_digit d) by lia.
    reflexivity.
  - destruct H as [[[[Ha Hb] Hc] Hd] He].
    apply isFileUnit_range in Ha, Hc. apply isRankUnit_range in Hb, Hd.
    apply isPromotionUnit_range in He.
    rewrite trim_id by (simpl; apply printable_not_space; lia).
    simpl. rewrite (lowerUnit_small a), (lowerUnit_digit b),
             (lowerUnit_small c), (lowerUnit_digit d), (lowerUnit_small e) by lia.
    reflexivity.
Qed.

(** X20.  A move that [parseUciForPlayback] accepts: its two squares are
    well formed (the board can place them), a promotion piece is one of
    n, b, r, q, and the squares and the piece put together again are the
    trimmed text in lower case; parsing that text gives the same move. *)
Theorem parseUciForPlayback_reads_the_move :
  forall (uci : jsstring) (move : PlaybackMove),
    parseUciForPlayback uci = Some move ->
    FenBoard.isSquare (pm_from move) = true /\
    FenBoard.isSquare (pm_to move) = true /\
    (forall p, pm_promotion move = Some p -> isPromotionUnit p = true) /\
    moveText move = toLowerCase (trim uci) /\
    parseUciForPlayback (moveText move) = Some move.
Proof.
  intros uci move H. unfold parseUciForPlayback in H.
  destruct (isUciMove (toLowerCase (trim uci))) eqn:E; [|discriminate].
  set (clean := toLowerCase (trim uci)) in *.
  assert (Hm : move = {| pm_from := firstn 2 clean;
                         pm_to := firstn 2 (skipn 2 clean);
                         pm_promotion :=
                           if (length clean =? 5)%nat then nth_error clean 4
                           else None |})
    by (cbn [negb] in H; congruence).
  clear H. rewrite Hm. clear Hm move.
  assert (Hagain : parseUciForPlayback clean =
                   Some {| pm_from := firstn 2 clean;
                           pm_to := firstn 2 (skipn 2 clean);
                           pm_promotion :=
                             if (length clean =? 5)%nat then nth_error clean 4
                             else None |}).
  { unfold parseUciForPlayback. rewrite (isUciMove_clean clean E), E.
    reflexivity. }
  assert (Htext : moveText {| pm_from := firstn 2 clean;
                              pm_to := firstn 2 (skipn 2 clean);
                              pm_promotion :=
                                if (length clean =? 5)%nat then nth_error clean 4
                                else None |} = clean).
  { destruct clean as [|a [|b [|c [|d [|e [|? ?]]]]]]; try discriminate;
      reflexivity. }
  rewrite Htext. split; [|split; [|split; [|split]]]; try reflexivity;
    try exact Hagain;
    destruct clean as [|a [|b [|c [|d [|e [|? ?]]]]]]; try discriminate;
    simpl in E; rewrite !andb_true_iff in E; simpl.
  - unfold isFileUnit, isRankUnit in E. rewrite !andb_true_iff in *. tauto.
  - unfold isFileUnit, isRankUnit in E. rewrite !andb_true_iff in *. tauto.
  - unfold isFileUnit, isRankUnit in E. rewrite !andb_true_iff in *. tauto.
  - unfold isFileUnit, isRankUnit in E. rewrite !andb_true_iff in *. tauto.
  - intros p [= <-]. tauto.
Qed.

(** *** The typing animation *)

Lemma animationTick_prefix targetText k :
  (k <= length targetText)%nat ->
  fst (animationTick targetText (firstn k targetText)) =
    firstn (Nat.min (length targetText) (k + 3)) targetText.
Proof.
  intros Hk. unfold animationTick. rewrite length_firstn.
  rewrite (Nat.min_l k) by exact Hk.
  destruct (Nat.leb_spec (length targetText) k) as [H|H]; simpl.
  - assert (k = length targetText) by lia. subst k.
    rewrite Nat.min_l by lia. reflexivity.
  - reflexivity.
Qed.

Lemma ticks_prefix n : forall targetText k,
  (k <= length targetText)%nat ->
  ticks n targetText (firstn k targetText) =
    firstn (Nat.min (length targetText) (k + 3 * n)) targetText.
Proof.
  induction n as [|n IH]; intros targetText k Hk; simpl ticks.
  - rewrite Nat.min_r by lia. f_equal. lia.
  - rewrite animationTick_prefix by exact Hk.
    rewrite IH by apply Nat.le_min_l. f_equal. lia.
Qed.

(** X21.  The typing animation.  While the rendered text is shorter than
    the raw text, every tick shows the first code units of the raw text,
    three more than the rendered text had, whatever that text was; after
    [n] ticks against the same raw text it shows
    [min (length raw) (length rendered + 3 n)] of them, and once that is
    the whole raw text the next tick changes nothing and stops the
    timer. *)
Theorem animation_reveals_the_text :
  forall (targetText currentText : jsstring) (n : nat),
    (length currentText < length targetText)%nat -> (1 <= n)%nat ->
    ticks n targetText currentText =
      firstn (Nat.min (length targetText) (length currentText + 3 * n))
        targetText /\
    ((length targetText <= length currentText + 3 * n)%nat ->
     ticks n targetText currentText = targetText /\
     animationTick targetText (ticks n targetText currentText)
       = (targetText, true)).
Proof.
  intros targetText currentText n Hlt Hn.
  assert (Hticks : ticks n targetText currentText =
                   firstn (Nat.min (length targetText)
                                   (length currentText + 3 * n)) targetText).
  { destruct n as [|n]; [lia|]. simpl ticks.
    unfold animationTick at 1.
    destruct (Nat.leb_spec (length targetText) (length currentText)); [lia|].
    cbn [fst]. unfold COMMENTARY_ANIMATION_CHARS_PER_TICK.
    rewrite ticks_prefix by apply Nat.le_min_l. f_equal. lia. }
  split; [exact Hticks|]. intros Hall.
  rewrite Hticks, Nat.min_l, firstn_all by exact Hall.
  split; [reflexivity|]. unfold animationTick. now rewrite Nat.leb_refl.
Qed.

End PlaybackFacts.
(** ** More on the commentary extractor *)

Module CommentaryShapeFacts.
Import Json Commentary CommentaryNotions CommentaryFacts CommentaryShapes.
Import TextFacts.

(** *** No fence is left *)

Lemma replaceAll_fence_bounded n : forall s,
  (length s <= n)%nat ->
  includes fence (replaceAll fence [] s) = false /\
  (startsWith [96%N] (replaceAll fence [] s) = true ->
   startsWith [96%N] s = true) /\
  (startsWith [96%N; 96%N] (replaceAll fence [] s) = true ->
   startsWith [96%N; 96%N] s = true).
Proof.
  induction n as [|n IH]; intros s Hn.
  - destruct s; [|simpl in Hn; lia]. repeat split; auto.
  - destruct s as [|c rest]; [repeat split; auto|].
    destruct (startsWith fence (c :: rest)) eqn:Ef.
    + rewrite replaceAll_match by (discriminate || exact Ef).
      apply startsWith_skipn in Ef.
      change (length fence) with 3%nat in *. cbn [app].
      assert (Hlen : (length (skipn 3 (c :: rest)) <= n)%nat).
      { rewrite length_skipn. simpl in *. lia. }
      destruct (IH _ Hlen) as (HA & _ & _).
      split; [exact HA|].
      rewrite Ef. split; reflexivity.
    + rewrite replaceAll_step by exact Ef.
      assert (Hlen : (length rest <= n)%nat) by (simpl in Hn; lia).
      destruct (IH _ Hlen) as (HA & HB & HC).
      split; [|split].
      * rewrite includes_cons, HA, orb_false_r.
        destruct (startsWith fence (c :: replaceAll fence [] rest)) eqn:E;
          [|reflexivity].
        exfalso.
        change (startsWith fence (c :: replaceAll fence [] rest))
          with ((c =? 96)%N && startsWith [96%N; 96%N] (replaceAll fence [] rest))
          in E.
        apply andb_true_iff in E. destruct E as [Ec E].
        apply HC in E.
        change (startsWith fence (c :: rest))
          with ((c =? 96)%N && startsWith [96%N; 96%N] rest) in Ef.
        rewrite Ec, E in Ef. discriminate.
      * intros H. exact H.
      * intros H.
        change (startsWith [96%N; 96%N] (c :: replaceAll fence [] rest))
          with ((c =? 96)%N && startsWith [96%N] (replaceAll fence [] rest)) in H.
        apply andb_true_iff in H. destruct H as [Hc H]. apply HB in H.
        change (startsWith [96%N; 96%N] (c :: rest))
          with ((c =? 96)%N && startsWith [96%N] rest).
        now rewrite Hc, H.
Qed.

Lemma stripFences_clean rawText : includes fence (stripFences rawText) = false.
Proof.
  unfold stripFences. apply includes_false_trim.
  apply (replaceAll_fence_bounded _ _ (le_n _)).
Qed.

Lemma space_holds_no_fence s :
  Forall (fun c => isWhiteSpace c = true) s -> includes fence s = false.
Proof.
  induction 1 as [|c s Hc Hs IH]; [reflexivity|].
  rewrite includes_cons, IH, orb_false_r.
  unfold fence. cbn [js List.map list_ascii_of_string startsWith].
  destruct (N.eqb_spec c (N_of_ascii "`")) as [->|]; [discriminate Hc|reflexivity].
Qed.

(** X22.  No fence is left unless the text is a closed fence block.  If
    what [sanitizeCommentaryText] returns still holds a triple backtick,
    then the trimmed text starts with a triple backtick, has three lines
    or more, and its last line is a triple backtick: in every other case
    all triple backticks are gone. *)
Theorem sanitized_text_holds_no_fence :
  forall rawText : jsstring,
    includes fence (sanitizeCommentaryText rawText) = true ->
    startsWith fence (trim rawText) = true /\
    (3 <= length (split 10 (trim rawText)))%nat /\
    trim (last (split 10 (trim rawText)) []) = fence.
Proof.
  intros rawText H. unfold sanitizeCommentaryText in H.
  destruct (trim rawText) as [|c rest] eqn:Et.
  - apply trim_nil_all_space in Et.
    rewrite (space_holds_no_fence _ Et) in H. discriminate.
  - destruct (startsWith fence (c :: rest)) eqn:Es; cbn [negb] in H;
      [|rewrite stripFences_clean in H; discriminate].
    destruct ((3 <=? length (split 10 (c :: rest)))%nat
              && jsstring_eqb (trim (last (split 10 (c :: rest)) [])) fence)
      eqn:Ec; [|rewrite stripFences_clean in H; discriminate].
    apply andb_true_iff in Ec. destruct Ec as [E3 El].
    split; [reflexivity|]. split.
    + now apply Nat.leb_le.
    + now apply jsstring_eqb_eq.
Qed.

(** *** The candidates *)

Lemma normalizeCandidate_filled candidate :
  normalizeCandidate candidate = [] \/ filled (normalizeCandidate candidate).
Proof.
  unfold normalizeCandidate, filled.
  destruct (startsWith _ _).
  - destruct (trim (skipn 5 (trim candidate))) eqn:E; [now left|].
    right. split; [discriminate|]. rewrite <- E. apply trim_trim.
  - destruct (trim candidate) eqn:E; [now left|].
    right. split; [discriminate|]. rewrite <- E. apply trim_trim.
Qed.

Lemma pushCandidate_keeps candidates candidate :
  NoDup candidates -> Forall filled candidates ->
  NoDup (pushCandidate candidates candidate) /\
  Forall filled (pushCandidate candidates candidate).
Proof.
  intros Hnd Hf. unfold pushCandidate.
  destruct (normalizeCandidate_filled candidate) as [->|Hfilled]; [now split|].
  destruct (normalizeCandidate candidate) as [|c normalized] eqn:En; [now split|].
  destruct (existsb (jsstring_eqb (c :: normalized)) candidates) eqn:E;
    [now split|].
  split.
  - apply NoDup_app; [exact Hnd|repeat constructor; auto|].
    intros x Hx [<-|[]].
    assert (existsb (jsstring_eqb (c :: normalized)) candidates = true).
    { apply existsb_exists. exists (c :: normalized).
      split; [exact Hx|apply jsstring_eqb_refl]. }
    congruence.
  - apply Forall_app. split; [exact Hf|]. now constructor.
Qed.

(** X23.  The candidates that the extractor tries are all different, none
    is empty, and none has white space at its ends. *)
Theorem candidates_are_distinct :
  forall clean : jsstring,
    NoDup (candidatesOf clean) /\ Forall filled (candidatesOf clean).
Proof.
  intros clean. unfold candidatesOf.
  assert (H0 : NoDup (pushCandidate [] clean) /\
               Forall filled (pushCandidate [] clean))
    by (apply pushCandidate_keeps; constructor).
  revert H0. generalize (pushCandidate [] clean) as candidates.
  induction (extractJsonObjectCandidates clean) as [|x xs IH];
    intros candidates [Hnd Hf]; simpl; [now split|].
  apply IH. now apply pushCandidate_keeps.
Qed.

(** *** Candidates are braced *)

Lemma slice_braced before middle rest :
  slice (Z.of_nat (length before))
        (Z.of_nat (length (before ++ 123%N :: middle)) + 1)
        ((before ++ 123%N :: middle) ++ 125%N :: rest)
  = 123%N :: middle ++ [125%N].
Proof.
  unfold slice. rewrite Nat2Z.id.
  rewrite <- app_assoc. rewrite skipn_app, skipn_all, Nat.sub_diag.
  cbn [app skipn].
  rewrite length_app. cbn [length].
  replace (Z.to_nat (Z.of_nat (length before + S (length middle)) + 1
                     - Z.of_nat (length before)))
    with (length (123%N :: middle ++ [125%N]))
    by (cbn [length]; rewrite length_app; simpl; lia).
  change (123%N :: middle ++ 125%N :: rest)
    with ((123%N :: middle) ++ [125%N] ++ rest).
  rewrite app_assoc.
  change ((123%N :: middle) ++ [125%N]) with (123%N :: middle ++ [125%N]).
  rewrite firstn_app, firstn_all, Nat.sub_diag. cbn [firstn]. apply app_nil_r.
Qed.

Lemma trim_braced s : braced s -> trim s = s.
Proof.
  intros [middle ->]. apply trim_id; [reflexivity|].
  change (123%N :: middle ++ [125%N]) with ((123%N :: middle) ++ [125%N]).
  rewrite last_last. reflexivity.
Qed.

Lemma scanStep_invariant prefix char rest st :
  scanInvariant prefix st ->
  scanInvariant (prefix ++ [char])
    (scanStep (prefix ++ char :: rest) (Z.of_nat (length prefix)) char st).
Proof.
  intros (Hd & Hzero & Hin & Hc).
  assert (Hgrow : 0 < depth st ->
                  exists before middle,
                    prefix ++ [char] = before ++ 123%N :: middle /\
                    startIndex st = Z.of_nat (length before)).
  { intros H. destruct (Hin H) as (before & middle & -> & Hs).
    exists before, (middle ++ [char]). split; [|exact Hs].
    now rewrite <- app_assoc. }
  unfold scanStep.
  destruct (inString st).
  { destruct (escaped st); [repeat split; simpl; auto|].
    destruct (char =? 92)%N; [repeat split; simpl; auto|].
    destruct (char =? 34)%N; repeat split; simpl; auto. }
  destruct (char =? 34)%N; [repeat split; simpl; auto|].
  destruct (N.eqb_spec char 123) as [->|Hopen].
  { unfold scanInvariant; simpl. split; [lia|]. split; [lia|]. split; [|exact Hc].
    intros _. destruct (Z.eqb_spec (depth st) 0) as [H0|H0].
    - exists prefix, []. split; reflexivity.
    - apply Hgrow. lia. }
  destruct (N.eqb_spec char 125) as [->|Hclose]; cbn [andb];
    [|repeat split; simpl; auto].
  destruct (Z.gtb_spec (depth st) 0) as [Hpos|Hnon];
    [|repeat split; simpl; auto].
  destruct (Z.eqb_spec (depth st - 1) 0) as [H1|H1]; cbn [andb].
  - destruct (Hin Hpos) as (before & middle & -> & Hs).
    destruct (Z.geb_spec (startIndex st) 0) as [_|Hneg]; [|lia].
    unfold scanInvariant; simpl. split; [lia|]. split; [reflexivity|].
    split; [lia|]. apply Forall_app. split; [exact Hc|].
    constructor; [|constructor].
    rewrite Hs, slice_braced.
    assert (Hb : braced (123%N :: middle ++ [125%N])) by (now exists middle).
    now rewrite (trim_braced _ Hb).
  - unfold scanInvariant; simpl. split; [lia|]. split; [lia|].
    split; [|exact Hc]. intros _. now apply Hgrow.
Qed.

Lemma scanLoop_invariant rest : forall prefix st,
  scanInvariant prefix st ->
  scanInvariant (prefix ++ rest)
    (scanLoop (prefix ++ rest) (Z.of_nat (length prefix)) rest st).
Proof.
  induction rest as [|char rest IH]; intros prefix st H; simpl.
  - now rewrite app_nil_r.
  - pose proof (scanStep_invariant prefix char rest st H) as Hstep.
    specialize (IH (prefix ++ [char]) _ Hstep).
    rewrite <- app_assoc in IH. cbn [app] in IH.
    rewrite length_app in IH. cbn [length] in IH.
    replace (Z.of_nat (length prefix) + 1)
      with (Z.of_nat (length prefix + 1)) by lia.
    exact IH.
Qed.

(** X24.  Every candidate that [extractJsonObjectCandidates] cuts out of
    a text runs from an opening brace to a closing brace. *)
Theorem extracted_candidates_are_braced :
  forall text : jsstring,
    Forall braced (extractJsonObjectCandidates text).
Proof.
  intros text. unfold extractJsonObjectCandidates.
  apply (scanLoop_invariant text [] scanStart).
  unfold scanInvariant, scanStart; simpl.
  split; [lia|]. split; [reflexivity|]. split; [lia|constructor].
Qed.

(** *** The record *)

Lemma asText_filled value s : asText value = Some s -> filled s.
Proof.
  unfold asText, filled. destruct value as [[]|]; try discriminate.
  destruct (trim s0) eqn:E; [discriminate|].
  intros [= <-]. split; [discriminate|]. rewrite <- E. apply trim_trim.
Qed.

Lemma lineIdOf_filled index : lineIdOf index <> [].
Proof. unfold lineIdOf. discriminate. Qed.

Lemma ideaOf_filled index idea built :
  ideaOf index idea = Some built -> filledIdea built.
Proof.
  unfold ideaOf.
  assert (Hbuild : forall record : jsstring -> option value,
            (let playback :=
               filter (fun move => negb (isEmpty move))
                 (List.map (fun move => match move with
                                        | JString s => toLowerCase (trim s)
                                        | _ => []
                                        end)
                    match record (js "playback_pv_uci") with
                    | Some (JArray moves) => moves
                    | _ => []
                    end) in
             match asText (record (js "title")),
                   asText (record (js "description")), playback with
             | Some t, Some d, _ :: _ =>
                 Some {| title := t; description := d;
                         selected_line_id :=
                           match asText (record (js "selected_line_id")) with
                           | Some id => id
                           | None => lineIdOf index
                           end;
                         playback_pv_uci := playback |}
             | _, _, _ => None
             end) = Some built -> filledIdea built).
  { intros record. cbv zeta.
    destruct (asText (record (js "title"))) as [t|] eqn:Et; [|discriminate].
    destruct (asText (record (js "description"))) as [d|] eqn:Ed;
      [|discriminate].
    set (playback := filter _ _).
    assert (Hp : Forall (fun move : jsstring => move <> []) playback).
    { apply Forall_forall. intros move Hm. apply filter_In in Hm.
      destruct Hm as [_ Hm]. destruct move; [discriminate|discriminate]. }
    destruct playback as [|m ms] eqn:Ep; [discriminate|].
    intros [= <-]. unfold filledIdea; simpl.
    split; [exact (asText_filled _ _ Et)|].
    split; [exact (asText_filled _ _ Ed)|].
    split.
    - destruct (asText (record (js "selected_line_id"))) as [id|] eqn:Ei.
      + apply (asText_filled _ _ Ei).
      + apply lineIdOf_filled.
    - split; [discriminate|exact Hp]. }
  destruct idea as [| | | |items|members]; try discriminate; intros H.
  exact (Hbuild (fun name => lookup name members) H).
Qed.

Lemma keepSome_ideas ideas : forall index,
  Forall filledIdea (keepSome (mapIndexed ideaOf index ideas)).
Proof.
  induction ideas as [|idea ideas IH]; intros index; simpl; [constructor|].
  destruct (ideaOf index idea) as [built|] eqn:E; [|apply IH].
  constructor; [exact (ideaOf_filled _ _ _ E)|apply IH].
Qed.

(** X25.  A record that the extractor returns is filled in: its title,
    advantage summary, best move, reason and danger are not empty and
    have no white space at their ends; it has at most two concrete ideas,
    and each has such a title and description, a line id, and a playback
    that is not empty and holds no empty move. *)
Theorem extracted_plan_is_filled :
  forall (rawText : jsstring) (plan : CommentaryStructuredPlan),
    parseCommentaryStructuredFromText rawText = Normal (Some plan) ->
    filled (position_plan_title plan) /\
    filled (advantage_summary plan) /\
    filled (best_move_san plan) /\
    filled (best_move_reason plan) /\
    filled (danger_to_watch plan) /\
    (length (concrete_ideas plan) <= 2)%nat /\
    Forall filledIdea (concrete_ideas plan).
Proof.
  intros rawText plan H. unfold parseCommentaryStructuredFromText in H.
  destruct (sanitizeCommentaryText rawText) as [|c clean]; [discriminate|].
  apply firstValid_Some in H. destruct H as (candidate & _ & H).
  apply tryCandidate_Some in H. destruct H as (members & H).
  unfold recordOf in H.
  destruct (asText (readMember members "position_plan_title")) eqn:E1;
    [|discriminate].
  destruct (asText (readMember members "advantage_summary")) eqn:E2;
    [|discriminate].
  destruct (asText (readMember members "best_move_san")) eqn:E3;
    [|discriminate].
  destruct (asText (readMember members "best_move_reason")) eqn:E4;
    [|discriminate].
  destruct (asText (readMember members "danger_to_watch")) eqn:E5;
    [|discriminate].
  destruct (asPlanBullets (readMember members "white_plan")); [|discriminate].
  destruct (asPlanBullets (readMember members "black_plan")); [|discriminate].
  injection H as <-. cbn [position_plan_title advantage_summary best_move_san
                          best_move_reason danger_to_watch concrete_ideas].
  repeat (split; [eapply asText_filled; eassumption|]).
  split.
  - exact (firstn_le_length 2 (keepSome (mapIndexed ideaOf 0 _))).
  - apply Forall_forall. intros idea Hin.
    apply (In_firstn_In 2 (keepSome (mapIndexed ideaOf 0 _))) in Hin.
    pose proof (keepSome_ideas
                  match readMember members "concrete_ideas" with
                  | Some (JArray ideas) => ideas
                  | _ => []
                  end 0%nat) as Hall.
    rewrite Forall_forall in Hall. now apply Hall.
Qed.

End CommentaryShapeFacts.
(** ** The evaluation chart *)

Module EvalChartFacts.
Import Merger MergerFacts EvalChart EvalChartNotions.
Import QArith Qminmax Lqa.
Local Open Scope Z_scope.

Lemma normalizeEval_bounds cp mate value :
  normalizeEval cp mate = Some value -> (-12 <= value /\ value <= 12)%Q.
Proof.
  unfold normalizeEval. destruct mate as [m|].
  - destruct (m >=? 0); intros [= <-]; split; discriminate.
  - destruct cp as [c|]; [|discriminate]. intros [= <-]. split.
    + apply Q.le_max_l.
    + apply Q.max_lub; [discriminate|apply Q.le_min_l].
Qed.

Lemma plotted_withinBounds point : plotted point -> withinBounds point.
Proof. apply normalizeEval_bounds. Qed.

(** *** Lists *)

Lemma findIndex_setAt_depths depth value points : forall index,
  findIndex (fun entry => lp_depth entry =? depth) points = Some index ->
  lp_depth value = depth ->
  List.map lp_depth (setAt index value points) = List.map lp_depth points.
Proof.
  induction points as [|p points IH]; intros index H Hv; simpl in *.
  - discriminate.
  - destruct (Z.eqb_spec (lp_depth p) depth) as [Hp|Hp].
    + injection H as <-. simpl. congruence.
    + destruct (findIndex _ points) as [i|]; [|discriminate].
      injection H as <-. simpl. f_equal. now apply IH.
Qed.

Lemma findIndex_None_depths depth points :
  findIndex (fun entry => lp_depth entry =? depth) points = None ->
  ~ In depth (List.map lp_depth points).
Proof.
  induction points as [|p points IH]; simpl; [tauto|].
  destruct (Z.eqb_spec (lp_depth p) depth) as [Hp|Hp]; [discriminate|].
  destruct (findIndex _ points); [discriminate|].
  intros _ [H|H]; [contradiction|]. now apply IH.
Qed.

Lemma Forall_setAt {A} (P : A -> Prop) value l : forall index,
  P value -> Forall P l -> Forall P (setAt index value l).
Proof.
  induction l as [|a l IH]; intros index Hv Hl; destruct index; simpl;
    try constructor; inversion Hl; subst; auto.
Qed.

Lemma find_app_first {A} (test : A -> bool) l l' :
  find test (l ++ l') =
    match find test l with
    | Some a => Some a
    | None => find test l'
    end.
Proof.
  induction l as [|a l IH]; simpl; [reflexivity|].
  destruct (test a); [reflexivity|exact IH].
Qed.

Lemma setAt_nonempty {A} index (value : A) l : l <> [] -> setAt index value l <> [].
Proof. destruct l, index; simpl; congruence. Qed.

Lemma StronglySorted_map_le {A} (f : A -> Z) l :
  StronglySorted (fun a b => f a <= f b) l -> StronglySorted Z.le (List.map f l).
Proof.
  induction 1 as [|a l Hs IH Hall]; simpl; constructor; [exact IH|].
  apply Forall_map. exact Hall.
Qed.

Lemma StronglySorted_le_lt l :
  StronglySorted Z.le l -> NoDup l -> StronglySorted Z.lt l.
Proof.
  induction 1 as [|a l Hs IH Hall]; intros Hnd; constructor;
    inversion Hnd as [|? ? Ha Hnd']; subst.
  - now apply IH.
  - apply Forall_forall. intros x Hx. rewrite Forall_forall in Hall.
    specialize (Hall x Hx). assert (a <> x) by (intros ->; contradiction). lia.
Qed.

Lemma StronglySorted_lt_NoDup l : StronglySorted Z.lt l -> NoDup l.
Proof.
  induction 1 as [|a l Hs IH Hall]; constructor; [|exact IH].
  intros Hin. rewrite Forall_forall in Hall. specialize (Hall a Hin). lia.
Qed.

Lemma sortBy_points_sorted points :
  StronglySorted Z.le (List.map lp_depth (sortBy comparePoints points)).
Proof.
  apply StronglySorted_map_le.
  apply (sortBy_sorted comparePoints (fun a b => lp_depth a <= lp_depth b));
    unfold comparePoints; intros; lia.
Qed.

Lemma sortBy_rank_sorted series :
  StronglySorted (fun a b => ls_rank a <= ls_rank b)
    (sortBy compareSeries series).
Proof.
  apply (sortBy_sorted compareSeries (fun a b => ls_rank a <= ls_rank b));
    unfold compareSeries; intros; lia.
Qed.

(** *** [upsertPoint] *)

Lemma insert_ascending points point :
  ascending points -> ~ In (lp_depth point) (List.map lp_depth points) ->
  ascending (sortBy comparePoints (points ++ [point])).
Proof.
  unfold ascending. intros Hs Hnew.
  apply StronglySorted_le_lt; [apply sortBy_points_sorted|].
  eapply Permutation_NoDup.
  - apply Permutation_map. apply sortBy_perm.
  - rewrite map_app. simpl. apply NoDup_app.
    + now apply StronglySorted_lt_NoDup.
    + repeat constructor. tauto.
    + intros x Hx [<-|[]]. contradiction.
Qed.

Lemma upsertPoint_ascending series depth line :
  ascending (ls_points series) ->
  ascending (ls_points (upsertPoint series depth line)).
Proof.
  intros H. unfold upsertPoint.
  destruct (normalizeEval (cp line) (mate line)) as [value|]; [|exact H].
  destruct (findIndex _ (ls_points series)) as [index|] eqn:E; simpl.
  - unfold ascending. now rewrite (findIndex_setAt_depths depth _ _ _ E).
  - apply insert_ascending; [exact H|].
    now apply findIndex_None_depths.
Qed.

Lemma upsertPoint_plotted series depth line :
  Forall plotted (ls_points series) ->
  Forall plotted (ls_points (upsertPoint series depth line)).
Proof.
  intros H. unfold upsertPoint.
  destruct (normalizeEval (cp line) (mate line)) as [value|] eqn:En; [|exact H].
  destruct (findIndex _ (ls_points series)) as [index|] eqn:E; simpl.
  - apply Forall_setAt; [exact En|exact H].
  - eapply Permutation_Forall; [apply sortBy_perm|].
    apply Forall_app. split; [exact H|]. constructor; [exact En|constructor].
Qed.

Lemma upsertPoint_id series depth line :
  ls_id (upsertPoint series depth line) = ls_id series.
Proof.
  unfold upsertPoint. destruct (normalizeEval _ _); [|reflexivity].
  destruct (findIndex _ _); reflexivity.
Qed.

Lemma pointAt_setAt depth value points : forall index,
  findIndex (fun entry => lp_depth entry =? depth) points = Some index ->
  lp_depth value = depth ->
  pointAt depth (setAt index value points) = Some value /\
  forall other, other <> depth ->
    pointAt other (setAt index value points) = pointAt other points.
Proof.
  unfold pointAt.
  induction points as [|p points IH]; intros index H Hv; simpl in *.
  - discriminate.
  - destruct (Z.eqb_spec (lp_depth p) depth) as [Hp|Hp].
    + injection H as <-. simpl. rewrite Hv, Z.eqb_refl. split; [reflexivity|].
      intros other Ho.
      destruct (Z.eqb_spec depth other); [congruence|].
      destruct (Z.eqb_spec (lp_depth p) other); [congruence|reflexivity].
    + destruct (findIndex _ points) as [i|]; [|discriminate].
      injection H as <-. simpl.
      destruct (IH i eq_refl Hv) as [IH1 IH2].
      destruct (Z.eqb_spec (lp_depth p) depth); [contradiction|].
      split; [exact IH1|].
      intros other Ho. rewrite (IH2 other Ho). reflexivity.
Qed.

Lemma pointAt_In depth points point :
  pointAt depth points = Some point -> In point points /\ lp_depth point = depth.
Proof.
  unfold pointAt. intros H. apply find_some in H.
  destruct H as [H1 H2]. apply Z.eqb_eq in H2. now split.
Qed.

Lemma pointAt_unique points : forall point,
  NoDup (List.map lp_depth points) -> In point points ->
  pointAt (lp_depth point) points = Some point.
Proof.
  unfold pointAt. induction points as [|p points IH]; intros point Hnd Hin;
    simpl in *; [contradiction|].
  inversion Hnd as [|? ? Hp Hnd']; subst.
  destruct Hin as [->|Hin].
  - now rewrite Z.eqb_refl.
  - destruct (Z.eqb_spec (lp_depth p) (lp_depth point)) as [E|E].
    + exfalso. apply Hp. rewrite E. now apply in_map.
    + now apply IH.
Qed.

Lemma pointAt_None depth points :
  pointAt depth points = None <-> ~ In depth (List.map lp_depth points).
Proof.
  unfold pointAt. induction points as [|p points IH]; simpl; [tauto|].
  destruct (Z.eqb_spec (lp_depth p) depth) as [E|E].
  - split; [discriminate|]. intros H. exfalso. apply H. now left.
  - rewrite IH. tauto.
Qed.

Lemma pointAt_perm depth l l' :
  Permutation l l' -> NoDup (List.map lp_depth l) ->
  pointAt depth l = pointAt depth l'.
Proof.
  intros Hp Hnd.
  assert (Hnd' : NoDup (List.map lp_depth l'))
    by (eapply Permutation_NoDup; [apply Permutation_map; exact Hp|exact Hnd]).
  destruct (pointAt depth l) as [point|] eqn:E.
  - apply pointAt_In in E. destruct E as [Hin <-].
    symmetry. apply pointAt_unique; [exact Hnd'|].
    eapply Permutation_in; eassumption.
  - symmetry. apply pointAt_None. apply pointAt_None in E.
    intros Hin. apply E.
    eapply Permutation_in; [|exact Hin].
    apply Permutation_map. now symmetry.
Qed.

(** X26.  [upsertPoint] records one point for a depth.  With the points
    of a series in strictly increasing depth and a line that has an
    evaluation, the series it returns has its points in strictly
    increasing depth still, holds at the given depth the point of the
    line, holds at every other depth the point it held, and keeps its id,
    rank, move and colour. *)
Theorem upsertPoint_sets_the_point :
  forall (series : LineSeries) (depth : Z) (line : StockfishPVLine)
         (value : Q),
    ascending (ls_points series) ->
    normalizeEval (cp line) (mate line) = Some value ->
    let series' := upsertPoint series depth line in
    ascending (ls_points series') /\
    pointAt depth (ls_points series') =
      Some {| lp_depth := depth; lp_value := value;
              lp_cp := cp line; lp_mate := mate line |} /\
    (forall other, other <> depth ->
       pointAt other (ls_points series') = pointAt other (ls_points series)) /\
    ls_id series' = ls_id series /\ ls_rank series' = ls_rank series /\
    ls_san series' = ls_san series /\
    ls_colorSlot series' = ls_colorSlot series.
Proof.
  intros series depth line value Hasc Heval. cbn zeta.
  split; [now apply upsertPoint_ascending|].
  unfold upsertPoint. rewrite Heval.
  set (point := {| lp_depth := depth; lp_value := value;
                   lp_cp := cp line; lp_mate := mate line |}).
  assert (Hsame : forall points,
            ls_id (withPoints series points) = ls_id series /\
            ls_rank (withPoints series points) = ls_rank series /\
            ls_san (withPoints series points) = ls_san series /\
            ls_colorSlot (withPoints series points) = ls_colorSlot series)
    by (intros; repeat split).
  destruct (findIndex _ (ls_points series)) as [index|] eqn:E.
  - destruct (pointAt_setAt depth point _ _ E eq_refl) as [H1 H2].
    split; [exact H1|]. split; [exact H2|apply Hsame].
  - apply findIndex_None_depths in E.
    assert (Hnd : NoDup (List.map lp_depth (ls_points series ++ [point]))).
    { rewrite map_app. simpl. apply NoDup_app.
      - now apply StronglySorted_lt_NoDup.
      - repeat constructor. tauto.
      - intros x Hx [<-|[]]. contradiction. }
    split; [|split; [|apply Hsame]]; cbn [ls_points withPoints].
    + rewrite <- (pointAt_perm depth _ _ (sortBy_perm comparePoints _) Hnd).
      apply (pointAt_unique _ point Hnd). apply in_or_app. right. now left.
    + intros other Ho.
      rewrite <- (pointAt_perm other _ _ (sortBy_perm comparePoints _) Hnd).
      unfold pointAt. rewrite find_app_first.
      destruct (find _ (ls_points series)); [reflexivity|].
      simpl. destruct (Z.eqb_spec depth other); [congruence|reflexivity].
Qed.

(** *** [buildSeries] *)

Lemma recorded_recordLine depth map line :
  recorded map -> recorded (recordLine depth map line).
Proof.
  intros Hrec. unfold recordLine.
  destruct (la_uci (arrow line)) as [|c id] eqn:Eid; [exact Hrec|].
  intros k series Hin. apply In_mapSet in Hin.
  destruct Hin as [[= -> ->]|Hin]; [|now apply Hrec].
  rewrite upsertPoint_id. cbn [relabel ls_id].
  destruct (mapGet (c :: id) map) as [base|] eqn:Eg.
  - apply mapGet_In in Eg. destruct (Hrec _ _ Eg) as (H1 & H2 & H3 & H4).
    split; [exact H1|]. split; [discriminate|]. split.
    + apply upsertPoint_ascending. exact H3.
    + apply upsertPoint_plotted. exact H4.
  - split; [reflexivity|]. split; [discriminate|]. split.
    + apply upsertPoint_ascending. constructor.
    + apply upsertPoint_plotted. constructor.
Qed.

Lemma recorded_recordEvent map event :
  recorded map -> recorded (recordEvent map event).
Proof.
  intros H. unfold recordEvent.
  destruct (isDepthEvent event) as [depthEvent|]; [|exact H].
  revert map H. induction (ArrowState.linesOfEvent depthEvent) as [|l ls IH];
    intros map H; simpl; [exact H|].
  apply IH. now apply recorded_recordLine.
Qed.

Lemma recorded_events events : forall map,
  recorded map -> recorded (fold_left recordEvent events map).
Proof.
  induction events as [|e events IH]; intros map H; simpl; [exact H|].
  apply IH. now apply recorded_recordEvent.
Qed.

Lemma activeLoop_shown map lines : forall seenActive activeSeries,
  recorded map ->
  (length activeSeries <= MAX_DISPLAY_SERIES)%nat ->
  NoDup (List.map ls_id activeSeries) ->
  (forall series, In series activeSeries -> In (ls_id series) seenActive) ->
  Forall shownSeries activeSeries ->
  let result := activeLoop map lines seenActive activeSeries in
  (length result <= MAX_DISPLAY_SERIES)%nat /\
  NoDup (List.map ls_id result) /\
  Forall shownSeries result.
Proof.
  induction lines as [|line lines IH];
    intros seen active Hrec Hlen Hnd Hseen Hshown; cbn zeta; cbn [activeLoop].
  - auto.
  - destruct (Nat.leb_spec MAX_DISPLAY_SERIES (length active)) as [Hfull|Hroom];
      [auto|].
    destruct (la_uci (arrow line)) as [|c id] eqn:Eid; cbn [Commentary.isEmpty orb].
    { now apply IH. }
    destruct (existsb (jsstring_eqb (c :: id)) seen) eqn:Eseen.
    { now apply IH. }
    assert (Hseen' : forall series, In series active ->
                                    In (ls_id series) (seen ++ [c :: id])).
    { intros s Hs. apply in_or_app. left. now apply Hseen. }
    destruct (mapGet (c :: id) map) as [historical|] eqn:Eg; [|now apply IH].
    destruct (ls_points historical) as [|p ps] eqn:Ep; [now apply IH|].
    apply mapGet_In in Eg. destruct (Hrec _ _ Eg) as (H1 & H2 & H3 & H4).
    apply IH; auto.
    + rewrite length_app. simpl. lia.
    + rewrite map_app. simpl. rewrite H1. apply NoDup_app.
      * exact Hnd.
      * repeat constructor. tauto.
      * intros x Hx [<-|[]]. apply in_map_iff in Hx.
        destruct Hx as (s & Hs & Hin). apply Hseen in Hin. rewrite Hs in Hin.
        assert (existsb (jsstring_eqb (c :: id)) seen = true).
        { apply existsb_exists. exists (c :: id).
          split; [exact Hin|apply jsstring_eqb_refl]. }
        congruence.
    + intros s Hs. apply in_app_or in Hs. destruct Hs as [Hs|[<-|[]]].
      * apply in_or_app. left. now apply Hseen.
      * apply in_or_app. right. left. simpl. now rewrite H1.
    + apply Forall_app. split; [exact Hshown|].
      constructor; [|constructor].
      unfold shownSeries; cbn [relabel ls_id ls_points].
      rewrite H1, Ep in *. split; [discriminate|]. split; [discriminate|].
      split; [exact H3|]. split; [exact H4|].
      eapply Forall_impl; [|exact H4]. apply plotted_withinBounds.
Qed.

(** X27.  The series of the chart.  Whatever the events, [buildSeries]
    returns at most five series, in the order of their ranks, no two for
    the same move; each has a move id that is not empty and at least one
    point, its points stand in strictly increasing depth, and the value
    of each point is the normalised evaluation of the score the point
    carries, which lies between -12 and 12. *)
Theorem buildSeries_shows_at_most_five :
  forall events : list StockfishStreamEvent,
    let series := buildSeries events in
    (length series <= 5)%nat /\
    StronglySorted (fun a b => ls_rank a <= ls_rank b) series /\
    NoDup (List.map ls_id series) /\
    Forall shownSeries series.
Proof.
  intros events. cbn zeta. unfold buildSeries.
  destruct (find _ (rev events)) as [latest|].
  2:{ repeat split; try constructor. simpl. lia. }
  set (lines := match isDepthEvent latest with
                | Some depthEvent => ArrowState.linesOfEvent depthEvent
                | None => []
                end).
  assert (Hrec : recorded (fold_left recordEvent events []))
    by (apply recorded_events; intros ? ? []).
  pose proof (activeLoop_shown (fold_left recordEvent events []) lines [] []
                Hrec) as Hloop.
  cbn zeta in Hloop.
  specialize (Hloop ltac:(unfold MAX_DISPLAY_SERIES; simpl; lia)
                    ltac:(constructor) ltac:(intros ? []) ltac:(constructor)).
  destruct Hloop as (Hlen & Hnd & Hshown).
  pose proof (sortBy_perm compareSeries
                (activeLoop (fold_left recordEvent events []) lines [] []))
    as Hperm.
  split; [|split; [|split]].
  - rewrite <- (Permutation_length Hperm). exact Hlen.
  - apply sortBy_rank_sorted.
  - eapply Permutation_NoDup; [apply Permutation_map; exact Hperm|exact Hnd].
  - eapply Permutation_Forall; [exact Hperm|exact Hshown].
Qed.

(** *** Rows and the depth axis *)

Lemma compareRows_le x y : compareRows x y <= 0 -> rowLe x y.
Proof.
  unfold compareRows, rowLe.
  destruct (Qcompare (row_depth x) (row_depth y)) eqn:E; intros H; try lia.
  - apply Qeq_alt in E. rewrite E. apply Qle_refl.
  - apply Qlt_alt in E. now apply Qlt_le_weak.
Qed.

Lemma compareRows_total x y : ~ compareRows x y <= 0 -> rowLe y x.
Proof.
  unfold compareRows, rowLe.
  destruct (Qcompare (row_depth x) (row_depth y)) eqn:E; intros H; try lia.
  apply Qgt_alt in E. now apply Qlt_le_weak.
Qed.

Lemma rowLe_trans x y z : rowLe x y -> rowLe y z -> rowLe x z.
Proof. unfold rowLe. apply Qle_trans. Qed.

Lemma last_cons_default {A} (l : list A) : forall a d d',
  last (a :: l) d = last (a :: l) d'.
Proof.
  induction l as [|b l IH]; intros a d d'; [reflexivity|].
  change (last (a :: b :: l) d) with (last (b :: l) d).
  change (last (a :: b :: l) d') with (last (b :: l) d').
  apply IH.
Qed.

Lemma sorted_last_greatest (rows : list DepthRow) : forall first,
  StronglySorted rowLe (first :: rows) ->
  Forall (fun row => rowLe row (last (first :: rows) first)) (first :: rows).
Proof.
  induction rows as [|r rows IH]; intros first Hs.
  - constructor; [apply Qle_refl|constructor].
  - inversion Hs as [|? ? Hs' Hall]; subst.
    specialize (IH r Hs').
    change (last (first :: r :: rows) first) with (last (r :: rows) first).
    assert (Hlast : last (r :: rows) first = last (r :: rows) r)
      by apply last_cons_default.
    rewrite Hlast. constructor; [|exact IH].
    inversion IH as [|? ? Hr _]; subst.
    inversion Hall as [|? ? Hfr _]; subst.
    eapply rowLe_trans; eassumption.
Qed.

(** X28.  The depth axis covers the chart data.  The rows that
    [buildDepthRows] makes of any series come in the order of their depths,
    and the depth of every row lies within the domain that [computeXDomain]
    gives for them, whose lower end is not above its upper end.  The ends
    differ whenever adding 1 to the depth of a row gives a larger number,
    as it does in double arithmetic below 2^53.  The sum [min + 1] of the
    source is a parameter here, of which only [x <= x + 1] is assumed. *)
Theorem x_domain_covers_the_rows :
  forall addOne : Q -> Q,
    (forall x : Q, (x <= addOne x)%Q) ->
    forall series : list LineSeries,
      let data := buildDepthRows series in
      let domain := computeXDomain addOne data in
      (fst domain <= snd domain)%Q /\
      StronglySorted rowLe data /\
      Forall (fun row => (fst domain <= row_depth row)%Q /\
                         (row_depth row <= snd domain)%Q) data /\
      (Forall (fun row => (row_depth row < addOne (row_depth row))%Q) data ->
       (fst domain < snd domain)%Q).
Proof.
  intros addOne Hadd series. cbn zeta.
  assert (Hsorted : StronglySorted rowLe (buildDepthRows series)).
  { unfold buildDepthRows.
    apply (sortBy_sorted compareRows rowLe compareRows_le compareRows_total
             rowLe_trans). }
  destruct (buildDepthRows series) as [|first rows] eqn:Ed.
  - split; [discriminate|]. split; [constructor|]. split; [constructor|].
    intros _. reflexivity.
  - pose proof (sorted_last_greatest rows first Hsorted) as Hlast.
    assert (Hfirst : Forall (fun row => rowLe first row) (first :: rows)).
    { inversion Hsorted; subst. constructor; [apply Qle_refl|assumption]. }
    unfold computeXDomain.
    destruct (Qlt_le_dec (row_depth first)
                (row_depth (last (first :: rows) first))) as [Hlt|Hle];
      cbn [fst snd].
    + split; [now apply Qlt_le_weak|]. split; [exact Hsorted|]. split.
      * rewrite Forall_forall in *. intros row Hrow.
        split; [apply (Hfirst row Hrow)|apply (Hlast row Hrow)].
      * intros _. exact Hlt.
    + pose proof (Hadd (row_depth first)) as H1.
      split; [exact H1|]. split; [exact Hsorted|]. split.
      * rewrite Forall_forall in *. intros row Hrow.
        specialize (Hfirst row Hrow). specialize (Hlast row Hrow).
        unfold rowLe in *. split; lra.
      * intros Hstrict. inversion Hstrict; subst. assumption.
Qed.

End EvalChartFacts.
(** ** The opening replay of the dashboard *)

Module DashboardFacts.
Import Dashboard.

Lemma options_nonempty previous :
  filter (fun opening => negb (jsstring_eqb (name opening) previous))
    OPENING_REPLAYS <> [].
Proof.
  assert (H : exists opening,
            In opening (filter (fun opening =>
                                  negb (jsstring_eqb (name opening) previous))
                          OPENING_REPLAYS)).
  { destruct (jsstring_eqb (name ruyLopez) previous) eqn:E.
    - exists (nth 1 OPENING_REPLAYS ruyLopez). apply filter_In. split.
      + right. left. reflexivity.
      + apply jsstring_eqb_eq in E. subst previous. reflexivity.
    - exists ruyLopez. apply filter_In. split; [now left|]. now rewrite E. }
  destruct H as [opening H]. intros E. rewrite E in H. exact H.
Qed.

(** X29.  A new random opening.  Whatever index is drawn within the
    options, [pickRandomOpening] returns one of the openings of
    [OPENING_REPLAYS], and never the one whose name it was given as the
    previous one. *)
Theorem pickRandomOpening_never_repeats :
  forall (draw : nat -> nat) (previous : option jsstring),
    (forall n, (0 < n)%nat -> (draw n < n)%nat) ->
    In (pickRandomOpening draw previous) OPENING_REPLAYS /\
    (forall previousName,
       previous = Some previousName -> previousName <> [] ->
       name (pickRandomOpening draw previous) <> previousName).
Proof.
  intros draw previous Hdraw. unfold pickRandomOpening.
  change (length OPENING_REPLAYS =? 1)%nat with false. cbv iota.
  set (options := match previous with
                  | Some ((_ :: _) as previousName) =>
                      filter (fun opening =>
                                negb (jsstring_eqb (name opening) previousName))
                        OPENING_REPLAYS
                  | _ => OPENING_REPLAYS
                  end).
  assert (Hne : options <> []).
  { unfold options. destruct previous as [[|c p]|]; try discriminate.
    apply options_nonempty. }
  assert (Hsub : forall opening, In opening options ->
                                 In opening OPENING_REPLAYS).
  { unfold options. intros opening H.
    destruct previous as [[|c p]|]; try exact H.
    now apply filter_In in H. }
  assert (Hlen : (draw (length options) < length options)%nat).
  { apply Hdraw. destruct options; [contradiction|simpl; lia]. }
  destruct (nth_error options (draw (length options))) as [opening|] eqn:E.
  2:{ apply nth_error_None in E. lia. }
  apply nth_error_In in E. split; [now apply Hsub|].
  intros previousName -> Hp. unfold options in E.
  destruct previousName as [|c p]; [contradiction|].
  apply filter_In in E. destruct E as [_ E].
  apply negb_true_iff, jsstring_eqb_neq in E. exact E.
Qed.

End DashboardFacts.
(** ** Examples for the further properties *)

Module TransportRunExamples.
Import Sse Transport TransportRuns TransportRunFacts Examples ExampleViews.

(** Two chunks that cut a frame in two. *)
Example trace_undisturbed :
  snd (deliver opened
         (undisturbed 200 (js "OK") [js "data: 1" ++ [10%N]; [10%N] ++ js "data: 2"]))
  = [OnOpen; OnEvent (frame "1"); OnClose].
Proof. reflexivity. Qed.

(** Witness of X11: the request fails and the consumer closes the
    handle. *)
Lemma nothing_but_onClose_after_onError_witness :
  snd (deliver opened failThenClose)
    = [] ++ OnError (js "Failed to fetch") :: [OnClose] /\
  ([OnClose] = [] \/ [OnClose] = [OnClose]).
Proof.
  split; [reflexivity|].
  exact (nothing_but_onClose_after_onError failThenClose []
           (js "Failed to fetch") [OnClose] eq_refl).
Defined.

End TransportRunExamples.

Module BoardExamples.
Import FenBoard FenBoardNotions FenBoardFacts Ideas AnimationNotions PlaybackFacts.
Import Commentary CommentaryShapes CommentaryShapeFacts Boards Examples.

(** The centre of e4, from either side of the board. *)
Example squareToNormalized_e4 :
  option_map (fun p => (Qreduction.Qred (fst p), Qreduction.Qred (snd p)))
    (squareToNormalized (js "e4") FenBoard.white)
    = Some (QArith_base.Qmake 9 16, QArith_base.Qmake 9 16) /\
  option_map (fun p => (Qreduction.Qred (fst p), Qreduction.Qred (snd p)))
    (squareToNormalized (js "e4") FenBoard.black)
    = Some (QArith_base.Qmake 7 16, QArith_base.Qmake 7 16).
Proof. split; vm_compute; reflexivity. Qed.

(** The ideas of the engine after the two reports of the merger examples. *)
Example engine_ideas_two_reports :
  List.map (fun idea => (title idea, selected_line_id idea, playback_pv_uci idea))
    (buildEngineConcreteIdeas (MergerRuns.mergeAll [reportDepth9; reportDepth8]))
  = [(js "Try e2e4", js "L01", [js "e2e4"]);
     (js "Try d2d4", js "L02", [js "d2d4"])].
Proof. vm_compute. reflexivity. Qed.

(** Witness of X19. *)
Lemma parseFenBoard_position_is_valid_witness :
  fst (sixFields STARTING_FEN) = true /\
  parseFenBoard sixFields paddedFen =
    {| normalizedFen := js "8/8/8/8/8/8/8/K6k w - - 0 1"; error := None |} /\
  fst (sixFields (normalizedFen (parseFenBoard sixFields paddedFen))) = true.
Proof.
  split; [reflexivity|]. split; [reflexivity|].
  exact (proj1 (parseFenBoard_position_is_valid sixFields paddedFen eq_refl)).
Defined.

(** Witness of X20. *)
Lemma parseUciForPlayback_reads_the_move_witness :
  parseUciForPlayback promotionText =
    Some {| pm_from := js "e7"; pm_to := js "e8"; pm_promotion := Some 113%N |} /\
  moveText {| pm_from := js "e7"; pm_to := js "e8"; pm_promotion := Some 113%N |}
    = toLowerCase (trim promotionText).
Proof.
  split; [reflexivity|].
  exact (proj1 (proj2 (proj2 (proj2
           (parseUciForPlayback_reads_the_move promotionText _ eq_refl))))).
Defined.

(** Witness of X21: eleven code units are shown after four ticks. *)
Lemma animation_reveals_the_text_witness :
  ticks 4 (js "Open center") [] = js "Open center".
Proof.
  refine (proj1 (proj2 (animation_reveals_the_text (js "Open center") [] 4 _ _) _));
    simpl; lia.
Defined.

(** Witness of X22. *)
Lemma sanitized_text_holds_no_fence_witness :
  sanitizeCommentaryText fenceInside = js "```x" /\
  startsWith fence (trim fenceInside) = true.
Proof.
  split; [reflexivity|].
  exact (proj1 (sanitized_text_holds_no_fence fenceInside eq_refl)).
Defined.

(** Witness of X25. *)
Lemma extracted_plan_is_filled_witness :
  exists plan,
    parseCommentaryStructuredFromText samplePlan = Normal (Some plan) /\
    filled (position_plan_title plan) /\
    Forall filledIdea (concrete_ideas plan).
Proof.
  assert (H : exists plan,
            parseCommentaryStructuredFromText samplePlan = Normal (Some plan))
    by (eexists; vm_compute; reflexivity).
  destruct H as [plan H]. exists plan. split; [exact H|].
  pose proof (extracted_plan_is_filled samplePlan plan H) as Hfilled.
  split; [apply Hfilled|]. apply Hfilled.
Defined.

End BoardExamples.

Module ChartExamples.
Import EvalChart EvalChartNotions EvalChartFacts Charts Examples.
Import Dashboard DashboardFacts.

(** The chart of the two reports of [twoReports]: two series, each with a
    point at depth 8 and one at depth 9, and a depth axis from 8 to 9. *)
Example chart_twoReports :
  let series :=
    buildSeries (ArrowState.events (ArrowStateReach.reached Runs.twoReports)) in
  List.map (fun s => (ls_id s, ls_rank s, List.map lp_depth (ls_points s))) series
    = [(js "e2e4", 1, [8; 9]); (js "d2d4", 2, [8; 9])] /\
  List.map (fun row => List.map fst (row_cells row)) (buildDepthRows series)
    = [[js "e2e4"; js "d2d4"]; [js "e2e4"; js "d2d4"]] /\
  computeXDomain addOneUpTo2p53 (buildDepthRows series)
    = (QArith_base.inject_Z 8, QArith_base.inject_Z 9).
Proof. cbv zeta. split; [|split]; vm_compute; reflexivity. Qed.

(** One row at depth 2^53: adding 1 gives 2^53 again, and the ends of the
    depth axis coincide. *)
Example x_domain_at_2p53 :
  computeXDomain addOneUpTo2p53 (buildDepthRows [farBranch])
    = (QArith_base.inject_Z twoTo53, QArith_base.inject_Z twoTo53).
Proof. vm_compute. reflexivity. Qed.

(** Witness of X28: one row at depth 8, and an axis from 8 to 9. *)
Lemma x_domain_covers_the_rows_witness :
  (forall x : QArith_base.Q,
     QArith_base.Qle x (QArith_base.Qplus x (QArith_base.inject_Z 1))) /\
  computeXDomain (fun x => QArith_base.Qplus x (QArith_base.inject_Z 1))
    (buildDepthRows [oneBranch])
    = (QArith_base.inject_Z 8,
       QArith_base.Qplus (QArith_base.inject_Z 8) (QArith_base.inject_Z 1)) /\
  QArith_base.Qlt
    (fst (computeXDomain (fun x => QArith_base.Qplus x (QArith_base.inject_Z 1))
            (buildDepthRows [oneBranch])))
    (snd (computeXDomain (fun x => QArith_base.Qplus x (QArith_base.inject_Z 1))
            (buildDepthRows [oneBranch]))).
Proof.
  assert (Hadd : forall x : QArith_base.Q,
             QArith_base.Qle x (QArith_base.Qplus x (QArith_base.inject_Z 1))).
  { intros x. unfold QArith_base.Qle, QArith_base.Qplus. simpl. nia. }
  split; [exact Hadd|]. split; [reflexivity|].
  refine (proj2 (proj2 (proj2
            (x_domain_covers_the_rows
               (fun x => QArith_base.Qplus x (QArith_base.inject_Z 1))
               Hadd [oneBranch]))) _).
  repeat constructor.
Defined.

(** Witness of X26: a second point, at depth 9. *)
Lemma upsertPoint_sets_the_point_witness :
  List.map lp_depth (ls_points (upsertPoint oneBranch 9 (mkLine 1 "e2e4" 29)))
    = [8; 9] /\
  ascending (ls_points (upsertPoint oneBranch 9 (mkLine 1 "e2e4" 29))).
Proof.
  split; [reflexivity|].
  refine (proj1 (upsertPoint_sets_the_point oneBranch 9 (mkLine 1 "e2e4" 29)
                   _ _ eq_refl)).
  repeat constructor.
Defined.

(** Witness of X29: the first option is drawn after the Ruy Lopez. *)
Lemma pickRandomOpening_never_repeats_witness :
  name (pickRandomOpening (fun _ => 0%nat) (Some (js "Ruy Lopez")))
    = js "Sicilian Defense" /\
  In (pickRandomOpening (fun _ => 0%nat) (Some (js "Ruy Lopez")))
    OPENING_REPLAYS.
Proof.
  split; [reflexivity|].
  refine (proj1 (pickRandomOpening_never_repeats (fun _ => 0%nat)
                   (Some (js "Ruy Lopez")) _)).
  intros n H. exact H.
Defined.

End ChartExamples.
